(** * Tiny Search Engine: index, query evaluation and ranking

    A shallow embedding of [common/index.c] and [querier/querier.c], and of
    the code around them: [common/word.c], [common/pagedir.c],
    [indexer/indexer.c] and [indexer/indextest.c].

    C values are modelled as follows.
    - [int] is [Z].  Where the code adds counts that come from the index
      file ([callbackAddCounts]) or converts numbers read from it ([fscanf]
      with "%d"), the limits of [int] are modelled: see [int_add] and
      [stored_int].  The other sums of the code count objects held in
      memory (documents, tokens, result lines) and are done in [Z].
    - A [counters_t *] is an optional location ([None] is [NULL]) into a
      heap of counters objects; evaluation code that mutates an object
      through a pointer is a heap transformer, so that aliasing between the
      stored index and the evaluator's accumulators is visible.
    - A [char *] word is a [string]; a text stream or a writable character
      buffer is a [list ascii]. *)

From Stdlib Require Import ZArith Lia List Ascii String.
From stdpp Require Import base option gmap strings list fin_maps sorting.

Local Open Scope Z_scope.

(** ** The type [int]: 32 bits in two's complement *)

(** The largest and the smallest [int]. *)
Definition INT_MAX : Z := 2147483647.

Definition INT_MIN : Z := -2147483648.

Definition is_int (z : Z) : bool := (INT_MIN <=? z) && (z <=? INT_MAX).

(** The [int] that has the low 32 bits of [z]. *)
Definition int_wrap (z : Z) : Z := (z + 2 ^ 31) mod 2 ^ 32 - 2 ^ 31.

(** [a + b] for two [int]s.  A sum that does not fit wraps around (ISO C
    leaves signed overflow undefined; the compiled code adds the 32-bit
    words).  Every number of a C state is an [int]; the counters of the
    model can hold numbers that are not, and for those the sum is the sum
    in [Z]. *)
Definition int_add (a b : Z) : Z :=
  if is_int a && is_int b then int_wrap (a + b) else a + b.

(** ** Memory: counters objects live in a heap *)

Definition loc := positive.
Abbreviation counters_t := (gmap Z Z).
Abbreviation heap := (gmap loc (gmap Z Z)).
Abbreviation ptr := (option loc).

(** The object a pointer designates, if any. *)
Definition deref (h : heap) (p : ptr) : option counters_t :=
  match p with
  | Some l => h !! l
  | None => None
  end.

(** ** libcs50 counters *)

(** Modelled from the spec: [counters_new] of libcs50 (the library sources
    are not part of the tree).  A DocCounts is "created empty"; the new
    object lives at a location that is not in use. *)
Definition counters_new (h : heap) : loc * heap :=
  let l := fresh (dom h) in (l, <[l := ∅]> h).

(** Modelled from the spec: [counters_get] of libcs50.  "Returns the count,
    or 0 if the document is absent"; a [NULL] counters has no entries. *)
Definition counters_get (h : heap) (ctrs : ptr) (key : Z) : Z :=
  match deref h ctrs with
  | Some c => default 0 (c !! key)
  | None => 0
  end.

(** Modelled from the spec: [counters_set] of libcs50.  "Overwrites (or
    creates) an entry with an explicit value"; the spec's "count must be
    >= 0" is an obligation of the caller: [index_set] checks it, the
    minimum of [callbackSetMinimum] keeps it (see [queryEvaluate_nonneg]
    below), and [callbackAddCounts] says what happens to a sum that breaks
    it. *)
Definition counters_set (ctrs : ptr) (key count : Z) (h : heap) : heap :=
  match ctrs with
  | Some l => alter (<[key := count]>) l h
  | None => h
  end.

(** Modelled from the spec: [counters_add] of libcs50.  "Sets count to 1 if
    absent, else adds 1." *)
Definition counters_add (ctrs : ptr) (key : Z) (h : heap) : heap :=
  match ctrs with
  | Some l =>
      alter (λ c, <[key := match c !! key with
                           | Some n => n + 1
                           | None => 1
                           end]> c) l h
  | None => h
  end.

(** Modelled from the spec: [counters_iterate] of libcs50.  Iteration
    "only visits entries that were ever inserted", each once, in an
    unspecified order (here the order of [map_to_list]; no result below
    depends on it).  The callback receives the key and the count of the
    entry and acts on a state [S]: the heap when the callback's [arg] is a
    counters object, a local variable otherwise.  The callbacks of the tree
    only overwrite the count of the entry being visited, so the entries
    visited are those present when the iteration starts. *)
Definition counters_iterate {S : Type} (ctrs : ptr)
    (itemfunc : Z → Z → S → S) (h : heap) (s : S) : S :=
  match deref h ctrs with
  | Some c => foldl (λ s kv, itemfunc kv.1 kv.2 s) s (map_to_list c)
  | None => s
  end.

(** Modelled from the spec: [counters_delete] of libcs50; the object is
    "destroyed when its owner is discarded". *)
Definition counters_delete (ctrs : ptr) (h : heap) : heap :=
  match ctrs with
  | Some l => delete l h
  | None => h
  end.

(** The data-model invariant of a DocCounts: no entry has a negative count. *)
Definition counters_nonneg (c : counters_t) : Prop :=
  ∀ k v, c !! k = Some v → 0 ≤ v.

(** ** Characters (the "C" locale of <ctype.h>) *)

Definition NUL : ascii := Ascii.zero.

Definition code (c : ascii) : N := N_of_ascii c.

Definition isspace (c : ascii) : bool :=
  (code c =? 32)%N || ((9 <=? code c)%N && (code c <=? 13)%N).

Definition isupper (c : ascii) : bool :=
  (65 <=? code c)%N && (code c <=? 90)%N.

Definition islower (c : ascii) : bool :=
  (97 <=? code c)%N && (code c <=? 122)%N.

Definition isalpha (c : ascii) : bool := isupper c || islower c.

Definition isdigit (c : ascii) : bool :=
  (48 <=? code c)%N && (code c <=? 57)%N.

Definition tolower (c : ascii) : ascii :=
  if isupper c then ascii_of_N (code c + 32) else c.

(** The C string at the start of a character array: the characters before
    the first NUL. *)
Fixpoint cstring (l : list ascii) : list ascii :=
  match l with
  | [] => []
  | c :: l => if Ascii.eqb c NUL then [] else c :: cstring l
  end.

(** ** The index: a hashtable from words to counters objects *)

(** [struct index { hashtable_t *ht; }]: the table maps each word to the
    location of the counters object it owns. *)
Abbreviation index_t := (gmap string loc).

(** index.c, [index_find] *)
Definition index_find (index : index_t) (word : string) : ptr :=
  index !! word.

(** Every counters object of the index is allocated. *)
Definition index_alloc (index : index_t) (h : heap) : Prop :=
  map_Forall (λ _ l, is_Some (h !! l)) index.

(** Modelled from the spec: [hashtable_new] of libcs50 (not in the tree).
    The table is created empty; the number of slots is a capacity,
    "advisory, not a hard limit", and does not show in the mapping.
    libcs50 wants a number of slots greater than 0 and returns [NULL]
    ([None]) for any other. *)
Definition hashtable_new (num_slots : Z) : option index_t :=
  if 0 <? num_slots then Some ∅ else None.

(** index.c, [index_new].  It returns [NULL] exactly when [hashtable_new]
    does (the allocation of the [struct index] is taken to succeed), and
    its callers test for that before they use the index: [index_load]
    below, and [main] of the indexer, which asks for 500 slots.
    [index_new] is the index returned otherwise, with the new table. *)
Definition index_new (num_slots : Z) : index_t :=
  default ∅ (hashtable_new num_slots).

(** index.c, [index_insert], for an [index] and a [word] that are not
    [NULL].  [hashtable_find] and [hashtable_insert] of libcs50 are the
    lookup and the insertion of a new key of the mapping. *)
Definition index_insert (index : index_t) (word : string) (docID : Z)
    (h : heap) : index_t * heap :=
  if docID <? 0 then (index, h)
  else
    match index !! word with
    | Some ctrs => (index, counters_add (Some ctrs) docID h)
    | None =>
        let '(ctrs, h) := counters_new h in
        (<[word := ctrs]> index, counters_add (Some ctrs) docID h)
    end.

(** index.c, [index_set] *)
Definition index_set (index : index_t) (word : string) (docID count : Z)
    (h : heap) : index_t * heap :=
  if (docID <? 0) || (count <? 0) then (index, h)
  else
    match index !! word with
    | Some ctrs => (index, counters_set (Some ctrs) docID count h)
    | None =>
        let '(ctrs, h) := counters_new h in
        (<[word := ctrs]> index, counters_set (Some ctrs) docID count h)
    end.

(** ** Text streams: [fprintf] and [fscanf] *)

Definition digit (n : Z) : ascii := ascii_of_N (48 + Z.to_N n).

Definition digit_val (c : ascii) : Z := Z.of_N (code c) - 48.

(** The decimal digits of [n >= 0], most significant first, put before
    [acc]; a number below [2 ^ fuel] has at most [fuel] digits. *)
Fixpoint print_digits (fuel : nat) (n : Z) (acc : list ascii) : list ascii :=
  match fuel with
  | O => acc
  | S fuel =>
      let acc := digit (n mod 10) :: acc in
      if n / 10 =? 0 then acc else print_digits fuel (n / 10) acc
  end.

Definition print_nat (n : Z) : list ascii :=
  print_digits (S (Z.to_nat (Z.log2 n))) n [].

(** [fprintf(fp, "%d", z)] *)
Definition print_int (z : Z) : list ascii :=
  if z <? 0 then "-"%char :: print_nat (- z) else print_nat z.

(** White space is skipped before a conversion. *)
Fixpoint skip_ws (fp : list ascii) : list ascii :=
  match fp with
  | c :: fp' => if isspace c then skip_ws fp' else fp
  | [] => []
  end.

(** The number that the digits at the head of [fp] denote, after the digits
    that gave [acc], and the rest of the stream. *)
Fixpoint scan_digits (fp : list ascii) (acc : Z) : Z * list ascii :=
  match fp with
  | c :: fp' =>
      if isdigit c then scan_digits fp' (acc * 10 + digit_val c) else (acc, fp)
  | [] => (acc, [])
  end.

(** The largest and the smallest [long] (64 bits). *)
Definition LONG_MAX : Z := 9223372036854775807.

Definition LONG_MIN : Z := -9223372036854775808.

(** What [fscanf] with "%d" stores in the [int] when the digits read denote
    the number [n].  A number that fits the [int] is stored as it is.  For
    the others ISO C leaves the result undefined; the C library (glibc)
    converts the digits as [strtol] does, which gives [LONG_MAX] or
    [LONG_MIN] for a number outside [long], and stores the [long] in the
    [int], which keeps its low 32 bits. *)
Definition stored_int (n : Z) : Z :=
  int_wrap (Z.max LONG_MIN (Z.min LONG_MAX n)).

(** [fscanf(fp, "%d", &z)]: the value when the conversion succeeds, and the
    rest of the stream.  White space and a sign are consumed even when no
    digit follows; [scan_number] reads the digits after the sign. *)
Definition scan_number (neg : bool) (fp : list ascii)
    : option Z * list ascii :=
  match fp with
  | c :: _ =>
      if isdigit c then
        let '(n, fp) := scan_digits fp 0 in
        (Some (stored_int (if neg then - n else n)), fp)
      else (None, fp)
  | [] => (None, [])
  end.

Definition scan_int (fp : list ascii) : option Z * list ascii :=
  match skip_ws fp with
  | c :: fp' =>
      if Ascii.eqb c "-" then scan_number true fp'
      else if Ascii.eqb c "+" then scan_number false fp'
      else scan_number false (c :: fp')
  | [] => (None, [])
  end.

Fixpoint scan_nonspace (fp : list ascii) : list ascii * list ascii :=
  match fp with
  | c :: fp' =>
      if isspace c then ([], fp)
      else let '(w, rest) := scan_nonspace fp' in (c :: w, rest)
  | [] => ([], [])
  end.

(** [fscanf(fp, "%s", word)]: the characters stored when the conversion
    succeeds, and the rest of the stream. *)
Definition scan_word (fp : list ascii) : option (list ascii) * list ascii :=
  match skip_ws fp with
  | [] => (None, [])
  | fp => let '(w, rest) := scan_nonspace fp in (Some w, rest)
  end.

(** ** index.c: saving and loading *)

(** index.c, [save_index_counts]: [fprintf(fp, " %d %d", docID, count)] *)
Definition save_index_counts (docID count : Z) (fp : list ascii)
    : list ascii :=
  fp ++ " "%char :: print_int docID ++ " "%char :: print_int count.

(** index.c, [save_index_word] *)
Definition save_index_word (h : heap) (key : string) (item : loc)
    (fp : list ascii) : list ascii :=
  let fp := fp ++ list_ascii_of_string key in
  let fp := counters_iterate (Some item) save_index_counts h fp in
  fp ++ ["010"%char].

(** Modelled from the spec: [hashtable_iterate] of libcs50 visits every
    (word, item) of the table once, in an unspecified order (here that of
    [map_to_list]). *)
Definition hashtable_iterate {S : Type} (ht : index_t)
    (itemfunc : string → loc → S → S) (s : S) : S :=
  foldl (λ s kv, itemfunc kv.1 kv.2 s) s (map_to_list ht).

(** index.c, [index_save]: what is written to [fp]. *)
Definition index_save (index : index_t) (h : heap) (fp : list ascii)
    : list ascii :=
  hashtable_iterate index (save_index_word h) fp.

(** What [index_load] gives: [NULL] for a [NULL] stream; the end of the
    process in [mem_assert], when [index_new] returns [NULL]; a write past
    the buffer, when [fscanf("%s")] stores 256 characters or more (and the
    terminating NUL) into [char word[256]]; or an index. *)
Inductive load_result :=
  | LoadNull
  | LoadExit
  | LoadOverrun
  | Loaded (index : index_t) (h : heap).

(** The inner loop of [index_load]:
    [while (fscanf(fp, "%d %d", &docID, &count) == 2) index_set(...)]. *)
Fixpoint load_pairs (fuel : nat) (word : string) (fp : list ascii)
    (index : index_t) (h : heap) : index_t * heap * list ascii :=
  match fuel with
  | O => (index, h, fp)
  | S fuel =>
      match scan_int fp with
      | (Some docID, fp1) =>
          match scan_int (skip_ws fp1) with
          | (Some count, fp2) =>
              let '(index, h) := index_set index word docID count h in
              load_pairs fuel word fp2 index h
          | (None, fp2) => (index, h, fp2)
          end
      | (None, fp1) => (index, h, fp1)
      end
  end.

(** The outer loop of [index_load]: [while (fscanf(fp, "%s", word) == 1)].
    The word that [index_set] sees is the C string in the buffer. *)
Fixpoint load_words (fuel : nat) (fp : list ascii) (index : index_t)
    (h : heap) : load_result :=
  match fuel with
  | O => Loaded index h
  | S fuel =>
      match scan_word fp with
      | (Some w, fp1) =>
          if (256 <=? length w)%nat then LoadOverrun
          else
            let '(index, h, fp2) :=
              load_pairs (S (length fp1)) (string_of_list_ascii (cstring w))
                fp1 index h in
            load_words fuel fp2 index h
      | (None, _) => Loaded index h
      end
  end.

(** Modelled from the spec: [file_numLines] of libcs50, which is missing,
    is "the number of lines in the index file" (querier/README.md): the
    number of newline characters.  Its value is the number of slots that
    [index_load] asks of [index_new]. *)
Definition file_numLines (fp : list ascii) : Z :=
  Z.of_nat (length (List.filter (Ascii.eqb "010"%char) fp)).

(** index.c, [index_load].  For a file without a newline character
    [index_new] is asked for 0 slots and returns [NULL], and
    [mem_assert(index, ...)] ends the process.  Each pass of a loop
    consumes a character of the stream, so neither loop runs more often
    than the stream is long. *)
Definition index_load (fp : option (list ascii)) (h : heap) : load_result :=
  match fp with
  | None => LoadNull
  | Some fp =>
      match hashtable_new (file_numLines fp) with
      | None => LoadExit
      | Some _ =>
          load_words (S (length fp)) fp (index_new (file_numLines fp)) h
      end
  end.

(** [find(w).get(d)] *)
Definition find_get (index : index_t) (h : heap) (w : string) (d : Z) : Z :=
  counters_get h (index_find index w) d.

(** indexer.c, [main] and [indexBuild]: the index made by a sequence of
    [index_insert(index, word, docID)] calls on a new index. *)
Definition index_build (inserts : list (string * Z)) (h : heap)
    : index_t * heap :=
  foldl (λ st wd, index_insert st.1 wd.1 wd.2 st.2) (index_new 500, h) inserts.

(** ** The index file as the specification words it

    "Each line is [word docID_1 count_1 docID_2 count_2 ... \n]", fields
    separated by a space; a normalized word is a "non-empty string,
    lowercase alphabetic". *)
Definition render_pair (p : Z * Z) : list ascii :=
  " "%char :: print_int p.1 ++ " "%char :: print_int p.2.

Definition render_line (line : string * list (Z * Z)) : list ascii :=
  list_ascii_of_string line.1 ++ concat (map render_pair line.2)
    ++ ["010"%char].

Definition render_index (lines : list (string * list (Z * Z))) : list ascii :=
  concat (map render_line lines).

Definition normalized_word (w : string) : bool :=
  match list_ascii_of_string w with
  | [] => false
  | l => forallb islower l
  end.

(** The word and its terminating NUL fit [char word[256]]. *)
Definition word_fits (w : string) : bool := (String.length w <? 256)%nat.

(** The words and their DocCounts, as values. *)
Definition index_view (index : index_t) (h : heap) : gmap string counters_t :=
  omap (λ l, h !! l) index.

(** "Installed via set, not increment": a (word, docID, count) triple
    overwrites the count; [index_set] drops a triple with a negative
    number. *)
Definition install (v : gmap string counters_t) (w : string) (p : Z * Z)
    : gmap string counters_t :=
  if (p.1 <? 0) || (p.2 <? 0) then v
  else <[w := <[p.1 := p.2]> (default ∅ (v !! w))]> v.

Definition install_line (v : gmap string counters_t)
    (line : string * list (Z * Z)) : gmap string counters_t :=
  foldl (λ v p, install v line.1 p) v line.2.

(** The lines that [index_save] writes. *)
Definition saved_lines (index : index_t) (h : heap)
    : list (string * list (Z * Z)) :=
  (λ kv, (kv.1, map_to_list (default ∅ (h !! kv.2)))) <$> map_to_list index.

(** Where a line can start: at the end of the file or at a letter. *)
Definition at_line_start (fp : list ascii) : Prop :=
  fp = [] ∨ ∃ c r, fp = c :: r ∧ islower c = true.

(** The calls of [index_set] for the pairs of one line. *)
Definition set_pairs (word : string) (ps : list (Z * Z))
    (st : index_t * heap) : index_t * heap :=
  foldl (λ st p, index_set st.1 word p.1 p.2 st.2) st ps.

(** A line that [index_load] reads as it is written: the word is
    normalized and fits the buffer, and the numbers are [int]s. *)
Definition line_ok (line : string * list (Z * Z)) : bool :=
  normalized_word line.1 && word_fits line.1 &&
  forallb (λ p, is_int p.1 && is_int p.2) line.2.

(** The calls of [index_set] for the lines of a file, in order. *)
Definition set_lines (lines : list (string * list (Z * Z)))
    (st : index_t * heap) : index_t * heap :=
  foldl (λ st line, set_pairs line.1 line.2 st) st lines.

(** The index owns its counters objects: each is allocated, and no two
    words share one. *)
Definition index_wf (index : index_t) (h : heap) : Prop :=
  index_alloc index h ∧
  ∀ w1 w2 l, index !! w1 = Some l → index !! w2 = Some l → w1 = w2.

(** What [index_insert] and [index_set] have in common: the counters of a
    word, created when the word is new, are changed by [f]. *)
Definition index_update (f : counters_t → counters_t) (index : index_t)
    (word : string) (h : heap) : index_t * heap :=
  match index !! word with
  | Some ctrs => (index, alter f ctrs h)
  | None =>
      let '(ctrs, h) := counters_new h in
      (<[word := ctrs]> index, alter f ctrs h)
  end.

(** "Sets count to 1 if absent, else adds 1." *)
Definition increment (d : Z) (c : counters_t) : counters_t :=
  <[d := match c !! d with
         | Some n => n + 1
         | None => 1
         end]> c.

(** The entries of the index have document identifiers and counts that are
    not negative. *)
Definition index_nonneg (index : index_t) (h : heap) : Prop :=
  ∀ w c d n, index_view index h !! w = Some c → c !! d = Some n →
             0 ≤ d ∧ 0 ≤ n.

(** A line that breaks off: the word and its pairs and then, where the
    next number would be, white space and something else; there may be a
    document number without a count before it. *)
Definition render_broken (line : string * list (Z * Z))
    (dangling : option Z) : list ascii :=
  list_ascii_of_string line.1 ++ concat (map render_pair line.2)
    ++ match dangling with
       | Some d => " "%char :: print_int d
       | None => []
       end.

(** The document numbers are at most [INT_MAX], and the counts at most
    [B]. *)
Definition view_bounded (B : Z) (v : gmap string counters_t) : Prop :=
  ∀ w c d n, v !! w = Some c → c !! d = Some n → d ≤ INT_MAX ∧ n ≤ B.

Definition index_bounded (B : Z) (index : index_t) (h : heap) : Prop :=
  view_bounded B (index_view index h).

(** A line of the documented format, "word{ docID count}+": besides what
    [line_ok] asks, it has a pair, and its numbers are not negative. *)
Definition line_format (line : string * list (Z * Z)) : Prop :=
  line_ok line = true ∧ line.2 ≠ [] ∧
  Forall (λ p, 0 ≤ p.1 ∧ 0 ≤ p.2) line.2.

(** A normalized word of 256 letters. *)
Definition long_word : string :=
  string_of_list_ascii (repeat "a"%char 256).

(** ** The index file format as the specification states it

    "Each line is [word{ docID count}+\n], fields space-separated, [word]
    matches [[a-z]+], [docID] and [count] are base-10 non-negative
    integers.  No line may have zero (docID, count) pairs." *)
Fixpoint split_on (sep : ascii) (l : list ascii) : list (list ascii) :=
  match l with
  | [] => [[]]
  | c :: l =>
      if Ascii.eqb c sep then [] :: split_on sep l
      else
        match split_on sep l with
        | f :: fs => (c :: f) :: fs
        | [] => [[c]]
        end
  end.

Definition is_word_field (f : list ascii) : bool :=
  match f with
  | [] => false
  | _ => forallb islower f
  end.

Definition is_number_field (f : list ascii) : bool :=
  match f with
  | [] => false
  | _ => forallb isdigit f
  end.

Fixpoint pairs_format_ok (fields : list (list ascii)) : bool :=
  match fields with
  | [] => true
  | d :: c :: fields =>
      is_number_field d && is_number_field c && pairs_format_ok fields
  | _ => false
  end.

Definition line_format_ok (line : list ascii) : bool :=
  match split_on " " line with
  | w :: d :: c :: fields =>
      is_word_field w && pairs_format_ok (d :: c :: fields)
  | _ => false
  end.

Definition index_file_format_ok (content : list ascii) : bool :=
  match rev (split_on "010" content) with
  | [] :: lines => forallb line_format_ok lines
  | _ => false
  end.

(** ** querier.c: combining counters *)

(** querier.c, [callbackSetMinimum]; [arg] is the pair of pointers
    [{acc, wordCounters}]. *)
Definition callbackSetMinimum (acc wordCounters : ptr) (key count : Z)
    (h : heap) : heap :=
  let c := counters_get h wordCounters key in
  let c := if count <? c then count else c in
  counters_set acc key c h.

(** querier.c, [callbackAddCounts]; [arg] is the destination counters.
    [existingCount + count] is a sum of [int]s.  When it overflows, the sum
    is negative and breaks the obligation of [counters_set]: libcs50's
    [counters_set] then changes nothing (it returns [false], which the
    callback ignores), and the entry keeps its count. *)
Definition callbackAddCounts (result : ptr) (key count : Z) (h : heap) : heap :=
  let existingCount := counters_get h result key in
  let sum := int_add existingCount count in
  if sum <? 0 then h else counters_set result key sum h.

(** querier.c, [unionCounters] *)
Definition unionCounters (result andResult : ptr) (h : heap) : heap :=
  match result, andResult with
  | Some _, Some _ => counters_iterate andResult (callbackAddCounts result) h h
  | _, _ => h
  end.

(** querier.c, [intersectCounters].  Both arguments pass [mem_assert], which
    ends the process on [NULL]; they are locations here. *)
Definition intersectCounters (acc wordCounters : loc) (h : heap) : heap :=
  counters_iterate (Some acc)
    (callbackSetMinimum (Some acc) (Some wordCounters)) h h.

(** ** querier.c: evaluating a query *)

(** The local variables of [queryEvaluate], and the heap. *)
Record eval_state := EvalState {
  andSequence : ptr;
  orSequence : ptr;
  andSequenceInvalid : bool;
  mem : heap
}.

(** querier.c, [matchMerge], on [&andSequence] and [&orSequence]. *)
Definition matchMerge (st : eval_state) : eval_state :=
  match andSequence st with
  | Some a =>
      let '(o, h1) :=
        match orSequence st with
        | None => counters_new (mem st)
        | Some o => (o, mem st)
        end in
      let h2 := unionCounters (Some o) (Some a) h1 in
      let h3 := counters_delete (Some a) h2 in
      EvalState None (Some o) (andSequenceInvalid st) h3
  | None => st
  end.

(** One iteration of the loop of [queryEvaluate], on [words[i]]. *)
Definition queryEvaluate_step (index : index_t) (st : eval_state)
    (word : string) : eval_state :=
  if String.eqb word "or" then
    let st1 := matchMerge st in
    EvalState (andSequence st1) (orSequence st1) false (mem st1)
  else if andSequenceInvalid st then st
  else if String.eqb word "and" then st
  else
    match index_find index word with
    | None =>
        EvalState None (orSequence st) true
          (counters_delete (andSequence st) (mem st))
    | Some wordMatch =>
        match andSequence st with
        | None =>
            let '(a, h1) := counters_new (mem st) in
            EvalState (Some a) (orSequence st) (andSequenceInvalid st)
              (counters_iterate (Some wordMatch)
                 (callbackAddCounts (Some a)) h1 h1)
        | Some a =>
            EvalState (Some a) (orSequence st) (andSequenceInvalid st)
              (intersectCounters a wordMatch (mem st))
        end
    end.

(** querier.c, [queryEvaluate]: the result pointer and the final heap. *)
Definition queryEvaluate (words : list string) (index : index_t) (h : heap)
    : ptr * heap :=
  let st := foldl (queryEvaluate_step index) (EvalState None None false h) words in
  let st := matchMerge st in
  (orSequence st, mem st).

(** The entries of a result; a [NULL] result has none. *)
Definition result_counts (r : ptr * heap) : counters_t :=
  default ∅ (deref r.2 r.1).

(** ** querier.c: reading a query line *)

(** querier.c, [isValidCharacters]: the loop returns [false] at the first
    character that is neither a letter nor white space (the diagnostic on
    stderr is not modelled). *)
Definition isValidCharacters (query : list ascii) : bool :=
  forallb (λ c, isalpha c || isspace c) query.

(** A character buffer holds the characters of a C string; the byte after
    them is the terminating NUL, which the tokenizer reads but never
    writes. *)
Definition rd (buf : list ascii) (i : nat) : ascii := nth i buf NUL.

(** [while (isspace( *start )) start++;] *)
Fixpoint skip_space (fuel : nat) (buf : list ascii) (start : nat) : nat :=
  match fuel with
  | O => start
  | S fuel =>
      if isspace (rd buf start) then skip_space fuel buf (S start) else start
  end.

(** [while ( *end && !isspace( *end )) { *end = tolower( *end ); end++; }] *)
Fixpoint lower_word (fuel : nat) (buf : list ascii) (end_ : nat)
    : list ascii * nat :=
  match fuel with
  | O => (buf, end_)
  | S fuel =>
      let c := rd buf end_ in
      if negb (Ascii.eqb c NUL) && negb (isspace c)
      then lower_word fuel (<[end_ := tolower c]> buf) (S end_)
      else (buf, end_)
  end.

(** The state of [queryTokenize] when it returns: the buffer, the offsets
    stored in [words[0..t-1]], the count [t], and (a ghost flag) whether the
    loop was left through [else break], the branch taken when the word
    limit is exceeded. *)
Record tokenized := Tokenized {
  tk_buf : list ascii;
  tk_words : list nat;
  tk_t : Z;
  tk_truncated : bool
}.

(** The outer loop of [queryTokenize]; [start] is an offset into [buf]. *)
Fixpoint tokenize_loop (fuel : nat) (maxWords : Z) (buf : list ascii)
    (words : list nat) (t : Z) (start : nat) : tokenized :=
  match fuel with
  | O => Tokenized buf words t false
  | S fuel =>
      if Ascii.eqb (rd buf start) NUL then Tokenized buf words t false
      else
        let start := skip_space (length buf) buf start in
        if Ascii.eqb (rd buf start) NUL then Tokenized buf words t false
        else
          let '(buf, end_) := lower_word (length buf) buf start in
          if t <? maxWords then
            let words := words ++ [start] in
            let t := t + 1 in
            if Ascii.eqb (rd buf end_) NUL
            then tokenize_loop fuel maxWords buf words t end_
            else tokenize_loop fuel maxWords (<[end_ := NUL]> buf) words t
                   (S end_)
          else Tokenized buf words t true
  end.

(** querier.c, [queryTokenize].  Every iteration but the last advances
    [start] by at least two characters, so the loop body runs at most
    [strlen(query)] times. *)
Definition queryTokenize (query : list ascii) (maxWords : Z) : tokenized :=
  tokenize_loop (S (length query)) maxWords query [] 0 0.

Definition word_at (buf : list ascii) (off : nat) : string :=
  string_of_list_ascii (cstring (drop off buf)).

(** [processQuery], steps 2 and 3: [maxWords = strlen(query) / 2 + 1], and
    the strings [words[0]], ..., [words[t-1]] after tokenizing. *)
Definition query_maxWords (query : list ascii) : Z :=
  Z.of_nat (length query) / 2 + 1.

Definition query_words (query : list ascii) : list string :=
  let tk := queryTokenize query (query_maxWords query) in
  map (word_at (tk_buf tk)) (tk_words tk).

(** [strcmp(w, "and") == 0 || strcmp(w, "or") == 0], the test of
    [isValidQuerySyntax] for an operator token. *)
Definition is_operator (w : string) : bool :=
  String.eqb w "and" || String.eqb w "or".

(** Step 4 of [isValidQuerySyntax]: some [words[i]], [i >= 1], is an operator
    and so is [words[i - 1]]. *)
Fixpoint consecutive_operators (words : list string) : bool :=
  match words with
  | w1 :: (w2 :: _) as rest =>
      (is_operator w2 && is_operator w1) || consecutive_operators rest
  | _ => false
  end.

(** querier.c, [isValidQuerySyntax] (diagnostics on stderr not modelled). *)
Definition isValidQuerySyntax (words : list string) : bool :=
  match words with
  | [] => false
  | w0 :: _ =>
      if is_operator w0 then false
      else if is_operator (List.last words ""%string) then false
      else negb (consecutive_operators words)
  end.

(** ** querier.c: ranking and printing *)

(** [docScore_t] *)
Record docScore_t := DocScore { docID : Z; score : Z }.

(** querier.c, [compareScores] *)
Definition compareScores (a b : docScore_t) : Z := score b - score a.

(** querier.c, [callbackCountNonZero]; [arg] points to the counter. *)
Definition callbackCountNonZero (key count : Z) (counter : Z) : Z :=
  if 0 <? count then counter + 1 else counter.

(** The variable [scoreList]: the array and the number of stored scores. *)
Record scoreList_t := ScoreList { docScores : list docScore_t; docCount : Z }.

(** querier.c, [callbackStoreDocScores] *)
Definition callbackStoreDocScores (key count : Z) (scoreList : scoreList_t)
    : scoreList_t :=
  if 0 <? count then
    ScoreList
      (<[Z.to_nat (docCount scoreList) := DocScore key count]>
         (docScores scoreList))
      (docCount scoreList + 1)
  else scoreList.

(** What the querier writes on stdout, one value for each [printf] group. *)
Inductive out_line :=
  | QueryEcho (words : list string)
  | NoDocumentsMatch
  | MatchesHeader (printedCount : Z)
  | ResultLine (score docID : Z) (url : string).

(** The page directory as the ranker sees it: [None] when the file
    [pageDirectory/docID] cannot be opened, else the text printed for its
    URL, which is the line that [file_readLine] of libcs50 (not in the
    tree) reads first.  What is printed for a file that has no line, where
    [file_readLine] gives [NULL], is left to the function. *)
Abbreviation pagedir := (Z → option string).

(** Step 7 of [printRankedResults]: one line for each array element, until
    a page file is missing, where the process exits with status 1. *)
Fixpoint print_results (pageDirectory : pagedir) (scores : list docScore_t)
    : list out_line * bool :=
  match scores with
  | [] => ([], false)
  | ds :: scores =>
      match pageDirectory (docID ds) with
      | None => ([], true)
      | Some url =>
          let '(out, exited) := print_results pageDirectory scores in
          (ResultLine (score ds) (docID ds) url :: out, exited)
      end
  end.

Section querier.
(** [qsort] of the C library is a parameter: it takes the comparison
    function and the array. *)
Variable qsort :
  (docScore_t → docScore_t → Z) → list docScore_t → list docScore_t.

(** The array of [printRankedResults] after step 6. *)
Definition rankedScores (result : ptr) (h : heap) : list docScore_t :=
  let printedCount := counters_iterate result callbackCountNonZero h 0 in
  let array := replicate (Z.to_nat printedCount) (DocScore 0 0) in
  let scoreList :=
    counters_iterate result callbackStoreDocScores h (ScoreList array 0) in
  qsort compareScores (docScores scoreList).

(** querier.c, [printRankedResults]: the lines printed, and whether the
    process exited. *)
Definition printRankedResults (result : ptr) (pageDirectory : pagedir)
    (h : heap) : list out_line * bool :=
  let printedCount := counters_iterate result callbackCountNonZero h 0 in
  if printedCount =? 0 then ([NoDocumentsMatch], false)
  else
    let '(out, exited) :=
      print_results pageDirectory (rankedScores result h) in
    (MatchesHeader printedCount :: out, exited).

(** querier.c, [processQuery]: the lines printed, whether the process
    exited, and the heap. *)
Definition processQuery (query : list ascii) (index : index_t)
    (pageDirectory : pagedir) (h : heap) : list out_line * bool * heap :=
  if negb (isValidCharacters query) then ([], false, h)
  else
    let maxWords := query_maxWords query in
    let tk := queryTokenize query maxWords in
    if tk_t tk =? 0 then ([], false, h)
    else
      let words := map (word_at (tk_buf tk)) (tk_words tk) in
      if negb (isValidQuerySyntax words) then ([], false, h)
      else
        let '(result, h1) := queryEvaluate words index h in
        let '(out, exited) := printRankedResults result pageDirectory h1 in
        (QueryEcho words :: out, exited,
         if exited then h1 else counters_delete result h1).
End querier.

(** ** Query syntax as the specification words it

    A token sequence is rejected when it "is empty, begins or ends with the
    operator and/or, or contains an operator token immediately preceded by
    another operator token". *)
Definition syntax_violation (tokens : list string) : Prop :=
  tokens = [] ∨
  (∃ w, head tokens = Some w ∧ is_operator w = true) ∨
  (∃ w, last tokens = Some w ∧ is_operator w = true) ∨
  (∃ i w1 w2, tokens !! i = Some w1 ∧ tokens !! S i = Some w2 ∧
              is_operator w1 = true ∧ is_operator w2 = true).

(** ** AND-chains as the specification words them

    "AND-chain: a maximal run of word tokens separated only by the and
    operator (or adjacency)": the runs of tokens between "or" tokens. *)
Fixpoint and_chains (tokens : list string) : list (list string) :=
  match tokens with
  | [] => [[]]
  | w :: tokens =>
      if String.eqb w "or" then [] :: and_chains tokens
      else
        match and_chains tokens with
        | chain :: chains => (w :: chain) :: chains
        | [] => [[w]]
        end
  end.

(** The search words of a chain. *)
Definition search_words (chain : list string) : list string :=
  List.filter (λ w, negb (String.eqb w "and")) chain.

Definition found (index : index_t) (w : string) : bool :=
  match index_find index w with
  | Some _ => true
  | None => false
  end.

(** A chain matched: it has a search word, and every search word of it is
    in the index ("AND requires every term to match"). *)
Definition chain_matched (index : index_t) (chain : list string) : bool :=
  match search_words chain with
  | [] => false
  | ws => forallb (found index) ws
  end.

(** A result that is a counters object without entries. *)
Definition empty_counters_object (r : ptr * heap) : Prop :=
  ∃ l, r.1 = Some l ∧ r.2 !! l = Some ∅.

(** ** Ranking as the specification words it *)

(** "Filters the evaluator's result DocCounts to entries with count > 0." *)
Definition positive_scores (c : counters_t) : list docScore_t :=
  (λ kv, DocScore kv.1 kv.2) <$> filter (λ kv : Z * Z, 0 < kv.2) (map_to_list c).

(** The (document, score) pairs of the result lines printed, in order. *)
Definition result_scores (out : list out_line) : list docScore_t :=
  omap (λ o, match o with
             | ResultLine s d _ => Some (DocScore d s)
             | _ => None
             end) out.

(** A sorting function that meets the contract of [qsort] (a merge sort
    on the order that the comparison function induces). *)
Definition merge_qsort (cmp : docScore_t → docScore_t → Z)
    (l : list docScore_t) : list docScore_t :=
  @merge_sort _ (λ a b, cmp a b ≤ 0) (λ a b, Z.le_dec (cmp a b) 0) l.

(** ** Tokens as the specification words them

    "Splits on runs of whitespace, lowercases each token": the tokens of a
    line are its maximal runs of characters that are not white space.
    [ws_split l] is the run at the head of [l] (empty when [l] is empty or
    starts with white space) and the runs after it. *)
Fixpoint ws_split (l : list ascii) : list ascii * list (list ascii) :=
  match l with
  | [] => ([], [])
  | c :: l =>
      let '(cur, rest) := ws_split l in
      if isspace c
      then ([], match cur with [] => rest | _ => cur :: rest end)
      else (c :: cur, rest)
  end.

Definition ws_tokens (l : list ascii) : list (list ascii) :=
  let '(cur, rest) := ws_split l in
  match cur with
  | [] => rest
  | _ => cur :: rest
  end.

Definition lowercase (w : list ascii) : string :=
  string_of_list_ascii (map tolower w).

(** No run of characters without white space is too long for the buffer of
    [index_load]. *)
Definition short_tokens (fp : list ascii) : Prop :=
  Forall (λ t, (length t < 256)%nat) (ws_tokens fp).

(** Whether the chain in progress matches, once the tokens [chain] that
    remain of it have been read. *)
Definition chain_will_match (index : index_t) (st : eval_state)
    (chain : list string) : bool :=
  if andSequenceInvalid st then false
  else
    match andSequence st with
    | Some _ => forallb (found index) (search_words chain)
    | None => chain_matched index chain
    end.

(** ** The combinators as the specification words them *)

(** "For every entry (d, c) currently in dst, sets dst[d] = min(c,
    src.get(d)).  Entries present only in src are not added to dst." *)
Definition minMergeInto (dst src : counters_t) : counters_t :=
  map_imap (λ d c, Some (Z.min c (default 0 (src !! d)))) dst.

(** "For every entry (d, c) in src, dst[d] = dst.get(d) + c, creating the
    entry in dst if absent." *)
Definition sumMergeInto (dst src : counters_t) : counters_t :=
  merge (λ x y, match y with
                | Some c => Some (default 0 x + c)
                | None => x
                end) dst src.

(** ** The sum-merge as the code computes it *)

(** What [callbackAddCounts] leaves as the count of an entry that held
    [total] when it adds [count]: the sum, or [total] when the sum is
    negative. *)
Definition kept_add (total count : Z) : Z :=
  let sum := int_add total count in
  if sum <? 0 then total else sum.

(** What [unionCounters] makes of the entries of [dst], given the entries
    of [src]: [callbackAddCounts] for every entry of [src]. *)
Definition union_counts (dst src : counters_t) : counters_t :=
  merge (λ x y, match y with
                | Some c =>
                    let sum := int_add (default 0 x) c in
                    if sum <? 0 then x else Some sum
                | None => x
                end) dst src.

(** ** The evaluator as a state machine on counters values

    The state machine of the specification: the two nullable accumulators
    and the [chainBroken] flag.  [find] is the lookup of a word's stored
    DocCounts, and [sum_merge] the merge that adds counts: [sumMergeInto]
    in the specification, [union_counts] in the code, which also makes the
    copy that seeds an and-sequence by adding the counts to a new, empty
    counters. *)

Record acc_state := AccState {
  andAccumulator : option counters_t;
  orAccumulator : option counters_t;
  chainBroken : bool
}.

Section accumulators.
Variable sum_merge : counters_t → counters_t → counters_t.

(** "If andAccumulator is non-empty, merge it into orAccumulator via
    sumMergeInto (creating orAccumulator if this is the first chain
    completed), then discard andAccumulator." *)
Definition completeChain (A O : option counters_t) : option counters_t :=
  match A with
  | Some a => Some (sum_merge (default ∅ O) a)
  | None => O
  end.

Definition acc_step (find : string → option counters_t) (s : acc_state)
    (token : string) : acc_state :=
  if String.eqb token "or" then
    AccState None (completeChain (andAccumulator s) (orAccumulator s)) false
  else if chainBroken s then s
  else if String.eqb token "and" then s
  else
    match find token with
    | None => AccState None (orAccumulator s) true
    | Some c =>
        AccState
          (Some match andAccumulator s with
                | None => sum_merge ∅ c
                | Some a => minMergeInto a c
                end)
          (orAccumulator s) (chainBroken s)
    end.

Definition acc_eval (find : string → option counters_t)
    (tokens : list string) : option counters_t :=
  let s := foldl (acc_step find) (AccState None None false) tokens in
  completeChain (andAccumulator s) (orAccumulator s).
End accumulators.

(** The stored DocCounts of a word. *)
Definition stored (index : index_t) (h : heap) (word : string)
    : option counters_t :=
  deref h (index_find index word).

(** An accumulator pointer designates an object allocated by the evaluator
    (outside the initial heap [h0]) that holds the given entries. *)
Definition owns (h0 h : heap) (p : ptr) (c : option counters_t) : Prop :=
  match p, c with
  | Some l, Some c => h0 !! l = None ∧ h !! l = Some c
  | None, None => True
  | _, _ => False
  end.

(** The evaluator's state [st] holds the accumulators [s], and the objects
    of the initial heap [h0] are as they were. *)
Definition sim (h0 : heap) (st : eval_state) (s : acc_state) : Prop :=
  (∀ l c, h0 !! l = Some c → mem st !! l = Some c) ∧
  owns h0 (mem st) (andSequence st) (andAccumulator s) ∧
  owns h0 (mem st) (orSequence st) (orAccumulator s) ∧
  (∀ l, andSequence st = Some l → orSequence st ≠ Some l) ∧
  andSequenceInvalid st = chainBroken s.


(** No accumulator holds a negative count. *)
Definition acc_nonneg (s : acc_state) : Prop :=
  (∀ c, andAccumulator s = Some c → counters_nonneg c) ∧
  (∀ c, orAccumulator s = Some c → counters_nonneg c).

(** ** common/word.c and indexer/indexer.c: building the index *)

(** word.c, [normalizeWord], for a [word] that is not [NULL] (and an
    allocation that succeeds): a copy of the word with every character put
    through [tolower]. *)
Definition normalizeWord (word : string) : string :=
  string_of_list_ascii (map tolower (list_ascii_of_string word)).

(** indexer.c, [indexPage].  The page is given by the words that the
    successive calls of [webpage_getNextWord] return (libcs50, not in the
    tree); a word of fewer than three characters is skipped. *)
Definition indexPage (page : list string) (docID : Z) (index : index_t)
    (h : heap) : index_t * heap :=
  foldl (λ st word,
           if (3 <=? String.length word)%nat
           then index_insert st.1 (normalizeWord word) docID st.2
           else st)
    (index, h) page.

(** The loop of [indexBuild], from the document [docID] on.  [files] are
    the files [pageDirectory/docID], [pageDirectory/(docID + 1)], ... up to
    the first one that cannot be opened; a file is given by the page that
    [pagedir_load] makes of it, [None] when [pagedir_load] returns [NULL]. *)
Fixpoint indexBuild_loop (files : list (option (list string))) (docID : Z)
    (index : index_t) (h : heap) : index_t * heap :=
  match files with
  | [] => (index, h)
  | page :: files =>
      let '(index, h) :=
        match page with
        | Some page => indexPage page docID index h
        | None => (index, h)
        end in
      indexBuild_loop files (docID + 1) index h
  end.

(** indexer.c, [indexBuild]: document identifiers start at 1. *)
Definition indexBuild (files : list (option (list string))) (index : index_t)
    (h : heap) : index_t * heap :=
  indexBuild_loop files 1 index h.

(** Whether [indexPage] files the page word [word] under [w]. *)
Definition indexed_as (w word : string) : bool :=
  (3 <=? String.length word)%nat && String.eqb (normalizeWord word) w.

(** The number of words of a page that [indexPage] files under [w]. *)
Definition occurrences (w : string) (page : list string) : Z :=
  Z.of_nat (length (List.filter (indexed_as w) page)).

(** ** index.c: deleting the index *)

(** Modelled from the spec: [hashtable_delete] of libcs50 (not in the
    tree); deleting the index "releases all owned DocCounts": [itemdelete]
    is called on every item of the table. *)
Definition hashtable_delete (ht : index_t) (itemdelete : loc → heap → heap)
    (h : heap) : heap :=
  foldl (λ h kv, itemdelete kv.2 h) h (map_to_list ht).

(** index.c, [delete_counters] *)
Definition delete_counters (item : loc) (h : heap) : heap :=
  counters_delete (Some item) h.

(** index.c, [index_delete], for an [index] that is not [NULL]. *)
Definition index_delete (index : index_t) (h : heap) : heap :=
  hashtable_delete index delete_counters h.

(** indexer.c, [main], once [parseArgs] has accepted the arguments: what is
    written to the index file, and the heap at exit. *)
Definition indexer_main (files : list (option (list string))) (h : heap)
    : list ascii * heap :=
  let index := index_new 500 in
  let '(index, h) := indexBuild files index h in
  let indexFile := index_save index h [] in
  (indexFile, index_delete index h).

(** The heap [h] is the heap [h0] with, besides, the counters objects of
    the index. *)
Definition index_owns (h0 : heap) (index : index_t) (h : heap) : Prop :=
  (∀ w l, index !! w = Some l → h0 !! l = None) ∧
  (∀ l, (∀ w, index !! w ≠ Some l) → h !! l = h0 !! l).

(** Every word of the index has a counters object with an entry. *)
Definition index_nonempty (index : index_t) (h : heap) : Prop :=
  ∀ w c, index_view index h !! w = Some c → c ≠ ∅.

(** An index under construction in the heap [h], started in the heap
    [h0]. *)
Definition index_built (h0 : heap) (index : index_t) (h : heap) : Prop :=
  index_wf index h ∧ index_nonneg index h ∧ index_owns h0 index h ∧
  index_nonempty index h.

(** A word of letters, as [webpage_getNextWord] returns them. *)
Definition alphabetic (word : string) : Prop :=
  Forall (λ c, isalpha c = true) (list_ascii_of_string word).

(** ** Scores *)

(** The score that an and-sequence gives to the document [d]: the least
    count of [d] among the words of the sequence (0 for a sequence without
    a word). *)
Definition chain_score (index : index_t) (h : heap) (d : Z)
    (chain : list string) : Z :=
  match search_words chain with
  | [] => 0
  | w :: ws =>
      foldl (λ m w', Z.min m (find_get index h w' d)) (find_get index h w d) ws
  end.

(** The sum of the scores that the and-sequences of a query give to [d]. *)
Definition query_score (index : index_t) (h : heap) (d : Z)
    (tokens : list string) : Z :=
  foldr Z.add 0 (map (chain_score index h d) (and_chains tokens)).

(** The count that the result of the evaluator holds for [d]: the scores
    of the and-sequences, added in turn as [callbackAddCounts] adds
    them. *)
Definition kept_score (index : index_t) (h : heap) (d : Z)
    (tokens : list string) : Z :=
  foldl kept_add 0 (map (chain_score index h d) (and_chains tokens)).

(** The count of [d] for the word [w]: 0 when the word or the document is
    absent. *)
Definition word_count (find : string → option counters_t) (d : Z)
    (w : string) : Z :=
  default 0 (find w ≫= (.!! d)).

(** The least count of [d] among the words read of an and-sequence, [None]
    before the first word, once the word [w] is read as well. *)
Definition least_count (find : string → option counters_t) (d : Z)
    (m : option Z) (w : string) : option Z :=
  Some match m with
       | None => word_count find d w
       | Some c => Z.min c (word_count find d w)
       end.

(** What the accumulators of the specification hold for [d]: the least
    count in the and-sequence in progress (0 once a word was not found),
    and the total of the sequences completed. *)
Definition sequence_count (d : Z) (s : acc_state) : option Z :=
  if chainBroken s then Some 0
  else (λ a : counters_t, default 0 (a !! d)) <$> andAccumulator s.

Definition or_count (d : Z) (O : option counters_t) : Z :=
  default 0 (O ≫= (.!! d)).

(** ** What the evaluator leaves in the heap

    The heap holds the counters objects; the [words] array that
    [processQuery] allocates for the tokens, and does not free, is not
    part of it. *)

(** Besides the objects of the initial heap [h0], the heap of the
    evaluator holds its two accumulators only. *)
Definition eval_tidy (h0 : heap) (st : eval_state) : Prop :=
  ∀ l, andSequence st ≠ Some l → orSequence st ≠ Some l →
       mem st !! l = h0 !! l.

(** ** querier.c: the main loop *)

(** What [main] and the functions it calls write on stdout: the prompt, a
    line of [processQuery], or the rule that follows each query. *)
Inductive stdout_item :=
  | QueryPrompt
  | QueryOutput (line : out_line)
  | QueryRule.

Section querier_main.
Variable qsort :
  (docScore_t → docScore_t → Z) → list docScore_t → list docScore_t.

(** [isatty(fileno(stdin))] *)
Variable tty : bool.

(** querier.c, [prompt] *)
Definition prompt : list stdout_item := if tty then [QueryPrompt] else [].

(** The loop of [main],
    [while (prompt(), getline(&query, &len, stdin) != -1)]: [lines] are the
    lines that [getline] delivers before the end of the input.  The result
    is what was printed, whether the process exited in
    [printRankedResults], and the heap. *)
Fixpoint query_loop (lines : list (list ascii)) (index : index_t)
    (pageDirectory : pagedir) (h : heap) : list stdout_item * bool * heap :=
  match lines with
  | [] => (prompt, false, h)
  | query :: lines =>
      let '(out, exited, h) :=
        processQuery qsort query index pageDirectory h in
      if exited then (prompt ++ map QueryOutput out, true, h)
      else
        let '(rest, exited, h) := query_loop lines index pageDirectory h in
        (prompt ++ map QueryOutput out ++ QueryRule :: rest, exited, h)
  end.

(** querier.c, [main], once [parseArgs] has accepted the arguments and the
    index file is open: [None] when [index_load] ends the process or
    writes past its buffer, else what was printed, whether the process
    exited in [printRankedResults], and the heap at the end. *)
Definition querier_main (indexFile : list ascii) (lines : list (list ascii))
    (pageDirectory : pagedir) (h : heap)
    : option (list stdout_item * bool * heap) :=
  match index_load (Some indexFile) h with
  | Loaded index h =>
      let '(out, exited, h) := query_loop lines index pageDirectory h in
      Some (out, exited, if exited then h else index_delete index h)
  | _ => None
  end.
End querier_main.

(** ** common/pagedir.c: the page directory *)

(** The files, by path: the content of each file that exists. *)
Abbreviation files_t := (gmap string (list ascii)).

(** [snprintf(buf, size, ...)] stores at most [size - 1] characters of the
    formatted text, and the terminating NUL. *)
Definition snprintf (size : nat) (text : list ascii) : string :=
  string_of_list_ascii (take (size - 1) text).

(** The text of the format ["%s/%d"]. *)
Definition document_path (pageDirectory : string) (docID : Z) : list ascii :=
  list_ascii_of_string pageDirectory ++ "/"%char :: print_int docID.

(** Modelled from the spec: a [webpage_t] of libcs50 (not in the tree)
    holds "URL, depth, and content"; [webpage_getURL] and
    [webpage_getHTML] give [NULL] when the page has none. *)
Record webpage_t := Webpage {
  webpage_getURL : option string;
  webpage_getDepth : Z;
  webpage_getHTML : option string
}.

Section pagedir.
(** Whether [fopen(path, "w")] succeeds; it then creates the file, or
    empties the one that exists. *)
Variable writable : string → bool.

(** pagedir.c, [pagedir_init], for a [pageDirectory] that is not [NULL]:
    the value returned and the files afterwards. *)
Definition pagedir_init (pageDirectory : string) (fs : files_t)
    : bool * files_t :=
  let pathLen :=
    (String.length pageDirectory + String.length "/.crawler" + 1)%nat in
  let crawlerFilePath :=
    snprintf pathLen
      (list_ascii_of_string pageDirectory ++ list_ascii_of_string "/.crawler") in
  if writable crawlerFilePath then (true, <[crawlerFilePath := []]> fs)
  else (false, fs).

(** pagedir.c, [pagedir_save], for a [page] and a [pageDirectory] that are
    not [NULL]: the files afterwards.  The file is opened before the
    contents of the page are checked. *)
Definition pagedir_save (page : webpage_t) (pageDirectory : string)
    (docID : Z) (fs : files_t) : files_t :=
  if docID <? 0 then fs
  else
    let pathLen := (String.length pageDirectory + 12)%nat in
    let saveFilePath := snprintf pathLen (document_path pageDirectory docID) in
    if writable saveFilePath then
      match webpage_getURL page, webpage_getHTML page with
      | Some url, Some html =>
          <[saveFilePath :=
              list_ascii_of_string url ++ "010"%char
                :: print_int (webpage_getDepth page) ++ "010"%char
                :: list_ascii_of_string html ++ ["010"%char]]> fs
      | _, _ => <[saveFilePath := []]> fs
      end
    else fs.
End pagedir.

(** pagedir.c, [pagedir_validate], for a [pageDirectory] that is not
    [NULL]; [fopen(path, "r")] succeeds exactly on a file that exists. *)
Definition pagedir_validate (pageDirectory : string) (fs : files_t) : bool :=
  let pathLen :=
    (String.length pageDirectory + String.length "/.crawler" + 1)%nat in
  let crawlerFilePath :=
    snprintf pathLen
      (list_ascii_of_string pageDirectory ++ list_ascii_of_string "/.crawler") in
  bool_decide (is_Some (fs !! crawlerFilePath)).

(** querier.c, [printRankedResults]: the name of the page file, built in
    [char filename[256]]. *)
Definition ranked_filename (pageDirectory : string) (docID : Z) : string :=
  snprintf 256 (document_path pageDirectory docID).

(** ** indexer/indextest.c *)

(** indextest.c, [main], once both files are open: the index file written
    and the heap at exit; [None] when [index_load] ends the process or
    writes past its buffer. *)
Definition indextest_main (oldIndexFile : list ascii) (h : heap)
    : option (list ascii * heap) :=
  match index_load (Some oldIndexFile) h with
  | Loaded index h => Some (index_save index h [], index_delete index h)
  | _ => None
  end.

(** ** A small index, used for the concrete runs below

    "cat" occurs in documents 1 (once) and 5 (twice), "dog" in documents 2
    (once) and 5 (three times), "fish" in document 2 (once). *)
Definition pets_index : index_t :=
  {[ "cat" := 1%positive; "dog" := 2%positive; "fish" := 3%positive ]}.

Definition pets_heap : heap :=
  {[ 1%positive := {[ 1 := 1; 5 := 2 ]};
     2%positive := {[ 2 := 1; 5 := 3 ]};
     3%positive := {[ 2 := 1 ]} ]}.

(** An index at the limit of [int]: document 1 has the count [INT_MAX] for
    "big" and 1 for "one". *)
Definition limit_index : index_t :=
  {[ "big" := 1%positive; "one" := 2%positive ]}.

Definition limit_heap : heap :=
  {[ 1%positive := {[ 1 := INT_MAX ]}; 2%positive := {[ 1 := 1 ]} ]}.

(* ===================================================================== *)
(** * Properties *)
(* ===================================================================== *)

(** ** Iterating a callback that overwrites entries of one object *)

Section iterate_set.
Context (a : loc) (base : heap) (cur0 : counters_t).
Context (F : Z → Z → heap → heap) (g : Z → Z → option Z).

Lemma fold_entry_lookup (l : list (Z * Z)) (cur : counters_t) k :
  NoDup l.*1 →
  foldl (λ m kv, partial_alter (λ _, g kv.1 kv.2) kv.1 m) cur l !! k
  = match list_to_map (M := counters_t) l !! k with
    | Some v => g k v
    | None => cur !! k
    end.
Proof.
  revert cur. induction l as [|[k' v'] l IH]; intros cur Hnd; simpl.
  - by rewrite lookup_empty.
  - apply NoDup_cons in Hnd as [Hk' Hnd]. rewrite IH by done.
    destruct (decide (k' = k)) as [->|Hne].
    + rewrite lookup_insert_eq.
      rewrite (not_elem_of_list_to_map_1 (M := gmap Z)) by done.
      by rewrite lookup_partial_alter_eq.
    + rewrite lookup_insert_ne by done.
      destruct (list_to_map l !! k); [done|].
      by rewrite lookup_partial_alter_ne.
Qed.

(** The callback [F], called for the entry (k, v) of the list while the
    object at [a] still has its first entry for [k], gives that entry the
    value [g k v]. *)
Lemma iterate_entries_fold (l : list (Z * Z)) :
  NoDup l.*1 →
  (∀ cur k v, (k, v) ∈ l → cur !! k = cur0 !! k →
     F k v (<[a := cur]> base)
     = <[a := partial_alter (λ _, g k v) k cur]> base) →
  ∀ cur, (∀ k, k ∈ l.*1 → cur !! k = cur0 !! k) →
  foldl (λ h kv, F kv.1 kv.2 h) (<[a := cur]> base) l
  = <[a := foldl (λ m kv, partial_alter (λ _, g kv.1 kv.2) kv.1 m) cur l]>
      base.
Proof.
  induction l as [|[k v] l IH]; intros Hnd HF cur Hcur; simpl; [done|].
  apply NoDup_cons in Hnd as [Hk Hnd].
  rewrite (HF cur k v); [|left|apply Hcur; left].
  apply IH; [done| |].
  - intros cur' k' v' Hin. apply HF. by right.
  - intros k' Hk'. rewrite lookup_partial_alter_ne; [apply Hcur; by right|].
    intros ->. done.
Qed.
End iterate_set.

Lemma fold_insert_lookup (g : Z → Z → Z) (l : list (Z * Z))
    (cur : counters_t) k :
  NoDup l.*1 →
  foldl (λ m kv, <[kv.1 := g kv.1 kv.2]> m) cur l !! k
  = match list_to_map (M := counters_t) l !! k with
    | Some v => Some (g k v)
    | None => cur !! k
    end.
Proof. apply (fold_entry_lookup (λ k v, Some (g k v))). Qed.

(** ** [int] sums *)

Lemma int_wrap_fits z : INT_MIN ≤ z ≤ INT_MAX → int_wrap z = z.
Proof.
  unfold INT_MIN, INT_MAX, int_wrap. intros Hz.
  rewrite Z.mod_small; lia.
Qed.

Lemma int_wrap_above z :
  INT_MAX < z ≤ 2 * INT_MAX → int_wrap z = z - 2 ^ 32.
Proof.
  unfold INT_MAX, int_wrap. intros Hz.
  replace (z + 2 ^ 31) with (z - 2 ^ 31 + 1 * 2 ^ 32) by lia.
  rewrite Z.mod_add by lia. rewrite Z.mod_small; lia.
Qed.

Lemma is_int_spec z : is_int z = true ↔ INT_MIN ≤ z ≤ INT_MAX.
Proof. unfold is_int. rewrite andb_true_iff, !Z.leb_le. tauto. Qed.

Lemma int_add_fits a b : INT_MIN ≤ a + b ≤ INT_MAX → int_add a b = a + b.
Proof.
  intros Hab. unfold int_add.
  destruct (is_int a && is_int b); [by apply int_wrap_fits|done].
Qed.

Lemma int_add_0_l b : int_add 0 b = b.
Proof.
  unfold int_add. destruct (is_int b) eqn:Eb; simpl; [|done].
  apply is_int_spec in Eb. by apply int_wrap_fits.
Qed.

Lemma int_add_0_r a : int_add a 0 = a.
Proof.
  unfold int_add. destruct (is_int a) eqn:Ea; simpl; [|apply Z.add_0_r].
  apply is_int_spec in Ea. rewrite Z.add_0_r. by apply int_wrap_fits.
Qed.

(** Two counts that are not negative have a negative [int] sum exactly
    when the sum does not fit. *)
Lemma int_add_nonneg a b :
  0 ≤ a → 0 ≤ b →
  if (is_int a && is_int b) && (INT_MAX <? a + b)
  then int_add a b < 0
  else int_add a b = a + b.
Proof.
  intros Ha Hb. unfold int_add.
  destruct (is_int a) eqn:Ea; simpl; [|done].
  destruct (is_int b) eqn:Eb; simpl; [|done].
  apply is_int_spec in Ea, Eb.
  destruct (Z.ltb_spec INT_MAX (a + b)).
  - rewrite int_wrap_above by lia. unfold INT_MAX in *. lia.
  - apply int_wrap_fits. unfold INT_MIN. lia.
Qed.

Lemma kept_add_0_r total : kept_add total 0 = total.
Proof. unfold kept_add. rewrite int_add_0_r. by destruct (total <? 0). Qed.

Lemma kept_add_0_l count : 0 ≤ count → kept_add 0 count = count.
Proof.
  intros H. unfold kept_add. rewrite int_add_0_l.
  destruct (Z.ltb_spec count 0); [lia|done].
Qed.

Lemma kept_add_fits total count :
  0 ≤ total + count ≤ INT_MAX → kept_add total count = total + count.
Proof.
  intros H. unfold kept_add. rewrite int_add_fits by (unfold INT_MIN; lia).
  destruct (Z.ltb_spec (total + count) 0); [lia|done].
Qed.

(** The count kept is not negative, and is positive when one of the two
    counts is. *)
Lemma kept_add_nonneg total count :
  0 ≤ total → 0 ≤ count →
  0 ≤ kept_add total count ∧
  (0 < kept_add total count ↔ 0 < total ∨ 0 < count).
Proof.
  intros Ht Hc. unfold kept_add.
  pose proof (int_add_nonneg total count Ht Hc) as Hadd.
  destruct (is_int total) eqn:Et, (is_int count) eqn:Ec; simpl in Hadd;
    try (rewrite Hadd; destruct (Z.ltb_spec (total + count) 0); lia).
  apply is_int_spec in Et, Ec.
  destruct (Z.ltb_spec INT_MAX (total + count)).
  - destruct (Z.ltb_spec (int_add total count) 0); [|lia].
    unfold INT_MAX in *. lia.
  - rewrite Hadd. destruct (Z.ltb_spec (total + count) 0); lia.
Qed.

(** ** The combinators on the heap compute the specified merges *)

Lemma deref_Some h l : deref h (Some l) = h !! l.
Proof. done. Qed.

Lemma minMergeInto_lookup dst src d :
  minMergeInto dst src !! d
  = (λ c, Z.min c (default 0 (src !! d))) <$> dst !! d.
Proof.
  unfold minMergeInto. rewrite map_lookup_imap. by destruct (dst !! d).
Qed.

Lemma sumMergeInto_lookup dst src d :
  sumMergeInto dst src !! d
  = match src !! d with
    | Some c => Some (default 0 (dst !! d) + c)
    | None => dst !! d
    end.
Proof.
  unfold sumMergeInto. rewrite lookup_merge.
  by destruct (dst !! d), (src !! d).
Qed.

Lemma sumMergeInto_empty_l src : sumMergeInto ∅ src = src.
Proof.
  apply map_eq; intros d. rewrite sumMergeInto_lookup, lookup_empty.
  destruct (src !! d); simpl; [f_equal; lia|done].
Qed.

Lemma sumMergeInto_empty_r dst : sumMergeInto dst ∅ = dst.
Proof.
  apply map_eq; intros d. by rewrite sumMergeInto_lookup, lookup_empty.
Qed.

Lemma union_counts_lookup dst src d :
  union_counts dst src !! d
  = match src !! d with
    | Some c =>
        let sum := int_add (default 0 (dst !! d)) c in
        if sum <? 0 then dst !! d else Some sum
    | None => dst !! d
    end.
Proof.
  unfold union_counts. rewrite lookup_merge.
  by destruct (dst !! d), (src !! d).
Qed.

(** The count of a document after the merge. *)
Lemma union_counts_get dst src d :
  default 0 (union_counts dst src !! d)
  = kept_add (default 0 (dst !! d)) (default 0 (src !! d)).
Proof.
  rewrite union_counts_lookup. destruct (src !! d) as [c|]; simpl.
  - unfold kept_add. by destruct (int_add (default 0 (dst !! d)) c <? 0).
  - by rewrite kept_add_0_r.
Qed.


(** Adding the counts of [src] to a new counters copies the entries of
    [src] that are not negative. *)
Lemma union_counts_empty_l src :
  counters_nonneg src → union_counts ∅ src = src.
Proof.
  intros Hnn. apply map_eq; intros d.
  rewrite union_counts_lookup, lookup_empty.
  destruct (src !! d) as [c|] eqn:E; simpl; [|done].
  rewrite int_add_0_l. specialize (Hnn d c E).
  destruct (Z.ltb_spec c 0); [lia|done].
Qed.


Lemma minMergeInto_nonneg dst src :
  counters_nonneg dst → counters_nonneg src →
  counters_nonneg (minMergeInto dst src).
Proof.
  intros Hd Hs k v. rewrite minMergeInto_lookup.
  destruct (dst !! k) as [c|] eqn:Ec; [|done]. simpl. intros [= <-].
  specialize (Hd k c Ec).
  destruct (src !! k) as [c'|] eqn:Ec'; simpl; [|lia].
  specialize (Hs k c' Ec'). lia.
Qed.

Lemma intersectCounters_spec h acc wc dst src :
  h !! acc = Some dst → h !! wc = Some src →
  intersectCounters acc wc h = <[acc := minMergeInto dst src]> h.
Proof.
  intros Hacc Hwc. unfold intersectCounters, counters_iterate.
  rewrite deref_Some, Hacc.
  rewrite <- (insert_id h acc dst Hacc) at 1.
  rewrite (iterate_entries_fold acc h dst
             (callbackSetMinimum (Some acc) (Some wc))
             (λ k v, Some (Z.min v (default 0 (src !! k))))).
  - f_equal. apply map_eq; intros d.
    rewrite (fold_entry_lookup (λ k v, Some (Z.min v (default 0 (src !! k)))))
      by apply NoDup_fst_map_to_list.
    rewrite list_to_map_to_list, minMergeInto_lookup.
    by destruct (dst !! d).
  - apply NoDup_fst_map_to_list.
  - intros cur k v Hin Hcur. apply elem_of_map_to_list in Hin.
    unfold callbackSetMinimum, counters_set.
    rewrite alter_insert_eq. f_equal.
    change (partial_alter (λ _, Some ?x) k cur) with (<[k := x]> cur).
    f_equal.
    unfold counters_get. rewrite deref_Some. simpl.
    assert (default 0 (<[acc:=cur]> h !! wc ≫= (.!! k))
            = default 0 (src !! k)) as Hrd.
    { destruct (decide (acc = wc)) as [->|Hne].
      - rewrite lookup_insert_eq. simpl. rewrite Hcur. congruence.
      - rewrite lookup_insert_ne, Hwc by done. done. }
    destruct (<[acc:=cur]> h !! wc) as [c'|] eqn:E; simpl in *.
    + rewrite Hrd. destruct (Z.ltb_spec v (default 0 (src !! k))); lia.
    + rewrite <- Hrd. destruct (Z.ltb_spec v 0); lia.
  - done.
Qed.

Lemma unionCounters_spec h r s dst src :
  h !! r = Some dst → h !! s = Some src →
  unionCounters (Some r) (Some s) h = <[r := union_counts dst src]> h.
Proof.
  intros Hr Hs. unfold unionCounters, counters_iterate.
  rewrite deref_Some, Hs.
  rewrite <- (insert_id h r dst Hr) at 1.
  rewrite (iterate_entries_fold r h dst (callbackAddCounts (Some r))
             (λ k v, let sum := int_add (default 0 (dst !! k)) v in
                     if sum <? 0 then dst !! k else Some sum)).
  - f_equal. apply map_eq; intros d.
    rewrite (fold_entry_lookup
               (λ k v, let sum := int_add (default 0 (dst !! k)) v in
                       if sum <? 0 then dst !! k else Some sum))
      by apply NoDup_fst_map_to_list.
    by rewrite list_to_map_to_list, union_counts_lookup.
  - apply NoDup_fst_map_to_list.
  - intros cur k v Hin Hcur.
    unfold callbackAddCounts, counters_get.
    rewrite deref_Some, lookup_insert_eq. simpl. rewrite Hcur.
    destruct (int_add (default 0 (dst !! k)) v <? 0).
    + by rewrite <- Hcur, partial_alter_self.
    + unfold counters_set. by rewrite alter_insert_eq.
  - done.
Qed.

(** ** The evaluator runs the state machine, with the merge of the code *)

Arguments unionCounters : simpl never.
Arguments intersectCounters : simpl never.
Arguments counters_iterate : simpl never.

Lemma fresh_not_alloc (h : heap) : h !! fresh (dom h) = None.
Proof. apply not_elem_of_dom, is_fresh. Qed.

Lemma sim_matchMerge h0 st s :
  sim h0 st s →
  sim h0 (matchMerge st)
    (AccState None
       (completeChain union_counts (andAccumulator s) (orAccumulator s))
       (chainBroken s)).
Proof.
  destruct st as [a o inv h], s as [A O b].
  unfold sim, owns, matchMerge; simpl.
  intros (Hfr & Ha & Ho & Hne & Hinv).
  destruct a as [la|], A as [ca|]; try done; simpl.
  destruct Ha as [Ha0 Ha].
  destruct o as [lo|], O as [co|]; try done; simpl.
  - destruct Ho as [Ho0 Ho].
    assert (la ≠ lo) as Hlalo by (intros ->; by eapply Hne).
    rewrite (unionCounters_spec h lo la co ca) by done.
    repeat split; try done.
    + intros l c Hl. rewrite lookup_delete_ne, lookup_insert_ne by congruence.
      by apply Hfr.
    + by rewrite lookup_delete_ne, lookup_insert_eq.
  - pose proof (fresh_not_alloc h) as Hfresh.
    set (l := fresh (dom h)) in *.
    assert (la ≠ l) as Hlal by congruence.
    assert (h0 !! l = None) as Hl0.
    { destruct (h0 !! l) as [c|] eqn:E; [|done].
      apply Hfr in E. congruence. }
    rewrite (unionCounters_spec (<[l:=∅]> h) l la ∅ ca)
      by (by rewrite ?lookup_insert_eq, ?lookup_insert_ne).
    rewrite insert_insert_eq.
    repeat split; try done.
    + intros l' c Hl'. rewrite lookup_delete_ne, lookup_insert_ne by congruence.
      by apply Hfr.
    + by rewrite lookup_delete_ne, lookup_insert_eq.
Qed.

Lemma sim_step index h0 st s word :
  index_alloc index h0 →
  sim h0 st s →
  sim h0 (queryEvaluate_step index st word)
    (acc_step union_counts (stored index h0) s word).
Proof.
  intros Halloc Hsim.
  unfold queryEvaluate_step, acc_step.
  destruct (String.eqb word "or").
  { apply sim_matchMerge in Hsim. revert Hsim.
    destruct (matchMerge st) as [a o inv h]. unfold sim; simpl. tauto. }
  destruct Hsim as (Hfr & Ha & Ho & Hne & Hinv). rewrite <- Hinv.
  destruct (andSequenceInvalid st) eqn:Einv; [by unfold sim; rewrite Einv|].
  destruct (String.eqb word "and"); [by unfold sim; rewrite Einv|].
  unfold stored. destruct (index_find index word) as [wm|] eqn:Efind; simpl.
  - destruct (Halloc _ _ Efind) as [cw Hcw]. rewrite Hcw.
    pose proof (Hfr _ _ Hcw) as Hcw'.
    destruct st as [a o inv h], s as [A O b]; simpl in *.
    destruct a as [la|], A as [ca|]; try done; simpl.
    + destruct Ha as [Ha0 Ha].
      rewrite (intersectCounters_spec h la wm ca cw) by done.
      assert (∀ l, o = Some l → la ≠ l) as Hne'
        by (intros l -> ->; by eapply Hne).
      unfold sim, owns; simpl. repeat split; try done.
      * intros l c Hl. rewrite lookup_insert_ne by congruence. by apply Hfr.
      * by rewrite lookup_insert_eq.
      * destruct o as [lo|], O as [co|]; try done.
        destruct Ho as [Ho0 Ho]. split; [done|].
        rewrite lookup_insert_ne; [done|]. by apply Hne'.
    + pose proof (fresh_not_alloc h) as Hfresh.
      set (l := fresh (dom h)) in *.
      assert (h0 !! l = None) as Hl0.
      { destruct (h0 !! l) as [c|] eqn:E; [|done].
        apply Hfr in E. congruence. }
      assert (wm ≠ l) as Hwl by congruence.
      change (counters_iterate (Some wm) (callbackAddCounts (Some l))
                (<[l:=∅]> h) (<[l:=∅]> h))
        with (unionCounters (Some l) (Some wm) (<[l:=∅]> h)).
      rewrite (unionCounters_spec (<[l:=∅]> h) l wm ∅ cw)
        by (by rewrite ?lookup_insert_eq, ?lookup_insert_ne).
      rewrite insert_insert_eq.
      unfold sim, owns; simpl. repeat split; try done.
      * intros l' c Hl'. rewrite lookup_insert_ne by congruence. by apply Hfr.
      * by rewrite lookup_insert_eq.
      * destruct o as [lo|], O as [co|]; try done.
        destruct Ho as [Ho0 Ho]. split; [done|].
        rewrite lookup_insert_ne; [done|]. congruence.
      * intros l' [= <-]. destruct o as [lo|]; [|done].
        destruct O as [co|]; [|done]. destruct Ho. congruence.
  - destruct st as [a o inv h], s as [A O b]; simpl in *.
    unfold sim, owns; simpl. repeat split; try done.
    + intros l c Hl. destruct a as [la|]; simpl; [|by apply Hfr].
      destruct A as [ca|]; [|done]. destruct Ha.
      rewrite lookup_delete_ne by congruence. by apply Hfr.
    + destruct o as [lo|], O as [co|]; try done.
      destruct Ho as [Ho0 Ho]. split; [done|].
      destruct a as [la|]; simpl; [|done].
      rewrite lookup_delete_ne; [done|]. intros ->. by eapply Hne.
Qed.

Lemma sim_foldl index h0 words : ∀ st s,
  index_alloc index h0 →
  sim h0 st s →
  sim h0 (foldl (queryEvaluate_step index) st words)
    (foldl (acc_step union_counts (stored index h0)) s words).
Proof.
  induction words as [|w words IH]; intros st s Halloc Hsim; simpl; [done|].
  apply IH; [done|]. by apply sim_step.
Qed.

Lemma queryEvaluate_sim words index h :
  index_alloc index h →
  let r := queryEvaluate words index h in
  (∀ l c, h !! l = Some c → r.2 !! l = Some c) ∧
  owns h r.2 r.1 (acc_eval union_counts (stored index h) words).
Proof.
  intros Halloc. unfold queryEvaluate, acc_eval.
  assert (sim h (EvalState None None false h) (AccState None None false))
    as Hsim by (by unfold sim).
  apply (sim_foldl index h words) in Hsim; [|done].
  apply sim_matchMerge in Hsim.
  destruct Hsim as (Hfr & _ & Ho & _). simpl in *. done.
Qed.

Lemma queryEvaluate_counts words index h :
  index_alloc index h →
  result_counts (queryEvaluate words index h)
  = default ∅ (acc_eval union_counts (stored index h) words).
Proof.
  intros Halloc. destruct (queryEvaluate_sim words index h Halloc) as [_ Ho].
  unfold result_counts, owns in *.
  destruct (queryEvaluate words index h).1 as [l|];
    destruct (acc_eval union_counts (stored index h) words) as [c|];
    try done.
  rewrite deref_Some. by destruct Ho as [_ ->].
Qed.

Lemma is_operator_false w :
  is_operator w = false →
  String.eqb w "or" = false ∧ String.eqb w "and" = false.
Proof. unfold is_operator. intros H%orb_false_elim. tauto. Qed.

Ltac eval_tokens :=
  unfold acc_eval; simpl; unfold acc_step; simpl;
  repeat match goal with
         | H : String.eqb ?w _ = false |- _ => rewrite !H; clear H
         end; simpl.

(** ** Query evaluation leaves the stored index alone *)

(** C9. Evaluating a query only reads the counters objects of the index:
    the AND accumulator and the OR accumulator are objects allocated by the
    evaluator, so after every token, and when [queryEvaluate] returns, each
    word's stored counters (and every object that existed before) holds
    the entries it held before. *)
Theorem queryEvaluate_index_unchanged words index h :
  index_alloc index h →
  (∀ word, stored index (queryEvaluate words index h).2 word
           = stored index h word) ∧
  (∀ l c, h !! l = Some c → (queryEvaluate words index h).2 !! l = Some c) ∧
  (∀ n word,
     stored index
       (mem (foldl (queryEvaluate_step index) (EvalState None None false h)
               (take n words))) word
     = stored index h word).
Proof.
  intros Halloc.
  destruct (queryEvaluate_sim words index h Halloc) as [Hfr _].
  split; [|split; [done|]].
  - intros word. unfold stored, index_find.
    destruct (index !! word) as [l|] eqn:E; [|done].
    destruct (Halloc _ _ E) as [c Hc]. simpl. rewrite Hc. by apply Hfr.
  - intros n word.
    assert (sim h (EvalState None None false h) (AccState None None false))
      as Hsim by (by unfold sim).
    apply (sim_foldl index h (take n words)) in Hsim; [|done].
    destruct Hsim as (Hfr' & _). unfold stored, index_find.
    destruct (index !! word) as [l|] eqn:E; [|done].
    destruct (Halloc _ _ E) as [c Hc]. simpl. rewrite Hc. by apply Hfr'.
Qed.

(** ** AND is a min-merge *)

(** C2. [intersectCounters] overwrites every entry (d, c) of the accumulator
    with min(c, src.get(d)), where get is 0 for a document absent from src,
    and adds no entry; hence for two words indexed over disjoint document
    sets the query "w1 and w2" has no entry with a positive count. *)
Theorem intersect_is_min_merge :
  (∀ (h : heap) (acc wordCounters : loc) (dst src : counters_t),
     h !! acc = Some dst → h !! wordCounters = Some src →
     ∃ dst', intersectCounters acc wordCounters h !! acc = Some dst' ∧
       (∀ d c, dst !! d = Some c →
          dst' !! d = Some (Z.min c (counters_get h (Some wordCounters) d))) ∧
       (∀ d, dst !! d = None → dst' !! d = None)) ∧
  (∀ (index : index_t) (h : heap) (w1 w2 : string) (c1 c2 : counters_t),
     index_alloc index h →
     is_operator w1 = false → is_operator w2 = false →
     stored index h w1 = Some c1 → stored index h w2 = Some c2 →
     dom c1 ## dom c2 →
     ∀ d v, result_counts (queryEvaluate [w1; "and"; w2] index h) !! d = Some v →
            v ≤ 0).
Proof.
  split.
  - intros h acc wc dst src Hacc Hwc.
    rewrite (intersectCounters_spec h acc wc dst src) by done.
    exists (minMergeInto dst src). rewrite lookup_insert_eq.
    split; [done|]. unfold counters_get. rewrite deref_Some, Hwc.
    split; intros d; [intros c|]; intros Hd;
      by rewrite minMergeInto_lookup, Hd.
  - intros index h w1 w2 c1 c2 Halloc [Hor1 Hand1]%is_operator_false
      [Hor2 Hand2]%is_operator_false H1 H2 Hdisj d v.
    rewrite queryEvaluate_counts by done.
    eval_tokens. rewrite H1, H2. simpl.
    (* the copy of c1, narrowed by c2, then added to the new result *)
    rewrite union_counts_lookup, minMergeInto_lookup, union_counts_lookup.
    rewrite lookup_empty.
    destruct (c1 !! d) as [c|] eqn:Ec; [|done].
    assert (c2 !! d = None) as ->.
    { apply not_elem_of_dom. apply elem_of_dom_2 in Ec. set_solver. }
    simpl. rewrite int_add_0_l.
    destruct (c <? 0); [done|]. simpl. rewrite int_add_0_l.
    destruct (Z.ltb_spec (Z.min c 0) 0); [done|]. intros [= <-]. lia.
Qed.

(** ** OR is a sum-merge *)

(** C3, as the code has it.  [unionCounters] sets dst[d] = dst.get(d) + c
    for every entry (d, c) of src for which that sum is a count that an
    [int] holds (not negative, at most [INT_MAX]), creating the entry when
    absent, and leaves the other entries of dst as they are; hence if w1
    matches document 5 with count 2 and w2 matches document 5 with count 3,
    "w1 or w2" scores document 5 at 5. *)
Theorem union_is_sum_merge :
  (∀ (h : heap) (result andResult : loc) (dst src : counters_t),
     h !! result = Some dst → h !! andResult = Some src →
     ∃ dst', unionCounters (Some result) (Some andResult) h !! result
             = Some dst' ∧
       (∀ d c, src !! d = Some c →
          0 ≤ counters_get h (Some result) d + c ≤ INT_MAX →
          dst' !! d = Some (counters_get h (Some result) d + c)) ∧
       (∀ d, src !! d = None → dst' !! d = dst !! d)) ∧
  (∀ (index : index_t) (h : heap) (w1 w2 : string) (c1 c2 : counters_t),
     index_alloc index h →
     is_operator w1 = false → is_operator w2 = false →
     stored index h w1 = Some c1 → c1 !! 5 = Some 2 →
     stored index h w2 = Some c2 → c2 !! 5 = Some 3 →
     ∃ l, (queryEvaluate [w1; "or"; w2] index h).1 = Some l ∧
          counters_get (queryEvaluate [w1; "or"; w2] index h).2 (Some l) 5 = 5).
Proof.
  split.
  - intros h r s dst src Hr Hs.
    rewrite (unionCounters_spec h r s dst src) by done.
    exists (union_counts dst src). rewrite lookup_insert_eq.
    split; [done|]. unfold counters_get. rewrite deref_Some, Hr. simpl.
    split; intros d; [intros c|]; intros Hd; rewrite union_counts_lookup, Hd;
      [|done].
    intros Hfit. simpl. rewrite int_add_fits by (unfold INT_MIN; lia).
    destruct (Z.ltb_spec (default 0 (dst !! d) + c) 0); [lia|done].
  - intros index h w1 w2 c1 c2 Halloc [Hor1 Hand1]%is_operator_false
      [Hor2 Hand2]%is_operator_false H1 H15 H2 H25.
    destruct (queryEvaluate_sim [w1; "or"; w2] index h Halloc) as [_ Ho].
    revert Ho. destruct (queryEvaluate [w1; "or"; w2] index h) as [r h'].
    eval_tokens. rewrite H1, H2. simpl.
    unfold owns, counters_get. destruct r as [l|]; [|done].
    intros [_ Hl]. exists l. split; [done|].
    rewrite deref_Some, Hl. simpl.
    (* 0 + 2 for the copy of c1, 0 + 2 for the first merge, 0 + 3 for the
       copy of c2, and 2 + 3 for the second merge *)
    rewrite !union_counts_lookup, H25, H15, lookup_empty. done.
Qed.

(** C3, as the specification states it, fails: where document 1 has the
    count [INT_MAX] in dst and the count 1 in src, the [int] sum overflows
    and [unionCounters] leaves dst[1] at [INT_MAX], which is not
    dst.get(1) + 1. *)
Lemma union_keeps_count_on_overflow :
  limit_heap !! 1%positive = Some {[ 1 := INT_MAX ]} ∧
  limit_heap !! 2%positive = Some {[ 1 := 1 ]} ∧
  counters_get (unionCounters (Some 1%positive) (Some 2%positive) limit_heap)
    (Some 1%positive) 1 = INT_MAX ∧
  counters_get (unionCounters (Some 1%positive) (Some 2%positive) limit_heap)
    (Some 1%positive) 1
  ≠ counters_get limit_heap (Some 1%positive) 1 + 1.
Proof.
  split; [reflexivity|]. split; [reflexivity|]. split; [reflexivity|].
  vm_compute. discriminate.
Qed.

(** ** AND binds tighter than OR *)



Lemma pets_alloc : index_alloc pets_index pets_heap.
Proof. apply (bool_decide_unpack _). by vm_compute. Defined.

Lemma queryEvaluate_index_unchanged_witness :
  index_alloc pets_index pets_heap ∧
  stored pets_index
    (queryEvaluate ["cat"; "and"; "dog"; "or"; "fish"]%string
       pets_index pets_heap).2 "cat"
  = stored pets_index pets_heap "cat".
Proof.
  split; [exact pets_alloc|].
  apply (proj1 (queryEvaluate_index_unchanged
                  ["cat"; "and"; "dog"; "or"; "fish"]%string
                  pets_index pets_heap pets_alloc)).
Defined.

Lemma intersect_is_min_merge_witness :
  (pets_heap !! 1%positive = Some {[ 1 := 1; 5 := 2 ]} ∧
   pets_heap !! 2%positive = Some {[ 2 := 1; 5 := 3 ]} ∧
   ∃ dst', intersectCounters 1%positive 2%positive pets_heap !! 1%positive
           = Some dst' ∧
     (∀ d c, ({[ 1 := 1; 5 := 2 ]} : counters_t) !! d = Some c →
        dst' !! d
        = Some (Z.min c (counters_get pets_heap (Some 2%positive) d))) ∧
     (∀ d, ({[ 1 := 1; 5 := 2 ]} : counters_t) !! d = None →
        dst' !! d = None)) ∧
  (index_alloc pets_index pets_heap ∧
   is_operator "cat" = false ∧ is_operator "fish" = false ∧
   stored pets_index pets_heap "cat" = Some {[ 1 := 1; 5 := 2 ]} ∧
   stored pets_index pets_heap "fish" = Some {[ 2 := 1 ]} ∧
   dom ({[ 1 := 1; 5 := 2 ]} : counters_t) ## dom ({[ 2 := 1 ]} : counters_t) ∧
   ∀ d v,
     result_counts (queryEvaluate ["cat"; "and"; "fish"]%string
                      pets_index pets_heap) !! d = Some v →
     v ≤ 0).
Proof.
  assert (dom ({[ 1 := 1; 5 := 2 ]} : counters_t)
          ## dom ({[ 2 := 1 ]} : counters_t)) as Hdisj
    by (apply (bool_decide_unpack _); by vm_compute).
  split.
  - split; [reflexivity|]. split; [reflexivity|].
    apply (proj1 intersect_is_min_merge pets_heap 1%positive 2%positive
             {[ 1 := 1; 5 := 2 ]} {[ 2 := 1; 5 := 3 ]}); reflexivity.
  - split; [exact pets_alloc|]. do 4 (split; [reflexivity|]).
    split; [exact Hdisj|].
    apply (proj2 intersect_is_min_merge pets_index pets_heap
             "cat"%string "fish"%string {[ 1 := 1; 5 := 2 ]} {[ 2 := 1 ]}
             pets_alloc); (reflexivity || exact Hdisj).
Defined.

Lemma union_is_sum_merge_witness :
  (pets_heap !! 1%positive = Some {[ 1 := 1; 5 := 2 ]} ∧
   pets_heap !! 2%positive = Some {[ 2 := 1; 5 := 3 ]} ∧
   ∃ dst', unionCounters (Some 1%positive) (Some 2%positive) pets_heap
             !! 1%positive = Some dst' ∧
     (∀ d c, ({[ 2 := 1; 5 := 3 ]} : counters_t) !! d = Some c →
        0 ≤ counters_get pets_heap (Some 1%positive) d + c ≤ INT_MAX →
        dst' !! d = Some (counters_get pets_heap (Some 1%positive) d + c)) ∧
     (∀ d, ({[ 2 := 1; 5 := 3 ]} : counters_t) !! d = None →
        dst' !! d = ({[ 1 := 1; 5 := 2 ]} : counters_t) !! d)) ∧
  (index_alloc pets_index pets_heap ∧
   is_operator "cat" = false ∧ is_operator "dog" = false ∧
   stored pets_index pets_heap "cat" = Some {[ 1 := 1; 5 := 2 ]} ∧
   ({[ 1 := 1; 5 := 2 ]} : counters_t) !! 5 = Some 2 ∧
   stored pets_index pets_heap "dog" = Some {[ 2 := 1; 5 := 3 ]} ∧
   ({[ 2 := 1; 5 := 3 ]} : counters_t) !! 5 = Some 3 ∧
   ∃ l, (queryEvaluate ["cat"; "or"; "dog"]%string pets_index pets_heap).1
        = Some l ∧
        counters_get
          (queryEvaluate ["cat"; "or"; "dog"]%string pets_index pets_heap).2
          (Some l) 5 = 5).
Proof.
  split.
  - split; [reflexivity|]. split; [reflexivity|].
    apply (proj1 union_is_sum_merge pets_heap 1%positive 2%positive
             {[ 1 := 1; 5 := 2 ]} {[ 2 := 1; 5 := 3 ]}); reflexivity.
  - split; [exact pets_alloc|]. do 6 (split; [reflexivity|]).
    apply (proj2 union_is_sum_merge pets_index pets_heap
             "cat"%string "dog"%string {[ 1 := 1; 5 := 2 ]} {[ 2 := 1; 5 := 3 ]}
             pets_alloc); reflexivity.
Defined.

(** ** Syntax validation *)

Lemma last_List_last (ws : list string) w0 d :
  last (w0 :: ws) = Some (List.last (w0 :: ws) d).
Proof.
  revert w0. induction ws as [|w ws IH]; intros w0; [done|].
  change (last (w0 :: w :: ws)) with (last (w :: ws)).
  change (List.last (w0 :: w :: ws) d) with (List.last (w :: ws) d).
  apply IH.
Qed.

Lemma consecutive_operators_spec ws :
  consecutive_operators ws = true ↔
  ∃ i w1 w2, ws !! i = Some w1 ∧ ws !! S i = Some w2 ∧
             is_operator w1 = true ∧ is_operator w2 = true.
Proof.
  induction ws as [|w1 ws IH]; simpl.
  - split; [done|]. by intros (i & ? & ? & ? & _).
  - destruct ws as [|w2 ws].
    + split; [done|]. intros (i & ? & ? & _ & Hi & _). by destruct i.
    + rewrite orb_true_iff, andb_true_iff, IH. split.
      * intros [[H2 H1]|(i & v1 & v2 & Hi1 & Hi2 & Hv)].
        -- by exists 0%nat, w1, w2.
        -- by exists (S i), v1, v2.
      * intros (i & v1 & v2 & Hi1 & Hi2 & Hv1 & Hv2).
        destruct i as [|i]; simpl in *.
        -- left. by simplify_eq.
        -- right. by exists i, v1, v2.
Qed.

Lemma isValidQuerySyntax_spec tokens :
  isValidQuerySyntax tokens = false ↔ syntax_violation tokens.
Proof.
  unfold isValidQuerySyntax, syntax_violation.
  destruct tokens as [|w0 ws]; [by split; [left|]|].
  rewrite (last_List_last ws w0 ""%string). simpl head.
  destruct (is_operator w0) eqn:E0.
  { split; [|done]. intros _. right; left. by exists w0. }
  destruct (is_operator (List.last (w0 :: ws) ""%string)) eqn:El.
  { split; [|done]. intros _. right; right; left. by eexists. }
  rewrite negb_false_iff, consecutive_operators_spec. split.
  - intros H. by do 3 right.
  - intros [?|[(w & Hw0 & Hw)|[(w & Hwl & Hw)|H]]]; [done| | |done].
    + simpl in Hw0. congruence.
    + congruence.
Qed.

Lemma tokenize_loop_t fuel maxWords : ∀ buf words t start,
  t = Z.of_nat (length words) →
  let tk := tokenize_loop fuel maxWords buf words t start in
  tk_t tk = Z.of_nat (length (tk_words tk)).
Proof.
  induction fuel as [|fuel IH]; intros buf words t start Ht; simpl; [done|].
  destruct (Ascii.eqb (rd buf start) NUL); [done|].
  destruct (Ascii.eqb (rd buf (skip_space (length buf) buf start)) NUL);
    [done|].
  destruct (lower_word (length buf) buf (skip_space (length buf) buf start))
    as [buf' end_].
  destruct (t <? maxWords); [|done].
  assert (t + 1 = Z.of_nat (length (words ++ [skip_space (length buf) buf start])))
    as Ht' by (rewrite length_app; simpl; lia).
  destruct (Ascii.eqb (rd buf' end_) NUL); by apply IH.
Qed.

(** C6. A token sequence fails [isValidQuerySyntax] exactly when it is
    empty, begins or ends with "and"/"or", or has an operator right after an
    operator, and every other sequence passes; a query line whose tokens
    violate the syntax is dropped by [processQuery] before evaluation:
    nothing is printed, the process goes on and the heap is untouched. *)
Theorem syntax_rejected_before_evaluation :
  (∀ tokens, isValidQuerySyntax tokens = false ↔ syntax_violation tokens) ∧
  (∀ tokens, isValidQuerySyntax tokens = true ↔ ¬ syntax_violation tokens) ∧
  (∀ qsort query index pageDirectory h,
     syntax_violation (query_words query) →
     processQuery qsort query index pageDirectory h = ([], false, h)).
Proof.
  split; [apply isValidQuerySyntax_spec|]. split.
  - intros tokens. rewrite <- isValidQuerySyntax_spec.
    by destruct (isValidQuerySyntax tokens).
  - intros qsort query index pageDirectory h Hbad. unfold processQuery.
    destruct (isValidCharacters query); [simpl|done].
    destruct (tk_t _ =? 0); [done|].
    apply isValidQuerySyntax_spec in Hbad. unfold query_words in Hbad.
    by rewrite Hbad.
Qed.

Lemma syntax_rejected_before_evaluation_witness :
  syntax_violation (query_words (list_ascii_of_string "dog AND and cat")) ∧
  processQuery (λ _ l, l) (list_ascii_of_string "dog AND and cat")
    pets_index (λ _, Some "url"%string) pets_heap
  = ([], false, pets_heap).
Proof.
  assert (syntax_violation
            (query_words (list_ascii_of_string "dog AND and cat"))) as Hbad.
  { do 3 right. exists 1%nat, "and"%string, "and"%string.
    repeat split; reflexivity. }
  split; [exact Hbad|].
  apply (proj2 (proj2 syntax_rejected_before_evaluation)). exact Hbad.
Defined.

(** ** The result when no AND-chain matched *)

Arguments search_words : simpl never.

Lemma and_chains_cons tokens : ∃ chain chains, and_chains tokens = chain :: chains.
Proof.
  destruct tokens as [|w tokens]; simpl; [by eexists _, _|].
  destruct (String.eqb w "or"); [by eexists _, _|].
  destruct (and_chains tokens); by eexists _, _.
Qed.

Lemma matchMerge_orSequence_None st :
  orSequence (matchMerge st) = None ↔
  orSequence st = None ∧ andSequence st = None.
Proof.
  unfold matchMerge. destruct (andSequence st) as [a|]; [|tauto].
  destruct (orSequence st); simpl; split; (done || by intros []).
Qed.

Lemma matchMerge_andSequence st : andSequence (matchMerge st) = None.
Proof.
  unfold matchMerge. destruct (andSequence st) as [a|] eqn:E; [|done].
  by destruct (orSequence st).
Qed.

Lemma queryEvaluate_null_run index tokens : ∀ st,
  (andSequenceInvalid st = true → andSequence st = None) →
  orSequence (matchMerge (foldl (queryEvaluate_step index) st tokens)) = None ↔
  orSequence st = None ∧
  ∃ chain chains, and_chains tokens = chain :: chains ∧
    chain_will_match index st chain = false ∧
    Forall (λ c, chain_matched index c = false) chains.
Proof.
  induction tokens as [|w tokens IH]; intros st Hinv; simpl.
  - rewrite matchMerge_orSequence_None.
    unfold chain_will_match, chain_matched. simpl. split.
    + intros [Ho Ha]. split; [done|]. exists [], []. rewrite Ha.
      by destruct (andSequenceInvalid st).
    + intros [Ho (chain & chains & [= <- <-] & Hc & _)]. split; [done|].
      destruct (andSequenceInvalid st) eqn:E; [by apply Hinv|].
      by destruct (andSequence st).
  - destruct (and_chains_cons tokens) as (c & cs & Hcs).
    unfold queryEvaluate_step at 2.
    destruct (String.eqb w "or") eqn:Eor.
    { rewrite IH by done. simpl. rewrite matchMerge_orSequence_None, Hcs.
      unfold chain_will_match at 1. simpl. rewrite matchMerge_andSequence.
      split.
      - intros [[Ho Ha] (c' & cs' & [= <- <-] & Hc & Hrest)].
        split; [done|]. exists [], (c :: cs). split; [done|]. split.
        + unfold chain_will_match. rewrite Ha.
          by destruct (andSequenceInvalid st).
        + by constructor.
      - intros [Ho (c' & cs' & [= <- <-] & Hc & Hrest)].
        apply Forall_cons in Hrest as [Hc0 Hrest].
        split; [split; [done|]|by exists c, cs].
        unfold chain_will_match in Hc. simpl in Hc.
        destruct (andSequenceInvalid st) eqn:E; [by apply Hinv|].
        by destruct (andSequence st). }
    rewrite Hcs.
    assert (∀ st', orSequence st' = orSequence st →
              (andSequenceInvalid st' = true → andSequence st' = None) →
              chain_will_match index st' c
              = chain_will_match index st (w :: c) →
              orSequence (matchMerge (foldl (queryEvaluate_step index) st' tokens))
                = None ↔
              orSequence st = None ∧
              ∃ chain chains, (w :: c) :: cs = chain :: chains ∧
                chain_will_match index st chain = false ∧
                Forall (λ c0, chain_matched index c0 = false) chains) as Hgo.
    { intros st' Ho Hinv' Hcm. rewrite IH, Ho, Hcs by done. split.
      - intros [Ho' (c' & cs' & [= <- <-] & Hc & Hrest)].
        split; [done|]. exists (w :: c), cs. by rewrite <- Hcm.
      - intros [Ho' (c' & cs' & [= <- <-] & Hc & Hrest)].
        split; [done|]. exists c, cs. by rewrite Hcm. }
    destruct (andSequenceInvalid st) eqn:Einv.
    { apply Hgo; [done|simpl; rewrite ?Einv; intros; (done || auto)|]. unfold chain_will_match. by rewrite Einv. }
    destruct (String.eqb w "and") eqn:Eand.
    { apply Hgo; [done|simpl; rewrite ?Einv; intros; (done || auto)|]. unfold chain_will_match, chain_matched.
      rewrite Einv. unfold search_words. simpl. by rewrite Eand. }
    assert (search_words (w :: c) = w :: search_words c) as Hsw
      by (unfold search_words; simpl; by rewrite Eand).
    destruct (index_find index w) as [wm|] eqn:Efind.
    + destruct (andSequence st) as [a|] eqn:Ea.
      * apply Hgo; [done|simpl; rewrite ?Einv; intros; (done || auto)|]. unfold chain_will_match. simpl.
        rewrite Einv, Ea, Hsw. simpl. unfold found at 2. by rewrite Efind.
      * simpl. apply Hgo; [done|simpl; rewrite ?Einv; intros; (done || auto)|].
        unfold chain_will_match, chain_matched. simpl.
        rewrite Einv, Ea, Hsw. simpl. unfold found at 2. by rewrite Efind.
    + apply Hgo; [done|simpl; rewrite ?Einv; intros; (done || auto)|]. unfold chain_will_match, chain_matched. simpl.
      rewrite Einv, Hsw. simpl. unfold found at 1 3. rewrite Efind. simpl.
      by destruct (andSequence st).
Qed.

Lemma and_chains_elem tokens : ∀ chain w,
  chain ∈ and_chains tokens → w ∈ chain →
  w ∈ tokens ∧ String.eqb w "or" = false.
Proof.
  induction tokens as [|t tokens IH]; intros chain w Hc Hw; simpl in Hc.
  - apply list_elem_of_singleton in Hc as ->. by apply elem_of_nil in Hw.
  - destruct (String.eqb t "or") eqn:Eor.
    + apply elem_of_cons in Hc as [->|Hc]; [by apply elem_of_nil in Hw|].
      destruct (IH _ _ Hc Hw). split; [by right|done].
    + destruct (and_chains_cons tokens) as (c & cs & Hcs). rewrite Hcs in *.
      apply elem_of_cons in Hc as [->|Hc].
      * apply elem_of_cons in Hw as [->|Hw]; [split; [by left|done]|].
        destruct (IH c w) as [? ?]; [by left|done|]. split; [by right|done].
      * destruct (IH chain w) as [? ?]; [by right|done|].
        split; [by right|done].
Qed.

Lemma chain_unmatched_when_absent index tokens chain :
  (∀ w, w ∈ tokens → is_operator w = false → index_find index w = None) →
  chain ∈ and_chains tokens →
  chain_matched index chain = false.
Proof.
  intros Habs Hc. unfold chain_matched.
  destruct (search_words chain) as [|w ws] eqn:E; [done|].
  assert (w ∈ search_words chain) as Hw by (rewrite E; by left).
  unfold search_words in Hw. apply list_elem_of_In, filter_In in Hw as [Hw Hand].
  apply list_elem_of_In in Hw.
  destruct (and_chains_elem tokens chain w Hc Hw) as [Hin Hor].
  simpl. unfold found at 1. rewrite Habs; [done|done|].
  unfold is_operator. rewrite Hor. by destruct (String.eqb w "and").
Qed.

(** C8, as the code has it.  When no AND-chain matched, [queryEvaluate]
    returns [NULL], not a counters object: its result is [NULL] exactly
    when every AND-chain of the query has no search word or has one that is
    not in the index, in particular when every search word is absent; the
    ranker prints "No documents match." for a [NULL] result. *)
Theorem queryEvaluate_null_when_unmatched :
  (∀ tokens index h,
     (queryEvaluate tokens index h).1 = None ↔
     Forall (λ chain, chain_matched index chain = false) (and_chains tokens)) ∧
  (∀ tokens index h,
     (∀ w, w ∈ tokens → is_operator w = false → index_find index w = None) →
     (queryEvaluate tokens index h).1 = None) ∧
  (∀ qsort pageDirectory h,
     printRankedResults qsort None pageDirectory h
     = ([NoDocumentsMatch], false)).
Proof.
  assert (∀ tokens index h,
     (queryEvaluate tokens index h).1 = None ↔
     Forall (λ chain, chain_matched index chain = false) (and_chains tokens))
    as Hiff.
  { intros tokens index h. unfold queryEvaluate. simpl.
    rewrite queryEvaluate_null_run by done. simpl. split.
    - intros [_ (c & cs & -> & Hc & Hcs)]. by constructor.
    - intros Hall. split; [done|].
      destruct (and_chains_cons tokens) as (c & cs & Hcs). rewrite Hcs in *.
      apply Forall_cons in Hall as [Hc Hall]. by exists c, cs. }
  split; [exact Hiff|]. split; [|done].
  intros tokens index h Habs. apply Hiff. apply Forall_forall.
  intros chain Hc. by eapply chain_unmatched_when_absent.
Qed.

Lemma queryEvaluate_null_when_unmatched_witness :
  (queryEvaluate ["bird"; "and"; "cat"; "or"; "worm"]%string
     pets_index pets_heap).1 = None.
Proof.
  apply (proj2 (proj1 queryEvaluate_null_when_unmatched
                  ["bird"; "and"; "cat"; "or"; "worm"]%string
                  pets_index pets_heap)).
  repeat constructor.
Defined.

(** C8, as the specification states it, fails: for the valid query "bird"
    on the pets index no chain matches, and the result is [NULL], not an
    empty counters object. *)
Lemma queryEvaluate_unmatched_not_empty_object :
  isValidQuerySyntax ["bird"%string] = true ∧
  Forall (λ chain, chain_matched pets_index chain = false)
    (and_chains ["bird"%string]) ∧
  (queryEvaluate ["bird"%string] pets_index pets_heap).1 = None ∧
  ¬ empty_counters_object (queryEvaluate ["bird"%string] pets_index pets_heap).
Proof.
  split; [reflexivity|]. split; [repeat constructor|]. split; [reflexivity|].
  intros (l & Hl & _). vm_compute in Hl. discriminate.
Qed.

(** ** Ranking *)

Lemma count_nonzero_fold (l : list (Z * Z)) : ∀ n,
  foldl (λ s kv, callbackCountNonZero kv.1 kv.2 s) n l
  = n + Z.of_nat (length (filter (λ kv : Z * Z, 0 < kv.2) l)).
Proof.
  induction l as [|[d c] l IH]; intros n; simpl; [lia|].
  rewrite IH, filter_cons. unfold callbackCountNonZero. simpl.
  destruct (Z.ltb_spec 0 c); destruct (decide (0 < c)); simpl; lia.
Qed.

Lemma store_scores_fold (l : list (Z * Z)) : ∀ pre rest,
  (length (filter (λ kv : Z * Z, (0 < kv.2)%Z) l) ≤ length rest)%nat →
  foldl (λ s kv, callbackStoreDocScores kv.1 kv.2 s)
    (ScoreList (pre ++ rest) (Z.of_nat (length pre))) l
  = ScoreList
      (pre ++ ((λ kv, DocScore kv.1 kv.2) <$> filter (λ kv : Z * Z, 0 < kv.2) l)
           ++ drop (length (filter (λ kv : Z * Z, 0 < kv.2) l)) rest)
      (Z.of_nat (length pre + length (filter (λ kv : Z * Z, (0 < kv.2)%Z) l))).
Proof.
  induction l as [|[d c] l IH]; intros pre rest Hlen; simpl.
  - by rewrite Nat.add_0_r.
  - revert Hlen. rewrite !filter_cons.
    unfold callbackStoreDocScores at 2. simpl.
    destruct (Z.ltb_spec 0 c); destruct (decide (0 < c)); try lia; simpl;
      intros Hlen.
    + destruct rest as [|r rest]; simpl in Hlen; [lia|].
      rewrite Nat2Z.id, insert_app_r_alt, Nat.sub_diag by lia. simpl.
      replace (Z.of_nat (length pre) + 1)
        with (Z.of_nat (length (pre ++ [DocScore d c])))
        by (rewrite length_app; simpl; lia).
      rewrite (cons_middle _ pre rest), app_assoc, IH by lia.
      rewrite <- app_assoc, length_app. simpl. f_equal. f_equal. lia.
    + by apply IH.
Qed.

Lemma print_results_scores pageDirectory (scores : list docScore_t) :
  result_scores (print_results pageDirectory scores).1 `prefix_of` scores ∧
  ((print_results pageDirectory scores).2 = false →
   result_scores (print_results pageDirectory scores).1 = scores) ∧
  (Forall (λ ds, is_Some (pageDirectory (docID ds))) scores →
   (print_results pageDirectory scores).2 = false).
Proof.
  induction scores as [|[d sc] scores (IH1 & IH2 & IH3)]; simpl.
  - done.
  - destruct (pageDirectory d) as [url|] eqn:E; simpl.
    + destruct (print_results pageDirectory scores) as [out exited]. simpl in *.
      repeat split.
      * by apply prefix_cons.
      * intros ->. by rewrite IH2.
      * intros [_ H]%Forall_cons. by apply IH3.
    + repeat split; [apply prefix_nil|done|].
      intros [[? H] _]%Forall_cons. simpl in H. congruence.
Qed.

Lemma StronglySorted_weaken {A} (R1 R2 : relation A) (l : list A) :
  (∀ a b, R1 a b → R2 a b) → StronglySorted R1 l → StronglySorted R2 l.
Proof.
  intros HR. induction 1 as [|x l Hl IH Hx]; constructor; [done|].
  eapply Forall_impl; [exact Hx|]. intros y. apply HR.
Qed.

Section ranking.
Variable qsort :
  (docScore_t → docScore_t → Z) → list docScore_t → list docScore_t.

(** The contract of [qsort]: the array is rearranged, and afterwards no
    element compares greater than its successor. *)
Hypothesis qsort_Permutation : ∀ cmp l, qsort cmp l ≡ₚ l.
Hypothesis qsort_Sorted :
  ∀ l, Sorted (λ a b, compareScores a b ≤ 0) (qsort compareScores l).

Lemma rankedScores_Permutation result h :
  rankedScores qsort result h
  ≡ₚ positive_scores (default ∅ (deref h result)).
Proof.
  unfold rankedScores, counters_iterate, positive_scores.
  rewrite qsort_Permutation.
  destruct (deref h result) as [c|]; simpl; [|by rewrite map_to_list_empty].
  rewrite count_nonzero_fold, Z.add_0_l, Nat2Z.id.
  pose proof (store_scores_fold (map_to_list c) []
                (replicate (length (filter (λ kv : Z * Z, 0 < kv.2)
                                      (map_to_list c))) (DocScore 0 0))) as Hst.
  rewrite length_replicate in Hst. simpl in Hst.
  change (Z.of_nat 0) with 0 in Hst. rewrite Hst by done.
  simpl. rewrite drop_ge, app_nil_r by by rewrite length_replicate. done.
Qed.

(** C7. The array that [printRankedResults] sorts holds exactly the
    documents of the result whose score is greater than 0, each once;
    after [qsort] it is in non-increasing order of score, whatever order
    [qsort] gives to equal scores; the result lines are printed in the
    order of the array (all of them unless a page file is missing, where
    the process exits). *)
Theorem ranked_results_positive_and_sorted result pageDirectory h :
  let c := default ∅ (deref h result) in
  let ranked := rankedScores qsort result h in
  let printed := printRankedResults qsort result pageDirectory h in
  ranked ≡ₚ positive_scores c ∧
  (∀ d s, DocScore d s ∈ ranked ↔ c !! d = Some s ∧ 0 < s) ∧
  StronglySorted (λ a b, score b ≤ score a) ranked ∧
  result_scores printed.1 `prefix_of` ranked ∧
  (printed.2 = false → result_scores printed.1 = ranked) ∧
  (Forall (λ ds, is_Some (pageDirectory (docID ds))) ranked →
   printed.2 = false).
Proof.
  intros c ranked printed.
  pose proof (rankedScores_Permutation result h) as Hperm.
  fold c ranked in Hperm.
  split; [done|]. split; [|split].
  - intros d s. rewrite Hperm. unfold positive_scores.
    rewrite list_elem_of_fmap. split.
    + intros ([d' s'] & [= -> ->] & [Hs Hin]%list_elem_of_filter).
      by apply elem_of_map_to_list in Hin.
    + intros [Hc Hs]. exists (d, s). split; [done|].
      apply list_elem_of_filter. split; [done|].
      by apply elem_of_map_to_list.
  - unfold ranked, rankedScores.
    apply (StronglySorted_weaken (λ a b, compareScores a b ≤ 0)).
    { intros a b. unfold compareScores. lia. }
    apply Sorted_StronglySorted; [|apply qsort_Sorted].
    intros x y z. unfold compareScores. lia.
  - unfold printed, printRankedResults.
    assert (counters_iterate result callbackCountNonZero h 0
            = Z.of_nat (length ranked)) as ->.
    { rewrite Hperm. unfold counters_iterate, positive_scores, c.
      rewrite length_fmap.
      destruct (deref h result) as [c'|]; simpl;
        [|by rewrite map_to_list_empty].
      by rewrite count_nonzero_fold. }
    fold ranked.
    destruct (Z.eqb_spec (Z.of_nat (length ranked)) 0) as [Hz|Hz]; simpl.
    + destruct ranked; [|done]. repeat split; done.
    + pose proof (print_results_scores pageDirectory ranked) as Hpr.
      destruct (print_results pageDirectory ranked) as [out exited].
      simpl in *. done.
Qed.
End ranking.

Lemma merge_qsort_Permutation cmp l : merge_qsort cmp l ≡ₚ l.
Proof. apply merge_sort_Permutation. Qed.

Lemma merge_qsort_Sorted l :
  Sorted (λ a b, compareScores a b ≤ 0) (merge_qsort compareScores l).
Proof.
  assert (Total (λ a b, compareScores a b ≤ 0)) as Htotal
    by (intros a b; unfold compareScores; lia).
  apply (Sorted_merge_sort (λ a b, compareScores a b ≤ 0)).
Qed.

Lemma ranked_results_positive_and_sorted_witness :
  (∀ cmp l, merge_qsort cmp l ≡ₚ l) ∧
  (∀ l, Sorted (λ a b, compareScores a b ≤ 0) (merge_qsort compareScores l)) ∧
  rankedScores merge_qsort (Some 2%positive) pets_heap
    ≡ₚ positive_scores {[ 2 := 1; 5 := 3 ]} ∧
  StronglySorted (λ a b, score b ≤ score a)
    (rankedScores merge_qsort (Some 2%positive) pets_heap).
Proof.
  split; [exact merge_qsort_Permutation|].
  split; [exact merge_qsort_Sorted|].
  pose proof (ranked_results_positive_and_sorted merge_qsort
                merge_qsort_Permutation merge_qsort_Sorted
                (Some 2%positive) (λ _, Some "url"%string) pets_heap)
    as (Hperm & _ & Hsorted & _).
  split; [exact Hperm|exact Hsorted].
Defined.

(** ** Tokenizing *)

Lemma ws_tokens_space c l : isspace c = true → ws_tokens (c :: l) = ws_tokens l.
Proof.
  intros Hc. unfold ws_tokens. simpl. destruct (ws_split l) as [cur rest].
  by rewrite Hc.
Qed.

Lemma ws_tokens_spaces ws l :
  Forall (λ c, isspace c = true) ws → ws_tokens (ws ++ l) = ws_tokens l.
Proof.
  induction 1 as [|c ws Hc _ IH]; simpl; [done|]. by rewrite ws_tokens_space.
Qed.

Lemma ws_split_word w l :
  Forall (λ c, isspace c = false) w →
  (l = [] ∨ ∃ c l', l = c :: l' ∧ isspace c = true) →
  ws_split (w ++ l) = (w, ws_tokens l).
Proof.
  intros Hw Hl. induction Hw as [|c w Hc _ IH]; simpl.
  - destruct Hl as [->|(c & l' & -> & Hc)]; [done|].
    unfold ws_tokens. simpl. destruct (ws_split l'). by rewrite Hc.
  - by rewrite IH, Hc.
Qed.

Lemma ws_tokens_word w l :
  w ≠ [] → Forall (λ c, isspace c = false) w →
  (l = [] ∨ ∃ c l', l = c :: l' ∧ isspace c = true) →
  ws_tokens (w ++ l) = w :: ws_tokens l.
Proof.
  intros Hne Hw Hl. unfold ws_tokens at 1. rewrite ws_split_word by done.
  by destruct w.
Qed.

(** A word needs a character, and a separator before the next word. *)
Lemma ws_split_length l :
  let '(cur, rest) := ws_split l in
  match cur with
  | [] => (2 * length rest ≤ length l)%nat
  | _ => (2 * length rest + 1 ≤ length l)%nat
  end.
Proof.
  induction l as [|c l IH]; simpl; [lia|].
  destruct (ws_split l) as [cur rest].
  destruct (isspace c); destruct cur; simpl in *; lia.
Qed.

Lemma ws_tokens_bound l :
  Z.of_nat (length (ws_tokens l)) ≤ query_maxWords l.
Proof.
  unfold query_maxWords, ws_tokens. pose proof (ws_split_length l) as H.
  destruct (ws_split l) as [cur rest].
  assert (2 * Z.of_nat (length (match cur with [] => rest | _ => cur :: rest end))
          ≤ Z.of_nat (length l) + 1) as Hb by (destruct cur; simpl in *; lia).
  pose proof (Z.div_mod (Z.of_nat (length l)) 2) as Hdm.
  pose proof (Z.mod_pos_bound (Z.of_nat (length l)) 2). lia.
Qed.

(** The characters of a line: leading white space, then either nothing or
    a word that ends the line or is followed by white space. *)
Lemma span_spaces (l : list ascii) :
  ∃ ws r, l = ws ++ r ∧ Forall (λ c, isspace c = true) ws ∧
    (r = [] ∨ ∃ c r', r = c :: r' ∧ isspace c = false).
Proof.
  induction l as [|c l (ws & r & -> & Hws & Hr)].
  - exists [], []. by repeat split; [|left].
  - destruct (isspace c) eqn:Ec.
    + exists (c :: ws), r. repeat split; [by constructor|done].
    + exists [], (c :: ws ++ r). repeat split; [done|]. right. by eexists _, _.
Qed.

Lemma span_word (l : list ascii) :
  ∃ w r, l = w ++ r ∧ Forall (λ c, isspace c = false) w ∧
    (r = [] ∨ ∃ c r', r = c :: r' ∧ isspace c = true).
Proof.
  induction l as [|c l (w & r & -> & Hw & Hr)].
  - exists [], []. by repeat split; [|left].
  - destruct (isspace c) eqn:Ec.
    + exists [], (c :: w ++ r). repeat split; [done|]. right. by eexists _, _.
    + exists (c :: w), r. repeat split; [by constructor|done].
Qed.

Lemma rd_app pre l : rd (pre ++ l) (length pre) = hd NUL l.
Proof.
  unfold rd. rewrite app_nth2, Nat.sub_diag by lia. by destruct l.
Qed.

Lemma isspace_NUL : isspace NUL = false.
Proof. reflexivity. Qed.

Lemma tolower_not_NUL c : c ≠ NUL → tolower c ≠ NUL.
Proof.
  unfold tolower. destruct (isupper c) eqn:E; [|done]. intros _ H.
  apply (f_equal N_of_ascii) in H. rewrite N_ascii_embedding in H.
  - unfold NUL in H. simpl in H. lia.
  - unfold isupper, code in *. apply andb_prop in E as [_ E].
    apply N.leb_le in E. lia.
Qed.

Lemma skip_space_app ws : ∀ fuel pre r,
  Forall (λ c, isspace c = true) ws →
  (r = [] ∨ ∃ c r', r = c :: r' ∧ isspace c = false) →
  (length ws ≤ fuel)%nat →
  skip_space fuel (pre ++ ws ++ r) (length pre) = (length pre + length ws)%nat.
Proof.
  induction ws as [|c ws IH]; intros fuel pre r Hws Hr Hfuel; simpl.
  - rewrite Nat.add_0_r. destruct fuel as [|fuel]; simpl; [done|].
    rewrite rd_app.
    destruct Hr as [->|(c & r' & -> & Hc)]; simpl;
      by rewrite ?isspace_NUL, ?Hc.
  - apply Forall_cons in Hws as [Hc Hws].
    destruct fuel as [|fuel]; simpl in *; [lia|].
    rewrite rd_app. simpl. rewrite Hc.
    rewrite (cons_middle c pre), app_assoc.
    replace (S (length pre)) with (length (pre ++ [c]))
      by (rewrite length_app; simpl; lia).
    rewrite IH by (done || lia). rewrite length_app. simpl. lia.
Qed.

Lemma lower_word_app w : ∀ fuel pre r,
  Forall (λ c, isspace c = false ∧ c ≠ NUL) w →
  (r = [] ∨ ∃ c r', r = c :: r' ∧ (isspace c = true ∨ c = NUL)) →
  (length w ≤ fuel)%nat →
  lower_word fuel (pre ++ w ++ r) (length pre)
  = (pre ++ map tolower w ++ r, (length pre + length w)%nat).
Proof.
  induction w as [|c w IH]; intros fuel pre r Hw Hr Hfuel; simpl.
  - rewrite Nat.add_0_r. destruct fuel as [|fuel]; simpl; [done|].
    rewrite rd_app.
    destruct Hr as [->|(c & r' & -> & [Hc| ->])]; simpl; [done| |done].
    by rewrite Hc, andb_false_r.
  - apply Forall_cons in Hw as [[Hc Hc0] Hw].
    destruct fuel as [|fuel]; simpl in *; [lia|].
    rewrite rd_app. simpl. rewrite Hc.
    destruct (Ascii.eqb_spec c NUL) as [?|_]; [done|]. simpl.
    rewrite insert_app_r_alt, Nat.sub_diag by lia. simpl.
    rewrite (cons_middle (tolower c) pre), app_assoc.
    replace (S (length pre)) with (length (pre ++ [tolower c]))
      by (rewrite length_app; simpl; lia).
    rewrite IH by (done || lia).
    rewrite <- app_assoc, length_app. simpl. f_equal. lia.
Qed.

Lemma cstring_word w r :
  Forall (λ c, c ≠ NUL) w → (r = [] ∨ ∃ r', r = NUL :: r') →
  cstring (w ++ r) = w.
Proof.
  intros Hw Hr. induction Hw as [|c w Hc _ IH]; simpl.
  - by destruct Hr as [->|(r' & ->)].
  - destruct (Ascii.eqb_spec c NUL); [done|]. by rewrite IH.
Qed.

Lemma word_at_app pre l o : word_at (pre ++ l) (length pre + o) = word_at l o.
Proof. unfold word_at. by rewrite drop_app_add. Qed.

Lemma tokenize_loop_at_NUL fuel maxWords buf words t start :
  rd buf start = NUL →
  tokenize_loop fuel maxWords buf words t start = Tokenized buf words t false.
Proof. intros H. destruct fuel; simpl; [done|]. by rewrite H. Qed.

Lemma tokenize_loop_suffix maxWords : ∀ n suf,
  (length suf ≤ n)%nat → Forall (λ c, c ≠ NUL) suf →
  ∀ fuel pre words t,
  (length suf < fuel)%nat →
  t + Z.of_nat (length (ws_tokens suf)) ≤ maxWords →
  ∃ suf' offs,
    tokenize_loop fuel maxWords (pre ++ suf) words t (length pre)
    = Tokenized (pre ++ suf')
        (words ++ map (λ o, length pre + o)%nat offs)
        (t + Z.of_nat (length (ws_tokens suf))) false ∧
    length suf' = length suf ∧
    map (word_at suf') offs = map lowercase (ws_tokens suf).
Proof.
  induction n as [|n IH]; intros suf Hn Hnul fuel pre words t Hfuel Hmax.
  { destruct suf; simpl in Hn; [|lia]. exists [], [].
    rewrite tokenize_loop_at_NUL by (by rewrite rd_app).
    simpl. by rewrite !app_nil_r, Z.add_0_r. }
  destruct fuel as [|fuel]; [lia|]. simpl tokenize_loop.
  rewrite rd_app.
  destruct suf as [|c0 suf0]; simpl hd.
  { exists [], []. simpl. by rewrite !app_nil_r, Z.add_0_r. }
  set (suf := c0 :: suf0) in *.
  assert (c0 ≠ NUL) as Hc0 by (by apply Forall_cons in Hnul as [? _]).
  destruct (Ascii.eqb_spec c0 NUL) as [?|_]; [done|].
  destruct (span_spaces suf) as (ws & r & Hsuf & Hws & Hr).
  rewrite Hsuf in *.
  rewrite skip_space_app; [|done|done|rewrite !length_app; lia].
  rewrite ws_tokens_spaces in * by done.
  replace (length pre + length ws)%nat with (length (pre ++ ws))
    by by rewrite length_app.
  rewrite (app_assoc pre ws r), rd_app.
  destruct Hr as [->|(c & r' & -> & Hc)]; simpl hd.
  { exists ws, []. simpl. by rewrite !app_nil_r, Z.add_0_r. }
  assert (c ≠ NUL) as HcN.
  { apply Forall_app in Hnul as [_ Hnul]. by apply Forall_cons in Hnul as [? _]. }
  destruct (Ascii.eqb_spec c NUL) as [?|_]; [done|].
  destruct (span_word (c :: r')) as (w & r2 & Hr & Hw & Hr2).
  assert (w ≠ []) as Hwne.
  { intros ->. simpl in Hr. destruct Hr2 as [->|(c2 & r3 & -> & Hc2)];
      [done|]. injection Hr as <- _. congruence. }
  rewrite Hr in *. clear Hr.
  assert (Forall (λ c, isspace c = false ∧ c ≠ NUL) w) as Hw'.
  { apply Forall_app in Hnul as [_ Hnul]. apply Forall_app in Hnul as [Hnul _].
    apply Forall_forall. intros x Hx. split.
    - by eapply Forall_forall in Hw.
    - by eapply Forall_forall in Hnul. }
  rewrite lower_word_app;
    [|done
     |destruct Hr2 as [->|(c2 & r3 & -> & Hc2)]; [by left|right; eauto]
     |rewrite !length_app; lia].
  rewrite ws_tokens_word in * by done. simpl length in Hmax.
  destruct (Z.ltb_spec t maxWords) as [_|?]; [|lia].
  replace (length (pre ++ ws) + length w)%nat
    with (length ((pre ++ ws) ++ map tolower w))
    by (by rewrite !length_app, length_map).
  rewrite (app_assoc (pre ++ ws) (map tolower w) r2), rd_app.
  assert (Forall (λ c, c ≠ NUL) (map tolower w)) as Hlow.
  { apply Forall_forall. intros x (y & -> & Hy)%list_elem_of_fmap.
    apply tolower_not_NUL. by eapply Forall_forall in Hw' as [_ ?]. }
  destruct Hr2 as [->|(s & r3 & -> & Hs)]; simpl hd.
  - destruct (Ascii.eqb_spec NUL NUL) as [_|?]; [|done].
    rewrite tokenize_loop_at_NUL by (by rewrite <- (app_nil_r (_ ++ map _ _)), rd_app).
    exists (ws ++ map tolower w), [length ws]. repeat split.
    + rewrite !app_nil_r, <- !app_assoc. simpl. by rewrite length_app.
    + rewrite !length_app, length_map. simpl. lia.
    + simpl. f_equal. rewrite <- (Nat.add_0_r (length ws)), word_at_app.
      unfold word_at, lowercase. rewrite drop_0. f_equal.
      rewrite <- (app_nil_r (map tolower w)) at 1. apply cstring_word; auto.
  - assert (s ≠ NUL) as HsN by (intros ->; by rewrite isspace_NUL in Hs).
    destruct (Ascii.eqb_spec s NUL) as [?|_]; [done|].
    rewrite insert_app_r_alt, Nat.sub_diag by lia. simpl insert.
    rewrite ws_tokens_space in * by done.
    rewrite (cons_middle NUL), app_assoc.
    replace (S (length ((pre ++ ws) ++ map tolower w)))
      with (length (((pre ++ ws) ++ map tolower w) ++ [NUL]))
      by (rewrite (length_app _ [NUL]); simpl; lia).
    destruct (IH r3) with (fuel := fuel)
      (pre := ((pre ++ ws) ++ map tolower w) ++ [NUL])
      (words := words ++ [length (pre ++ ws)]) (t := t + 1)
      as (suf3 & offs3 & Heq & Hlen3 & Hwords3).
    { rewrite !length_app in Hn. simpl in Hn. lia. }
    { apply Forall_app in Hnul as [_ Hnul].
      apply Forall_app in Hnul as [_ Hnul]. by apply Forall_cons in Hnul as [_ ?]. }
    { rewrite !length_app in Hfuel. simpl in Hfuel. lia. }
    { lia. }
    rewrite Heq.
    exists (ws ++ map tolower w ++ NUL :: suf3),
      (length ws :: map (λ o, length ws + length w + 1 + o)%nat offs3).
    repeat split.
    + f_equal.
      * rewrite <- !app_assoc. done.
      * rewrite <- !app_assoc. simpl. rewrite map_map. f_equal.
        f_equal; [rewrite length_app; lia|].
        apply map_ext. intros o. rewrite !length_app, length_map. simpl. lia.
      * simpl length. lia.
    + rewrite !length_app, length_map. simpl. lia.
    + simpl. f_equal.
      * rewrite <- (Nat.add_0_r (length ws)), word_at_app.
        unfold word_at, lowercase. rewrite drop_0.
        rewrite cstring_word; [done|done|right; eauto].
      * rewrite map_map. rewrite <- Hwords3. apply map_ext. intros o.
        rewrite (cons_middle NUL), !app_assoc.
        replace (length ws + length w + 1 + o)%nat
          with (length (((ws ++ map tolower w) ++ [NUL])) + o)%nat
          by (rewrite !length_app, length_map; simpl; lia).
        apply word_at_app.
Qed.

Lemma ws_tokens_all_space l :
  Forall (λ c, isspace c = true) l → ws_tokens l = [].
Proof.
  intros H. rewrite <- (app_nil_r l). by rewrite ws_tokens_spaces.
Qed.

(** C10. A C string [query] has at most [strlen(query) / 2 + 1] tokens, so
    with that [maxWords] the tokenizer never leaves its loop through the
    truncation branch: it returns the number of white-space-separated
    tokens of the line (0 for an empty or all-white-space line), and
    [words[0..t-1]] are those tokens, lowercased in place. *)
Theorem queryTokenize_within_capacity (query : list ascii) :
  Forall (λ c, c ≠ NUL) query →
  let tk := queryTokenize query (query_maxWords query) in
  Z.of_nat (length (ws_tokens query)) ≤ query_maxWords query ∧
  tk_truncated tk = false ∧
  tk_t tk = Z.of_nat (length (ws_tokens query)) ∧
  length (tk_words tk) = length (ws_tokens query) ∧
  map (word_at (tk_buf tk)) (tk_words tk) = map lowercase (ws_tokens query) ∧
  (Forall (λ c, isspace c = true) query → tk_t tk = 0).
Proof.
  intros Hnul tk. pose proof (ws_tokens_bound query) as Hbound.
  destruct (tokenize_loop_suffix (query_maxWords query) (length query) query
              (le_n _) Hnul (S (length query)) [] [] 0)
    as (buf & offs & Heq & Hlen & Hwords); [lia|lia|].
  change ([] ++ query) with query in Heq.
  change (@length ascii []) with 0%nat in Heq.
  unfold tk, queryTokenize. rewrite Heq. simpl.
  rewrite map_id in *.
  assert (length offs = length (ws_tokens query)) as Hoffs.
  { apply (f_equal length) in Hwords. by rewrite !length_map in Hwords. }
  repeat split; try done.
  intros Hsp. by rewrite ws_tokens_all_space.
Qed.

Lemma queryTokenize_within_capacity_witness :
  Forall (λ c, c ≠ NUL) (list_ascii_of_string "  Cat AND  dog ") ∧
  tk_truncated (queryTokenize (list_ascii_of_string "  Cat AND  dog ")
                  (query_maxWords (list_ascii_of_string "  Cat AND  dog ")))
  = false ∧
  map (word_at (tk_buf (queryTokenize (list_ascii_of_string "  Cat AND  dog ")
                          (query_maxWords (list_ascii_of_string "  Cat AND  dog ")))))
    (tk_words (queryTokenize (list_ascii_of_string "  Cat AND  dog ")
                 (query_maxWords (list_ascii_of_string "  Cat AND  dog "))))
  = map lowercase (ws_tokens (list_ascii_of_string "  Cat AND  dog ")).
Proof.
  assert (Forall (λ c, c ≠ NUL) (list_ascii_of_string "  Cat AND  dog "))
    as Hnul by (apply (bool_decide_unpack _); by vm_compute).
  split; [exact Hnul|].
  pose proof (queryTokenize_within_capacity _ Hnul) as (_ & Htr & _ & _ & Hw & _).
  split; [exact Htr|exact Hw].
Defined.

(** ** Printing and scanning numbers *)

Lemma code_digit n : 0 ≤ n < 10 → code (digit n) = (48 + Z.to_N n)%N.
Proof.
  intros Hn. unfold code, digit. apply N_ascii_embedding. lia.
Qed.

Lemma isdigit_digit n : 0 ≤ n < 10 → isdigit (digit n) = true.
Proof.
  intros Hn. unfold isdigit. rewrite code_digit by done.
  apply andb_true_intro. split; apply N.leb_le; lia.
Qed.

Lemma digit_val_digit n : 0 ≤ n < 10 → digit_val (digit n) = n.
Proof. intros Hn. unfold digit_val. rewrite code_digit by done. lia. Qed.

Lemma print_digits_app fuel : ∀ n acc,
  print_digits fuel n acc = print_digits fuel n [] ++ acc.
Proof.
  induction fuel as [|fuel IH]; intros n acc; simpl; [done|].
  destruct (n / 10 =? 0); [done|].
  rewrite IH, (IH _ [_]), <- app_assoc. done.
Qed.

Lemma print_digits_isdigit fuel : ∀ n acc,
  0 ≤ n → Forall (λ c, isdigit c = true) acc →
  Forall (λ c, isdigit c = true) (print_digits fuel n acc).
Proof.
  induction fuel as [|fuel IH]; intros n acc Hn Hacc; simpl; [done|].
  assert (isdigit (digit (n mod 10)) = true) as Hd
    by (apply isdigit_digit, Z.mod_pos_bound; lia).
  destruct (n / 10 =? 0); [by constructor|].
  apply IH; [apply Z.div_pos; lia|by constructor].
Qed.

Lemma print_nat_cons n :
  0 ≤ n → ∃ c l, print_nat n = c :: l ∧ isdigit c = true.
Proof.
  intros Hn. pose proof (print_digits_isdigit (S (Z.to_nat (Z.log2 n))) n []
                           Hn (Forall_nil_2 _)) as Hall.
  fold (print_nat n) in Hall.
  destruct (print_nat n) as [|c l] eqn:E.
  - unfold print_nat in E. simpl in E. destruct (n / 10 =? 0); [done|].
    rewrite print_digits_app in E. by destruct (print_digits _ _ []).
  - apply Forall_cons in Hall as [Hc _]. by exists c, l.
Qed.

Lemma scan_print_digits fuel : ∀ n,
  0 ≤ n < 2 ^ Z.of_nat fuel →
  ∃ B, ∀ A acc,
    scan_digits (print_digits fuel n acc) A = scan_digits acc (A * B + n).
Proof.
  induction fuel as [|fuel IH]; intros n Hn.
  - exists 1. intros A acc. simpl in *. f_equal. lia.
  - simpl print_digits.
    assert (0 ≤ n mod 10 < 10) as Hmod by (apply Z.mod_pos_bound; lia).
    pose proof (Z.div_mod n 10 ltac:(lia)) as Hdm.
    destruct (Z.eqb_spec (n / 10) 0) as [Hz|Hnz].
    + exists 10. intros A acc. simpl.
      rewrite isdigit_digit, digit_val_digit by done. f_equal. lia.
    + destruct (IH (n / 10)) as [B HB].
      { split; [apply Z.div_pos; lia|].
        apply Z.div_lt_upper_bound; [lia|].
        rewrite Nat2Z.inj_succ, Z.pow_succ_r in Hn by lia. lia. }
      exists (B * 10). intros A acc. rewrite HB. simpl.
      rewrite isdigit_digit, digit_val_digit by done. f_equal. lia.
Qed.

Lemma scan_digits_stop n rest :
  (rest = [] ∨ ∃ c r, rest = c :: r ∧ isdigit c = false) →
  scan_digits rest n = (n, rest).
Proof. intros [->|(c & r & -> & Hc)]; simpl; [done|]. by rewrite Hc. Qed.

Lemma scan_print_nat n rest :
  0 ≤ n →
  (rest = [] ∨ ∃ c r, rest = c :: r ∧ isdigit c = false) →
  scan_digits (print_nat n ++ rest) 0 = (n, rest).
Proof.
  intros Hn Hrest. unfold print_nat. rewrite <- print_digits_app.
  destruct (scan_print_digits (S (Z.to_nat (Z.log2 n))) n) as [B HB].
  { split; [done|]. destruct (Z.eq_dec n 0) as [->|?]; [done|].
    rewrite Nat2Z.inj_succ, Z2Nat.id by apply Z.log2_nonneg.
    apply Z.log2_spec. lia. }
  rewrite HB. simpl. by apply scan_digits_stop.
Qed.

Lemma skip_ws_app ws l :
  Forall (λ c, isspace c = true) ws → skip_ws (ws ++ l) = skip_ws l.
Proof. induction 1 as [|c ws Hc _ IH]; simpl; [done|]. by rewrite Hc. Qed.

Lemma isdigit_not_space c : isdigit c = true → isspace c = false.
Proof.
  unfold isdigit, isspace. intros [H1 H2]%andb_prop.
  apply N.leb_le in H1, H2. apply orb_false_intro.
  - apply N.eqb_neq. lia.
  - apply andb_false_intro2. apply N.leb_gt. lia.
Qed.

Lemma isdigit_not_sign c :
  isdigit c = true → Ascii.eqb c "-" = false ∧ Ascii.eqb c "+" = false.
Proof.
  unfold isdigit. intros [H1 H2]%andb_prop. apply N.leb_le in H1, H2.
  split; apply Ascii.eqb_neq; intros ->; unfold code in *; simpl in *; lia.
Qed.

Arguments scan_digits : simpl never.

Lemma stored_int_fits z : INT_MIN ≤ z ≤ INT_MAX → stored_int z = z.
Proof.
  intros Hz. unfold stored_int.
  rewrite Z.min_r, Z.max_r
    by (unfold INT_MIN, INT_MAX, LONG_MIN, LONG_MAX in *; lia).
  by apply int_wrap_fits.
Qed.

(** Reading back an [int] written with "%d". *)
Lemma scan_int_print ws z rest :
  INT_MIN ≤ z ≤ INT_MAX →
  Forall (λ c, isspace c = true) ws →
  (rest = [] ∨ ∃ c r, rest = c :: r ∧ isdigit c = false) →
  scan_int (ws ++ print_int z ++ rest) = (Some z, rest).
Proof.
  intros Hz Hws Hrest. unfold scan_int, scan_number, print_int.
  rewrite skip_ws_app by done.
  destruct (Z.ltb_spec z 0) as [Hneg|Hpos].
  - destruct (print_nat_cons (- z)) as (c & l & E & Hc); [lia|].
    simpl. rewrite E. simpl. rewrite Hc.
    change (c :: l ++ rest) with ((c :: l) ++ rest). rewrite <- E.
    rewrite scan_print_nat by (done || lia).
    by rewrite Z.opp_involutive, stored_int_fits.
  - destruct (print_nat_cons z) as (c & l & E & Hc); [lia|].
    rewrite E. simpl. rewrite (isdigit_not_space c Hc).
    destruct (isdigit_not_sign c Hc) as [-> ->]. rewrite Hc.
    change (c :: l ++ rest) with ((c :: l) ++ rest). rewrite <- E.
    by rewrite scan_print_nat, stored_int_fits.
Qed.

(** ** Reading back a saved index *)

Lemma foldl_app_concat {A} (f : A → list ascii) (l : list A) : ∀ s,
  foldl (λ s x, s ++ f x) s l = s ++ concat (map f l).
Proof.
  induction l as [|x l IH]; intros s; simpl; [by rewrite app_nil_r|].
  by rewrite IH, <- app_assoc.
Qed.

Lemma save_index_word_render h w l fp :
  save_index_word h w l fp
  = fp ++ render_line (w, map_to_list (default ∅ (h !! l))).
Proof.
  unfold save_index_word, render_line, counters_iterate, deref. simpl.
  destruct (h !! l) as [c|]; simpl.
  - unfold save_index_counts.
    rewrite (foldl_app_concat render_pair), <- !app_assoc. done.
  - by rewrite map_to_list_empty, <- !app_assoc.
Qed.

Lemma index_save_render index h fp :
  index_save index h fp = fp ++ render_index (saved_lines index h).
Proof.
  unfold index_save, hashtable_iterate, render_index, saved_lines.
  generalize (map_to_list index). intros l. revert fp.
  induction l as [|[w loc] l IH]; intros fp; simpl; [by rewrite app_nil_r|].
  by rewrite IH, save_index_word_render, <- app_assoc.
Qed.

Lemma islower_facts c :
  islower c = true →
  isspace c = false ∧ isdigit c = false ∧ c ≠ NUL ∧
  Ascii.eqb c "-" = false ∧ Ascii.eqb c "+" = false.
Proof.
  unfold islower, isspace, isdigit. intros [H1 H2]%andb_prop.
  apply N.leb_le in H1, H2. repeat split.
  - apply orb_false_intro; [apply N.eqb_neq; lia|].
    apply andb_false_intro2, N.leb_gt. lia.
  - apply andb_false_intro2, N.leb_gt. lia.
  - intros ->. unfold code in *. simpl in *. lia.
  - apply Ascii.eqb_neq. intros ->. unfold code in *. simpl in *. lia.
  - apply Ascii.eqb_neq. intros ->. unfold code in *. simpl in *. lia.
Qed.

Lemma scan_int_at_line_start ws fp :
  Forall (λ c, isspace c = true) ws → at_line_start fp →
  scan_int (ws ++ fp) = (None, fp).
Proof.
  intros Hws Hfp. unfold scan_int, scan_number. rewrite skip_ws_app by done.
  destruct Hfp as [->|(c & r & -> & Hc)]; [done|].
  destruct (islower_facts c Hc) as (Hsp & Hd & _ & Hm & Hp).
  simpl. by rewrite Hsp, Hm, Hp, Hd.
Qed.

Lemma skip_ws_idem l : skip_ws (skip_ws l) = skip_ws l.
Proof.
  induction l as [|c l IH]; simpl; [done|].
  destruct (isspace c) eqn:E; [done|]. simpl. by rewrite E.
Qed.

Lemma scan_int_skip_ws l : scan_int (skip_ws l) = scan_int l.
Proof. unfold scan_int. by rewrite skip_ws_idem. Qed.

Lemma render_pairs_length (ps : list (Z * Z)) :
  (length ps ≤ length (concat (map render_pair ps)))%nat.
Proof.
  induction ps as [|p ps IH]; simpl; [lia|].
  rewrite length_app. simpl. lia.
Qed.

Arguments scan_int : simpl never.
Arguments print_int : simpl never.
Arguments skip_ws : simpl never.
Arguments render_pair : simpl never.
Arguments index_set : simpl never.

Lemma newline_isspace : Forall (λ c, isspace c = true) ["010"%char].
Proof. by constructor. Qed.

Lemma blank_isspace : Forall (λ c, isspace c = true) [" "%char].
Proof. by constructor. Qed.

Lemma isspace_not_digit c : isspace c = true → isdigit c = false.
Proof.
  intros Hc. destruct (isdigit c) eqn:E; [|done].
  apply isdigit_not_space in E. congruence.
Qed.

(** The inner loop reads the pairs written, up to white space that is
    followed by something other than a number; a document number that has
    no count is read and dropped. *)
Lemma load_pairs_render word (ps : list (Z * Z)) dangling sep :
  ∀ fuel rest index h,
  forallb (λ p, is_int p.1 && is_int p.2) ps = true →
  (∀ d, dangling = Some d → is_int d = true) →
  isspace sep = true → at_line_start rest →
  (length ps < fuel)%nat →
  load_pairs fuel word
    (concat (map render_pair ps)
       ++ match dangling with
          | Some d => " "%char :: print_int d
          | None => []
          end ++ sep :: rest)
    index h
  = (set_pairs word ps (index, h), rest).
Proof.
  intros fuel rest index h Hints Hdang Hsep Hrest. revert fuel index h.
  assert (Forall (λ c, isspace c = true) [sep]) as Hseps by (by constructor).
  induction ps as [|[d n] ps IH]; intros fuel index h Hfuel;
    (destruct fuel as [|fuel]; [simpl in Hfuel; lia|]); simpl.
  - destruct dangling as [d|]; simpl.
    + specialize (Hdang d eq_refl). apply is_int_spec in Hdang.
      change (" "%char :: print_int d ++ sep :: rest)
        with ([" "%char] ++ print_int d ++ sep :: rest).
      rewrite (scan_int_print _ d _ Hdang blank_isspace)
        by (right; eexists _, _; split; [done|by apply isspace_not_digit]).
      rewrite scan_int_skip_ws.
      change (sep :: rest) with ([sep] ++ rest).
      by rewrite (scan_int_at_line_start _ _ Hseps Hrest).
    + change (sep :: rest) with ([sep] ++ rest).
      by rewrite (scan_int_at_line_start _ _ Hseps Hrest).
  - simpl in Hints. apply andb_prop in Hints as [Hdn Hints].
    apply andb_prop in Hdn as [Hd Hn]. apply is_int_spec in Hd, Hn.
    unfold render_pair at 1. simpl.
    rewrite <- ?app_assoc. simpl. rewrite <- ?app_assoc.
    change (" "%char :: print_int d ++ ?l)
      with ([" "%char] ++ print_int d ++ l).
    rewrite (scan_int_print _ d _ Hd blank_isspace)
      by (right; by eexists _, _).
    rewrite scan_int_skip_ws.
    change (" "%char :: print_int n ++ ?l)
      with ([" "%char] ++ print_int n ++ l).
    rewrite (scan_int_print _ n _ Hn blank_isspace).
    + destruct (index_set index word d n h) as [index' h'] eqn:E.
      rewrite IH by (done || (simpl in Hfuel; lia)).
      done.
    + right. destruct ps as [|p ps]; simpl; [|by eexists _, _].
      destruct dangling; simpl; eexists _, _; split; try done.
      by apply isspace_not_digit.
Qed.

Lemma length_list_ascii_of_string w :
  length (list_ascii_of_string w) = String.length w.
Proof. induction w as [|c w IH]; simpl; [done|]. by rewrite IH. Qed.

Lemma normalized_word_chars w :
  normalized_word w = true →
  ∃ c l, list_ascii_of_string w = c :: l ∧
         Forall (λ c, islower c = true) (c :: l).
Proof.
  unfold normalized_word. destruct (list_ascii_of_string w) as [|c l]; [done|].
  intros H. exists c, l. split; [done|].
  apply Forall_forall. intros x Hx. apply list_elem_of_In in Hx.
  by eapply forallb_forall in H.
Qed.

Lemma line_ok_spec line :
  line_ok line = true →
  normalized_word line.1 = true ∧ word_fits line.1 = true ∧
  forallb (λ p, is_int p.1 && is_int p.2) line.2 = true.
Proof.
  unfold line_ok. intros [[? ?]%andb_prop ?]%andb_prop. done.
Qed.

Lemma render_index_at_line_start lines rest :
  Forall (λ line, line_ok line = true) lines →
  at_line_start rest →
  at_line_start (render_index lines ++ rest).
Proof.
  intros [|[w ps] lines' Hw _] Hrest; [done|]. right.
  apply line_ok_spec in Hw as (Hw & _).
  destruct (normalized_word_chars w Hw) as (c & l & E & [Hc _]%Forall_cons).
  unfold render_index, render_line. simpl. rewrite E. simpl. by eexists _, _.
Qed.

Lemma scan_nonspace_app w r :
  Forall (λ c, isspace c = false) w →
  (∃ c r', r = c :: r' ∧ isspace c = true) →
  scan_nonspace (w ++ r) = (w, r).
Proof.
  intros Hw (c & r' & -> & Hc). induction Hw as [|x w Hx _ IH]; simpl.
  - by rewrite Hc.
  - by rewrite Hx, IH.
Qed.

Lemma cstring_nul_free l : Forall (λ c, c ≠ NUL) l → cstring l = l.
Proof.
  intros H. rewrite <- (app_nil_r l) at 1. apply cstring_word; auto.
Qed.

Lemma scan_word_normalized w r :
  normalized_word w = true →
  (∃ c r', r = c :: r' ∧ isspace c = true) →
  scan_word (list_ascii_of_string w ++ r)
  = (Some (list_ascii_of_string w), r) ∧
  string_of_list_ascii (cstring (list_ascii_of_string w)) = w.
Proof.
  intros Hw Hr. destruct (normalized_word_chars w Hw) as (c & l & E & Hall).
  assert (Forall (λ c, isspace c = false) (c :: l)) as Hns.
  { eapply Forall_impl; [exact Hall|]. intros x Hx.
    by destruct (islower_facts x Hx). }
  assert (Forall (λ c, c ≠ NUL) (c :: l)) as Hnn.
  { eapply Forall_impl; [exact Hall|]. intros x Hx.
    by destruct (islower_facts x Hx) as (_ & _ & ? & _). }
  split.
  - unfold scan_word. rewrite E in *.
    apply Forall_cons in Hns as [Hc Hl].
    change ((c :: l) ++ r) with (c :: (l ++ r)).
    unfold skip_ws. rewrite Hc. fold skip_ws.
    change (c :: (l ++ r)) with ((c :: l) ++ r).
    rewrite scan_nonspace_app; [done|by constructor|done].
  - rewrite E, cstring_nul_free by done. rewrite <- E.
    apply string_of_list_ascii_of_string.
Qed.

Lemma load_words_S fuel fp index h :
  load_words (S fuel) fp index h
  = match scan_word fp with
    | (Some w, fp1) =>
        if (256 <=? length w)%nat then LoadOverrun
        else
          let '(index, h, fp2) :=
            load_pairs (S (length fp1)) (string_of_list_ascii (cstring w))
              fp1 index h in
          load_words fuel fp2 index h
    | (None, _) => Loaded index h
    end.
Proof. done. Qed.

(** One pass of the outer loop, on a line that breaks off: the pairs of
    the word are installed, and the next pass starts behind the white
    space. *)
Lemma load_words_broken_line w ps dangling sep rest fuel index h :
  line_ok (w, ps) = true →
  (∀ d, dangling = Some d → is_int d = true) →
  isspace sep = true → at_line_start rest →
  load_words (S fuel) (render_broken (w, ps) dangling ++ sep :: rest) index h
  = load_words fuel rest
      (set_pairs w ps (index, h)).1 (set_pairs w ps (index, h)).2.
Proof.
  intros (Hnorm & Hfits & Hints)%line_ok_spec Hdang Hsep Hrest.
  simpl in Hnorm, Hfits, Hints.
  unfold render_broken. cbn [fst snd]. rewrite <- !app_assoc.
  rewrite load_words_S.
  destruct (scan_word_normalized w
              (concat (map render_pair ps)
                 ++ match dangling with
                    | Some d => " "%char :: print_int d
                    | None => []
                    end ++ sep :: rest) Hnorm) as [Hscan Hstr].
  { destruct ps as [|p ps]; simpl; [|by eexists _, _].
    destruct dangling; simpl; by eexists _, _. }
  rewrite Hscan, length_list_ascii_of_string.
  unfold word_fits in Hfits. apply Nat.ltb_lt in Hfits.
  destruct (Nat.leb_spec 256 (String.length w)) as [?|_]; [lia|].
  rewrite Hstr, load_pairs_render; [|done..|].
  - by destruct (set_pairs w ps (index, h)).
  - pose proof (render_pairs_length ps). rewrite length_app. lia.
Qed.

(** Reading lines that were written as the format has them installs their
    triples, in order, before the rest of the file is read. *)
Lemma load_words_render lines rest : ∀ fuel index h,
  Forall (λ line, line_ok line = true) lines →
  at_line_start rest →
  load_words (length lines + fuel) (render_index lines ++ rest) index h
  = load_words fuel rest
      (set_lines lines (index, h)).1 (set_lines lines (index, h)).2.
Proof.
  induction lines as [|[w ps] lines IH]; intros fuel index h Hok Hrest;
    [done|].
  apply Forall_cons in Hok as [Hw Hok].
  unfold render_index. simpl concat. fold (render_index lines).
  assert (render_line (w, ps) = render_broken (w, ps) None ++ ["010"%char])
    as -> by (unfold render_line, render_broken;
              by rewrite app_nil_r, app_assoc).
  rewrite <- !app_assoc.
  change (length ((w, ps) :: lines) + fuel)%nat
    with (S (length lines + fuel)).
  change (["010"%char] ++ render_index lines ++ rest)
    with ("010"%char :: render_index lines ++ rest).
  rewrite load_words_broken_line;
    [|done|done|done|by apply render_index_at_line_start].
  change (set_lines ((w, ps) :: lines) (index, h))
    with (set_lines lines (set_pairs w ps (index, h))).
  destruct (set_pairs w ps (index, h)) as [index' h'].
  by rewrite IH.
Qed.

Lemma render_index_length lines :
  (length lines ≤ length (render_index lines))%nat.
Proof.
  induction lines as [|l lines IH]; simpl; [lia|].
  unfold render_index in *. simpl. rewrite length_app.
  unfold render_line at 1. rewrite !length_app. simpl. lia.
Qed.

(** ** The number of lines and the slots of the table *)

Lemma file_numLines_pos fp : 0 < file_numLines fp ↔ "010"%char ∈ fp.
Proof.
  unfold file_numLines. induction fp as [|c fp IH]; cbn [List.filter].
  - split; [simpl; lia|]. by intros ?%elem_of_nil.
  - rewrite elem_of_cons. destruct (Ascii.eqb_spec "010"%char c) as [<-|Hne].
    + cbn [length]. split; [by left|lia].
    + rewrite IH. split; [by right|]. by intros [?|?].
Qed.

Lemma hashtable_new_None num_slots :
  hashtable_new num_slots = None ↔ num_slots ≤ 0.
Proof.
  unfold hashtable_new. destruct (Z.ltb_spec 0 num_slots); split; (done || lia).
Qed.

Lemma index_new_empty num_slots : index_new num_slots = ∅.
Proof. unfold index_new, hashtable_new. by destruct (0 <? num_slots). Qed.

(** [index_load] of a file with a newline character is the outer loop on
    an empty index. *)
Lemma index_load_lines fp h :
  "010"%char ∈ fp →
  index_load (Some fp) h = load_words (S (length fp)) fp ∅ h.
Proof.
  intros Hnl%file_numLines_pos. unfold index_load.
  rewrite index_new_empty.
  destruct (hashtable_new (file_numLines fp)) eqn:E; [done|].
  apply hashtable_new_None in E. lia.
Qed.

Lemma index_load_Loaded fp h index h' :
  index_load (Some fp) h = Loaded index h' →
  load_words (S (length fp)) fp ∅ h = Loaded index h'.
Proof.
  unfold index_load. rewrite index_new_empty.
  by destruct (hashtable_new (file_numLines fp)).
Qed.

Lemma render_index_newline lines :
  lines ≠ [] → "010"%char ∈ render_index lines.
Proof.
  destruct lines as [|[w ps] lines]; [done|]. intros _.
  unfold render_index. simpl. unfold render_line at 1. simpl.
  rewrite !elem_of_app. left. right. right. by left.
Qed.

(** ** The index as a mapping from words to DocCounts *)

Lemma index_view_lookup index h w :
  index_view index h !! w = index !! w ≫= (h !!.).
Proof. unfold index_view. by rewrite lookup_omap. Qed.

Lemma find_get_view index h w d :
  find_get index h w d = default 0 (index_view index h !! w ≫= (.!! d)).
Proof.
  unfold find_get, counters_get, index_find, deref.
  rewrite index_view_lookup. destruct (index !! w) as [l|]; [|done]. simpl.
  by destruct (h !! l).
Qed.

Lemma index_update_view f index w h :
  index_wf index h →
  index_wf (index_update f index w h).1 (index_update f index w h).2 ∧
  index_view (index_update f index w h).1 (index_update f index w h).2
  = <[w := f (default ∅ (index_view index h !! w))]> (index_view index h).
Proof.
  intros [Halloc Hinj]. unfold index_update.
  destruct (index !! w) as [l|] eqn:Ew; simpl.
  - destruct (Halloc _ _ Ew) as [c Hc]. split; [split; [|done]|].
    + intros w' l' Hw'. rewrite lookup_alter_is_Some. by eapply Halloc.
    + apply map_eq. intros w'. rewrite !index_view_lookup.
      destruct (decide (w = w')) as [<-|Hne].
      * rewrite lookup_insert_eq, Ew. simpl.
        by rewrite lookup_alter_eq, Hc.
      * rewrite lookup_insert_ne, index_view_lookup by done.
        destruct (index !! w') as [l'|] eqn:Ew'; [|done]. simpl.
        rewrite lookup_alter_ne; [done|]. intros <-. eauto.
  - pose proof (fresh_not_alloc h) as Hfresh.
    set (l := fresh (dom h)) in *. rewrite alter_insert_eq.
    assert (∀ w' l', index !! w' = Some l' → l' ≠ l) as Hother.
    { intros w' l' Hw' ->. destruct (Halloc _ _ Hw'). congruence. }
    split; [split|].
    + intros w' l'. rewrite lookup_insert_Some.
      intros [[<- <-]|[Hne Hw']]; [by rewrite lookup_insert_eq|].
      rewrite lookup_insert_ne by (by eapply not_eq_sym, Hother).
      by eapply Halloc.
    + intros w1 w2 l'. rewrite !lookup_insert_Some.
      intros [[<- <-]|[Hne1 H1]] [[<- E2]|[Hne2 H2]]; try done.
      * by apply Hother in H2.
      * subst. by apply Hother in H1.
      * eauto.
    + apply map_eq. intros w'. rewrite !index_view_lookup.
      destruct (decide (w = w')) as [<-|Hne].
      * rewrite !lookup_insert_eq, Ew. simpl.
        by rewrite lookup_insert_eq.
      * rewrite !lookup_insert_ne, index_view_lookup by done.
        destruct (index !! w') as [l'|] eqn:Ew'; [|done]. simpl.
        rewrite lookup_insert_ne; [done|]. apply not_eq_sym. eauto.
Qed.

Lemma index_set_update index w d c h :
  index_set index w d c h
  = if (d <? 0) || (c <? 0) then (index, h)
    else index_update (<[d := c]>) index w h.
Proof.
  unfold index_set, index_update. destruct ((d <? 0) || (c <? 0)); [done|].
  by destruct (index !! w).
Qed.

Lemma index_insert_update index w d h :
  index_insert index w d h
  = if d <? 0 then (index, h) else index_update (increment d) index w h.
Proof.
  unfold index_insert, index_update. destruct (d <? 0); [done|].
  by destruct (index !! w).
Qed.

Lemma index_set_view index w d c h :
  index_wf index h →
  index_wf (index_set index w d c h).1 (index_set index w d c h).2 ∧
  index_view (index_set index w d c h).1 (index_set index w d c h).2
  = install (index_view index h) w (d, c).
Proof.
  intros Hwf. rewrite index_set_update. unfold install. simpl.
  destruct ((d <? 0) || (c <? 0)); [done|]. by apply index_update_view.
Qed.

Lemma set_pairs_view w ps : ∀ index h,
  index_wf index h →
  index_wf (set_pairs w ps (index, h)).1 (set_pairs w ps (index, h)).2 ∧
  index_view (set_pairs w ps (index, h)).1 (set_pairs w ps (index, h)).2
  = install_line (index_view index h) (w, ps).
Proof.
  induction ps as [|[d c] ps IH]; intros index h Hwf; [done|].
  unfold set_pairs, install_line in *. simpl.
  destruct (index_set_view index w d c h Hwf) as [Hwf' Hview].
  destruct (index_set index w d c h) as [index' h']. simpl in *.
  rewrite <- Hview. by apply IH.
Qed.

Lemma set_lines_view lines : ∀ index h,
  index_wf index h →
  index_wf (set_lines lines (index, h)).1 (set_lines lines (index, h)).2 ∧
  index_view (set_lines lines (index, h)).1 (set_lines lines (index, h)).2
  = foldl install_line (index_view index h) lines.
Proof.
  induction lines as [|[w ps] lines IH]; intros index h Hwf; [done|].
  unfold set_lines in *. simpl.
  destruct (set_pairs_view w ps index h Hwf) as [Hwf' Hview].
  destruct (set_pairs w ps (index, h)) as [index' h']. simpl in *.
  rewrite <- Hview. by apply IH.
Qed.

Lemma index_wf_empty h : index_wf ∅ h.
Proof. split; [apply map_Forall_empty|]. intros w1 w2 l. by rewrite lookup_empty. Qed.

Lemma index_view_empty h : index_view ∅ h = ∅.
Proof. unfold index_view. apply omap_empty. Qed.

(** Loading a file of well-formed lines installs its triples in order. *)
Lemma index_load_render lines h :
  lines ≠ [] →
  Forall (λ line, line_ok line = true) lines →
  ∃ index' h',
    index_load (Some (render_index lines)) h = Loaded index' h' ∧
    index_wf index' h' ∧
    index_view index' h' = foldl install_line ∅ lines.
Proof.
  intros Hne Hok. rewrite index_load_lines by (by apply render_index_newline).
  pose proof (render_index_length lines) as Hlen.
  replace (S (length (render_index lines)))
    with (length lines + S (length (render_index lines) - length lines))%nat
    by lia.
  pose proof (load_words_render lines []
                (S (length (render_index lines) - length lines)) ∅ h Hok
                (or_introl eq_refl)) as Hload.
  rewrite app_nil_r in Hload. rewrite Hload.
  destruct (set_lines_view lines ∅ h (index_wf_empty h)) as [Hwf Hview].
  rewrite index_view_empty in Hview. by eexists _, _.
Qed.

(** ** What a saved index holds when it is read back *)

Lemma install_line_nonneg w (ps : list (Z * Z)) : ∀ v,
  Forall (λ p, 0 ≤ p.1 ∧ 0 ≤ p.2) ps →
  install_line v (w, ps)
  = match ps with
    | [] => v
    | _ => <[w := foldl (λ c p, <[p.1 := p.2]> c) (default ∅ (v !! w)) ps]> v
    end.
Proof.
  induction ps as [|[d n] ps IH]; intros v Hps; [done|].
  apply Forall_cons in Hps as [[Hd Hn] Hps]. simpl in Hd, Hn.
  unfold install_line in *. simpl. unfold install at 2. simpl.
  destruct (Z.ltb_spec d 0); [lia|]. destruct (Z.ltb_spec n 0); [lia|]. simpl.
  rewrite IH by done. destruct ps as [|p ps]; [done|].
  by rewrite lookup_insert_eq, insert_insert_eq.
Qed.

Lemma foldl_insert_map_to_list (c : counters_t) :
  foldl (λ m p, <[p.1 := p.2]> m) ∅ (map_to_list c) = c.
Proof.
  apply map_eq. intros d.
  rewrite (fold_insert_lookup (λ _ n, n)) by apply NoDup_fst_map_to_list.
  rewrite list_to_map_to_list, lookup_empty. by destruct (c !! d).
Qed.

Lemma install_saved_line v w (c : counters_t) :
  v !! w = None →
  (∀ d n, c !! d = Some n → 0 ≤ d ∧ 0 ≤ n) →
  install_line v (w, map_to_list c)
  = if decide (c = ∅) then v else <[w := c]> v.
Proof.
  intros Hv Hc. rewrite install_line_nonneg.
  - rewrite Hv. simpl. destruct (decide (c = ∅)) as [->|Hne].
    + by rewrite map_to_list_empty.
    + rewrite foldl_insert_map_to_list.
      destruct (map_to_list c) eqn:E; [|done].
      by apply map_to_list_empty_iff in E.
  - apply Forall_forall. intros [d n] Hin%elem_of_map_to_list. by apply Hc.
Qed.

Lemma install_saved_lines (h : heap) (l : list (string * loc)) : ∀ v w,
  NoDup l.*1 →
  (∀ kv, kv ∈ l → v !! kv.1 = None) →
  (∀ kv d n, kv ∈ l → default ∅ (h !! kv.2) !! d = Some n → 0 ≤ d ∧ 0 ≤ n) →
  foldl install_line v
    ((λ kv, (kv.1, map_to_list (default ∅ (h !! kv.2)))) <$> l) !! w
  = match (list_to_map l : index_t) !! w with
    | Some loc =>
        if decide (default ∅ (h !! loc) = ∅) then None
        else Some (default ∅ (h !! loc))
    | None => v !! w
    end.
Proof.
  induction l as [|[w0 l0] l IH]; intros v w Hnd Hv Hnn; simpl.
  - by rewrite lookup_empty.
  - apply NoDup_cons in Hnd as [Hw0 Hnd].
    rewrite install_saved_line;
      [|by apply (Hv (w0, l0)); left
       |intros d n; by apply (Hnn (w0, l0)); left].
    rewrite IH; [| done | | ].
    + destruct (decide (w0 = w)) as [<-|Hne].
      * rewrite lookup_insert_eq.
        rewrite (not_elem_of_list_to_map_1 (M := gmap string)) by done.
        destruct (decide (default ∅ (h !! l0) = ∅)).
        -- by apply (Hv (w0, l0)); left.
        -- by rewrite lookup_insert_eq.
      * rewrite lookup_insert_ne by done.
        destruct (list_to_map l !! w); [done|].
        destruct (decide (default ∅ (h !! l0) = ∅)); [done|].
        by rewrite lookup_insert_ne.
    + intros kv Hkv.
      assert (kv.1 ≠ w0) as Hne.
      { intros <-. apply Hw0. apply list_elem_of_fmap. by exists kv. }
      destruct (decide (default ∅ (h !! l0) = ∅)).
      * apply Hv. by right.
      * rewrite lookup_insert_ne by done. apply Hv. by right.
    + intros kv d n Hkv. apply Hnn. by right.
Qed.

(** The counts found after a save and a load are the counts saved. *)
Lemma saved_index_find_get index h index' h' :
  index_wf index h → index_nonneg index h →
  index_view index' h' = foldl install_line ∅ (saved_lines index h) →
  ∀ w d, find_get index' h' w d = find_get index h w d.
Proof.
  intros [Halloc _] Hnn Hview w d. rewrite !find_get_view, Hview.
  unfold saved_lines.
  rewrite (install_saved_lines h (map_to_list index) ∅ w).
  - rewrite list_to_map_to_list, lookup_empty, index_view_lookup.
    destruct (index !! w) as [l|] eqn:Ew; [|done]. simpl.
    destruct (Halloc _ _ Ew) as [c Hc]. rewrite Hc. simpl.
    destruct (decide (c = ∅)) as [->|]; [|done]. by rewrite lookup_empty.
  - apply NoDup_fst_map_to_list.
  - intros kv _. apply lookup_empty.
  - intros [w' l'] d' n' Hin%elem_of_map_to_list Hd'. simpl in *.
    destruct (Halloc _ _ Hin) as [c Hc]. rewrite Hc in Hd'. simpl in Hd'.
    apply (Hnn w' c d' n'); [|done].
    by rewrite index_view_lookup, Hin.
Qed.

(** ** The index that [index_insert] builds *)

Lemma index_insert_invariant (P : string → Prop) index h w d :
  P w →
  index_wf index h → index_nonneg index h →
  (∀ w', is_Some (index !! w') → P w') →
  index_wf (index_insert index w d h).1 (index_insert index w d h).2 ∧
  index_nonneg (index_insert index w d h).1 (index_insert index w d h).2 ∧
  (∀ w', is_Some ((index_insert index w d h).1 !! w') → P w').
Proof.
  intros HP Hwf Hnn Hwords. rewrite index_insert_update.
  destruct (Z.ltb_spec d 0) as [?|Hd]; [done|].
  destruct (index_update_view (increment d) index w h Hwf) as [Hwf' Hview].
  split; [done|]. split.
  - intros w' c d' n. rewrite Hview.
    destruct (decide (w = w')) as [<-|Hne].
    + rewrite lookup_insert_eq. intros [= <-]. unfold increment.
      destruct (decide (d = d')) as [<-|Hned].
      * rewrite lookup_insert_eq. intros [= <-]. split; [done|].
        destruct (index_view index h !! w) as [c|] eqn:Ec; simpl;
          [|by rewrite lookup_empty].
        destruct (c !! d) as [n|] eqn:En; [|lia].
        destruct (Hnn w c d n Ec En). lia.
      * rewrite lookup_insert_ne by done.
        destruct (index_view index h !! w) as [c|] eqn:Ec; simpl; [|done].
        by apply (Hnn w c).
    + rewrite lookup_insert_ne by done. by apply Hnn.
  - intros w'. unfold index_update.
    destruct (index !! w) as [l|] eqn:Ew; simpl; [by apply Hwords|].
    rewrite lookup_insert_is_Some. intros [<-|[_ H]]; [done|by apply Hwords].
Qed.

Lemma index_build_invariant (P : string → Prop) inserts : ∀ index h,
  Forall (λ wd, P wd.1) inserts →
  index_wf index h → index_nonneg index h →
  (∀ w', is_Some (index !! w') → P w') →
  let st := foldl (λ st wd, index_insert st.1 wd.1 wd.2 st.2) (index, h) inserts in
  index_wf st.1 st.2 ∧ index_nonneg st.1 st.2 ∧
  (∀ w', is_Some (st.1 !! w') → P w').
Proof.
  induction inserts as [|[w d] inserts IH]; intros index h HP Hwf Hnn Hwords;
    [done|].
  apply Forall_cons in HP as [HPw HP]. simpl in *.
  destruct (index_insert_invariant P index h w d HPw Hwf Hnn Hwords)
    as (Hwf' & Hnn' & Hwords').
  destruct (index_insert index w d h) as [index' h']. by apply IH.
Qed.

Lemma index_insert_bounded B index h w d :
  index_wf index h → d ≤ INT_MAX → 0 ≤ B →
  index_bounded B index h →
  index_bounded (B + 1)
    (index_insert index w d h).1 (index_insert index w d h).2.
Proof.
  intros Hwf Hd HB Hbd. rewrite index_insert_update.
  destruct (Z.ltb_spec d 0) as [?|_].
  { intros w' c d' n Hc Hn. destruct (Hbd w' c d' n Hc Hn). simpl in *. lia. }
  destruct (index_update_view (increment d) index w h Hwf) as [_ Hview].
  intros w' c d' n. rewrite Hview.
  destruct (decide (w = w')) as [<-|Hne].
  - rewrite lookup_insert_eq. intros [= <-]. unfold increment.
    destruct (decide (d = d')) as [<-|Hned].
    + rewrite lookup_insert_eq. intros [= <-]. split; [done|].
      destruct (index_view index h !! w) as [c|] eqn:Ec; simpl;
        [|rewrite lookup_empty; lia].
      destruct (c !! d) as [n|] eqn:En; [|lia].
      destruct (Hbd w c d n Ec En). lia.
    + rewrite lookup_insert_ne by done.
      destruct (index_view index h !! w) as [c|] eqn:Ec; simpl; [|done].
      intros Hn. destruct (Hbd w c d' n Ec Hn). lia.
  - rewrite lookup_insert_ne by done. intros Hc Hn.
    destruct (Hbd w' c d' n Hc Hn). lia.
Qed.

Lemma index_build_bounded inserts : ∀ B index h,
  Forall (λ wd : string * Z, wd.2 ≤ INT_MAX) inserts →
  index_wf index h → 0 ≤ B → index_bounded B index h →
  let st := foldl (λ st wd, index_insert st.1 wd.1 wd.2 st.2) (index, h) inserts in
  index_bounded (B + Z.of_nat (length inserts)) st.1 st.2.
Proof.
  induction inserts as [|[w d] inserts IH]; intros B index h Hd Hwf HB Hbd.
  - simpl. by rewrite Z.add_0_r.
  - apply Forall_cons in Hd as [Hdw Hd]. simpl in Hdw.
    pose proof (index_insert_bounded B index h w d Hwf Hdw HB Hbd) as Hbd'.
    assert (index_wf (index_insert index w d h).1 (index_insert index w d h).2)
      as Hwf'.
    { rewrite index_insert_update. destruct (d <? 0); [done|].
      by apply index_update_view. }
    cbn [foldl length]. cbn [fst snd].
    destruct (index_insert index w d h) as [index' h'].
    replace (B + Z.of_nat (S (length inserts)))
      with (B + 1 + Z.of_nat (length inserts)) by lia.
    apply IH; (done || lia).
Qed.

Lemma index_insert_nonempty index w d h :
  index ≠ ∅ ∨ 0 ≤ d → (index_insert index w d h).1 ≠ ∅.
Proof.
  intros Hne. unfold index_insert.
  destruct (Z.ltb_spec d 0) as [?|_]; [destruct Hne; [done|lia]|].
  destruct (index !! w) as [l|] eqn:E; simpl.
  - intros ->. by rewrite lookup_empty in E.
  - apply insert_non_empty.
Qed.

Lemma index_build_nonempty inserts : ∀ index h,
  index ≠ ∅ ∨ Exists (λ wd : string * Z, 0 ≤ wd.2) inserts →
  (foldl (λ st wd, index_insert st.1 wd.1 wd.2 st.2) (index, h) inserts).1 ≠ ∅.
Proof.
  induction inserts as [|[w d] inserts IH]; intros index h Hne.
  - destruct Hne as [?|Hex]; [done|]. by apply Exists_nil in Hex.
  - cbn [foldl fst snd].
    pose proof (index_insert_nonempty index w d h) as Hins.
    destruct (index_insert index w d h) as [index' h']. apply IH.
    destruct Hne as [?|[Hd|Hex]%Exists_cons]; [left|left|by right];
      apply Hins; auto.
Qed.

(** The lines saved for an index whose words and numbers pass [line_ok]. *)
Lemma saved_lines_ok (P : string → Prop) B index h :
  (∀ w, P w → normalized_word w = true ∧ word_fits w = true) →
  (∀ w, is_Some (index !! w) → P w) →
  index_wf index h → index_nonneg index h → index_bounded B index h →
  B ≤ INT_MAX →
  Forall (λ line, line_ok line = true) (saved_lines index h).
Proof.
  intros HP Hwords [Halloc _] Hnn Hbd HB.
  unfold saved_lines. apply Forall_fmap, Forall_forall.
  intros [w l] Hin%elem_of_map_to_list. unfold compose, line_ok. cbn [fst snd].
  destruct (HP w) as [-> ->]; [apply Hwords; by eexists|]. simpl.
  destruct (Halloc _ _ Hin) as [c Hc]. rewrite Hc. simpl.
  apply forallb_forall. intros [d n] Hdn%list_elem_of_In%elem_of_map_to_list.
  assert (index_view index h !! w = Some c) as Hv
    by (by rewrite index_view_lookup, Hin).
  destruct (Hnn w c d n Hv Hdn), (Hbd w c d n Hv Hdn). cbn [fst snd].
  apply andb_true_intro. split; apply is_int_spec; unfold INT_MIN; lia.
Qed.

Lemma saved_lines_nonempty index h : index ≠ ∅ → saved_lines index h ≠ [].
Proof.
  intros Hne Hnil. unfold saved_lines in Hnil.
  apply fmap_nil_inv, map_to_list_empty_iff in Hnil. done.
Qed.

(** ** Round trip of persistence *)

(** C1.  For an index built by [index_insert] calls (fewer than 2^31 of
    them, with document numbers that are [int]s) whose words are normalized
    and fit the 256-byte buffer of [index_load], and which is not empty,
    loading what [index_save] wrote gives an index with the same count for
    every word and document; loading any file of such lines installs its
    triples with [index_set], a later count for the same word and document
    replacing the earlier one.  For the empty index the round trip breaks:
    the file has no line, [index_new] is asked for 0 slots, and
    [index_load] ends the process.  For a normalized word of 256 letters
    [index_load] stores the terminating NUL behind its buffer, which C
    leaves undefined: no result is claimed for it. *)
Theorem index_round_trip :
  (∀ inserts h0 h1,
     Forall (λ wd, normalized_word wd.1 = true ∧ word_fits wd.1 = true ∧
                   wd.2 ≤ INT_MAX) inserts →
     Z.of_nat (length inserts) ≤ INT_MAX →
     Exists (λ wd, 0 ≤ wd.2) inserts →
     ∃ index' h',
       index_load
         (Some (index_save (index_build inserts h0).1
                  (index_build inserts h0).2 [])) h1
       = Loaded index' h' ∧
       ∀ w d, find_get index' h' w d
              = find_get (index_build inserts h0).1
                  (index_build inserts h0).2 w d) ∧
  (∀ lines h1,
     lines ≠ [] →
     Forall (λ line, line_ok line = true) lines →
     ∃ index' h',
       index_load (Some (render_index lines)) h1 = Loaded index' h' ∧
       index_view index' h' = foldl install_line ∅ lines) ∧
  index_load
    (Some (index_save (index_build [] ∅).1 (index_build [] ∅).2 [])) ∅
  = LoadExit ∧
  (normalized_word long_word = true ∧
   index_load
     (Some (index_save (index_build [(long_word, 1)] ∅).1
              (index_build [(long_word, 1)] ∅).2 [])) ∅
   = LoadOverrun).
Proof.
  split; [|split; [|split]].
  - intros inserts h0 h1 Hwords Hlen Hex.
    assert (∀ w c d n, index_view ∅ h0 !! w = Some c → c !! d = Some n →
                       0 ≤ d ∧ 0 ≤ n) as Hnn0
      by (intros w c d n; by rewrite index_view_empty, lookup_empty).
    destruct (index_build_invariant
                (λ w, normalized_word w = true ∧ word_fits w = true)
                inserts ∅ h0) as (Hwf & Hnn & Hok);
      [eapply Forall_impl; [exact Hwords|]; simpl; tauto
      |apply index_wf_empty|exact Hnn0
      |intros w [l Hl]; by rewrite lookup_empty in Hl|].
    pose proof (index_build_bounded inserts 0 ∅ h0) as Hbd.
    pose proof (index_build_nonempty inserts ∅ h0 (or_intror Hex)) as Hne.
    cbn zeta in Hbd.
    unfold index_build. rewrite index_new_empty.
    destruct (foldl _ (∅, h0) inserts) as [index h]. cbn [fst snd] in *.
    rewrite index_save_render, app_nil_l.
    destruct (index_load_render (saved_lines index h) h1)
      as (index' & h' & Hload & _ & Hview).
    { by apply saved_lines_nonempty. }
    { apply (saved_lines_ok
               (λ w, normalized_word w = true ∧ word_fits w = true)
               (0 + Z.of_nat (length inserts))); try done.
      apply Hbd; [|apply index_wf_empty|done|].
      - eapply Forall_impl; [exact Hwords|]. simpl. tauto.
      - intros w c d n. by rewrite index_view_empty, lookup_empty. }
    exists index', h'. split; [done|].
    by apply saved_index_find_get.
  - intros lines h1 Hne Hok.
    destruct (index_load_render lines h1 Hne Hok) as (i & h & ? & _ & ?).
    by exists i, h.
  - reflexivity.
  - split; by vm_compute.
Qed.

Lemma index_round_trip_witness :
  Forall (λ wd : string * Z,
            normalized_word wd.1 = true ∧ word_fits wd.1 = true ∧
            wd.2 ≤ INT_MAX)
    [("cat"%string, 1); ("dog"%string, 2); ("cat"%string, 1);
     ("cat"%string, 5)] ∧
  ∃ index' h',
    index_load
      (Some (index_save
               (index_build [("cat"%string, 1); ("dog"%string, 2);
                             ("cat"%string, 1); ("cat"%string, 5)] ∅).1
               (index_build [("cat"%string, 1); ("dog"%string, 2);
                             ("cat"%string, 1); ("cat"%string, 5)] ∅).2 []))
      ∅
    = Loaded index' h' ∧
    find_get index' h' "cat" 1 = 2.
Proof.
  assert (Forall (λ wd : string * Z,
                    normalized_word wd.1 = true ∧ word_fits wd.1 = true ∧
                    wd.2 ≤ INT_MAX)
            [("cat"%string, 1); ("dog"%string, 2); ("cat"%string, 1);
             ("cat"%string, 5)]) as Hwords
    by (repeat constructor; by vm_compute).
  split; [exact Hwords|].
  destruct (proj1 index_round_trip _ ∅ ∅ Hwords)
    as (index' & h' & Hload & Hget);
    [by vm_compute|by left|].
  exists index', h'. split; [exact Hload|].
  rewrite Hget. reflexivity.
Defined.

(** ** Loading never reports a malformed file *)

Lemma skip_ws_cons c fp :
  skip_ws (c :: fp) = if isspace c then skip_ws fp else c :: fp.
Proof. done. Qed.

Lemma skip_ws_spec fp :
  ∃ ws, fp = ws ++ skip_ws fp ∧ Forall (λ c, isspace c = true) ws ∧
        (skip_ws fp = [] ∨ ∃ c r, skip_ws fp = c :: r ∧ isspace c = false).
Proof.
  induction fp as [|c fp (ws & Hfp & Hws & Hr)].
  - exists []. repeat split; [done|by left].
  - rewrite skip_ws_cons. destruct (isspace c) eqn:Ec.
    + exists (c :: ws). repeat split; [by rewrite Hfp at 1|by constructor|done].
    + exists []. repeat split; [done|]. right. by eexists _, _.
Qed.

Lemma skip_ws_suffix fp : skip_ws fp `suffix_of` fp.
Proof. destruct (skip_ws_spec fp) as (ws & Hfp & _). by exists ws. Qed.

Lemma scan_digits_suffix fp : ∀ acc, (scan_digits fp acc).2 `suffix_of` fp.
Proof.
  induction fp as [|c fp IH]; intros acc; unfold scan_digits;
    fold scan_digits; [done|].
  destruct (isdigit c); [|done]. by apply suffix_cons_r.
Qed.

Lemma scan_number_suffix neg fp : (scan_number neg fp).2 `suffix_of` fp.
Proof.
  unfold scan_number. destruct fp as [|c l]; [done|].
  destruct (isdigit c); [|done].
  pose proof (scan_digits_suffix (c :: l) 0) as Hs.
  by destruct (scan_digits (c :: l) 0).
Qed.

Lemma scan_int_suffix fp : (scan_int fp).2 `suffix_of` fp.
Proof.
  unfold scan_int. etrans; [|apply skip_ws_suffix].
  destruct (skip_ws fp) as [|c l]; [done|].
  destruct (Ascii.eqb c "-");
    [apply suffix_cons_r, scan_number_suffix|].
  destruct (Ascii.eqb c "+");
    [apply suffix_cons_r, scan_number_suffix|].
  apply scan_number_suffix.
Qed.

Lemma load_pairs_suffix fuel : ∀ word fp index h,
  (load_pairs fuel word fp index h).2 `suffix_of` fp.
Proof.
  induction fuel as [|fuel IH]; intros word fp index h; simpl; [done|].
  pose proof (scan_int_suffix fp) as H1.
  destruct (scan_int fp) as [[docID|] fp1]; simpl in *; [|done].
  pose proof (scan_int_suffix (skip_ws fp1)) as H2.
  pose proof (skip_ws_suffix fp1) as H3.
  destruct (scan_int (skip_ws fp1)) as [[count|] fp2]; simpl in *.
  - destruct (index_set index word docID count h) as [index' h'].
    etrans; [apply IH|]. by repeat (etrans; [eassumption|]).
  - by repeat (etrans; [eassumption|]).
Qed.

Lemma short_tokens_cons c fp : short_tokens (c :: fp) → short_tokens fp.
Proof.
  unfold short_tokens, ws_tokens. simpl.
  destruct (ws_split fp) as [cur rest]. destruct (isspace c); [done|].
  intros [Hc Hrest]%Forall_cons. destruct cur; [done|].
  constructor; [simpl in *; lia|done].
Qed.

Lemma short_tokens_suffix s fp :
  s `suffix_of` fp → short_tokens fp → short_tokens s.
Proof.
  intros [k ->]. induction k as [|c k IH]; [done|].
  intros H. by apply IH, (short_tokens_cons c).
Qed.

Lemma scan_nonspace_spec fp :
  fp = (scan_nonspace fp).1 ++ (scan_nonspace fp).2 ∧
  Forall (λ c, isspace c = false) (scan_nonspace fp).1 ∧
  ((scan_nonspace fp).2 = [] ∨
   ∃ c r, (scan_nonspace fp).2 = c :: r ∧ isspace c = true).
Proof.
  induction fp as [|c fp (Hfp & Hw & Hr)]; simpl.
  - repeat split; [done|by left].
  - destruct (isspace c) eqn:Ec; simpl.
    + repeat split; [done|]. right. by eexists _, _.
    + destruct (scan_nonspace fp) as [w r]. simpl in *.
      repeat split; [by rewrite Hfp at 1|by constructor|done].
Qed.

Lemma scan_word_first_token fp w fp1 :
  scan_word fp = (Some w, fp1) →
  ws_tokens fp = w :: ws_tokens fp1 ∧ fp1 `suffix_of` fp.
Proof.
  unfold scan_word. destruct (skip_ws_spec fp) as (ws & Hfp & Hws & Hr).
  destruct (skip_ws fp) as [|c l] eqn:E; [done|].
  destruct Hr as [?|(c' & l' & [= <- <-] & Hc)]; [done|].
  destruct (scan_nonspace_spec (c :: l)) as (Hcl & Hw & Hr).
  destruct (scan_nonspace (c :: l)) as [w' r]. simpl in *.
  intros [= <- <-]. split.
  - rewrite Hfp, ws_tokens_spaces, Hcl by done.
    apply ws_tokens_word; [|done|done].
    intros ->. simpl in Hcl. subst r.
    destruct Hr as [?|(c2 & r2 & [= <- <-] & Hc2)]; [done|congruence].
  - rewrite Hfp, Hcl, !app_assoc. by eexists.
Qed.

Lemma load_words_total fuel : ∀ fp index h,
  short_tokens fp → ∃ index' h', load_words fuel fp index h = Loaded index' h'.
Proof.
  induction fuel as [|fuel IH]; intros fp index h Hshort;
    [by eexists _, _|].
  rewrite load_words_S.
  destruct (scan_word fp) as [[w|] fp1] eqn:E; [|by eexists _, _].
  apply scan_word_first_token in E as [Htok Hsuf].
  pose proof Hshort as Hshort'. unfold short_tokens in Hshort'.
  rewrite Htok in Hshort'. apply Forall_cons in Hshort' as [Hw _].
  destruct (Nat.leb_spec 256 (length w)) as [?|_]; [lia|].
  pose proof (load_pairs_suffix (S (length fp1))
                (string_of_list_ascii (cstring w)) fp1 index h) as Hsuf2.
  destruct (load_pairs _ _ fp1 index h) as [[index' h'] fp2]. simpl in Hsuf2.
  apply IH. eapply short_tokens_suffix; [|exact Hshort]. by etrans.
Qed.

Lemma load_words_not_null fuel : ∀ fp index h,
  load_words fuel fp index h ≠ LoadNull ∧
  load_words fuel fp index h ≠ LoadExit.
Proof.
  induction fuel as [|fuel IH]; intros fp index h; [done|].
  rewrite load_words_S. destruct (scan_word fp) as [[w|] fp1]; [|done].
  destruct (256 <=? length w)%nat; [done|].
  destruct (load_pairs _ _ fp1 index h) as [[index' h'] fp2]. apply IH.
Qed.

Lemma scan_number_Some neg fp z fp1 :
  scan_number neg fp = (Some z, fp1) → (length fp1 < length fp)%nat.
Proof.
  unfold scan_number. destruct fp as [|c l]; [done|].
  destruct (isdigit c) eqn:Ec; [|done].
  unfold scan_digits. fold scan_digits. rewrite Ec.
  pose proof (scan_digits_suffix l (0 * 10 + digit_val c)) as Hs.
  destruct (scan_digits l (0 * 10 + digit_val c)) as [n fp']. simpl in *.
  intros [= _ <-]. apply suffix_length in Hs. simpl. lia.
Qed.

Lemma scan_int_Some fp z fp1 :
  scan_int fp = (Some z, fp1) → (length fp1 < length fp)%nat.
Proof.
  unfold scan_int. pose proof (suffix_length _ _ (skip_ws_suffix fp)) as Hs.
  destruct (skip_ws fp) as [|c l]; [done|]. simpl in Hs.
  destruct (Ascii.eqb c "-");
    [intros H%scan_number_Some; lia|].
  destruct (Ascii.eqb c "+");
    [intros H%scan_number_Some; lia|].
  intros H%scan_number_Some. simpl in H. lia.
Qed.

Lemma scan_word_Some fp w fp1 :
  scan_word fp = (Some w, fp1) → (length fp1 < length fp)%nat.
Proof.
  unfold scan_word. pose proof (suffix_length _ _ (skip_ws_suffix fp)) as Hs.
  destruct (skip_ws_spec fp) as (_ & _ & _ & Hr).
  destruct (skip_ws fp) as [|c l]; [done|].
  destruct Hr as [?|(c' & l' & [= <- <-] & Hc)]; [done|].
  simpl. rewrite Hc.
  destruct (scan_nonspace_spec l) as (Hl & _).
  destruct (scan_nonspace l) as [w' r]. simpl in *.
  intros [= _ <-]. rewrite Hl, length_app in Hs. lia.
Qed.

Lemma load_pairs_fuel fuel1 : ∀ fuel2 word fp index h,
  (length fp < fuel1)%nat → (length fp < fuel2)%nat →
  load_pairs fuel1 word fp index h = load_pairs fuel2 word fp index h.
Proof.
  induction fuel1 as [|fuel1 IH]; intros fuel2 word fp index h H1 H2; [lia|].
  destruct fuel2 as [|fuel2]; [lia|]. simpl.
  destruct (scan_int fp) as [[docID|] fp1] eqn:E1; [|done].
  apply scan_int_Some in E1.
  pose proof (suffix_length _ _ (skip_ws_suffix fp1)) as Hs.
  destruct (scan_int (skip_ws fp1)) as [[count|] fp2] eqn:E2; [|done].
  apply scan_int_Some in E2.
  destruct (index_set index word docID count h) as [index' h'].
  apply IH; lia.
Qed.

Lemma load_words_fuel fuel1 : ∀ fuel2 fp index h,
  (length fp < fuel1)%nat → (length fp < fuel2)%nat →
  load_words fuel1 fp index h = load_words fuel2 fp index h.
Proof.
  induction fuel1 as [|fuel1 IH]; intros fuel2 fp index h H1 H2; [lia|].
  destruct fuel2 as [|fuel2]; [lia|]. rewrite !load_words_S.
  destruct (scan_word fp) as [[w|] fp1] eqn:E; [|done].
  apply scan_word_Some in E.
  destruct (256 <=? length w)%nat; [done|].
  pose proof (suffix_length _ _
                (load_pairs_suffix (S (length fp1))
                   (string_of_list_ascii (cstring w)) fp1 index h)) as Hs.
  destruct (load_pairs _ _ fp1 index h) as [[index' h'] fp2]. simpl in Hs.
  apply IH; lia.
Qed.

(** C5, as the code has it.  [index_load] does not check the format of the
    file.  It returns [NULL] only for a [NULL] stream and ends the process
    only for a file without a newline character; for every other file
    whose runs of characters without white space are shorter than 256 it
    returns an index.  When well-formed lines are followed by a rest that
    begins with a letter, whatever it holds, the triples of the lines are
    installed (with [index_set], which skips a pair with a negative number)
    and the loop goes on with the rest.  Where a line has white space and
    a letter in the place of a number, the pairs of its word end there (a
    document number without a count is dropped) and the next word is read
    from there. *)
Theorem index_load_accepts_any_file :
  (∀ fp h, index_load fp h = LoadNull ↔ fp = None) ∧
  (∀ content h,
     index_load (Some content) h = LoadExit ↔ "010"%char ∉ content) ∧
  (∀ content h,
     "010"%char ∈ content → short_tokens content →
     ∃ index' h', index_load (Some content) h = Loaded index' h') ∧
  (∀ lines rest h,
     lines ≠ [] → Forall (λ line, line_ok line = true) lines →
     at_line_start rest →
     ∃ index1 h1,
       index_view index1 h1 = foldl install_line ∅ lines ∧
       index_load (Some (render_index lines ++ rest)) h
       = load_words (S (length rest)) rest index1 h1) ∧
  (∀ line dangling sep rest fuel index h,
     line_ok line = true → (∀ d, dangling = Some d → is_int d = true) →
     isspace sep = true → at_line_start rest →
     load_words (S fuel) (render_broken line dangling ++ sep :: rest) index h
     = load_words fuel rest
         (set_pairs line.1 line.2 (index, h)).1
         (set_pairs line.1 line.2 (index, h)).2).
Proof.
  split; [|split; [|split; [|split]]];
    [| | | |intros [w ps] *; apply load_words_broken_line].
  - intros [fp|] h; [|done]. split; [|done]. unfold index_load.
    destruct (hashtable_new _); [|done].
    intros H. by apply load_words_not_null in H.
  - intros content h. split.
    + intros Hexit Hnl. rewrite index_load_lines in Hexit by done.
      by apply load_words_not_null in Hexit.
    + intros Hnl. unfold index_load.
      destruct (hashtable_new (file_numLines content)) eqn:E; [|done].
      destruct Hnl. apply file_numLines_pos.
      unfold hashtable_new in E.
      destruct (Z.ltb_spec 0 (file_numLines content)); done.
  - intros content h Hnl Hshort. rewrite index_load_lines by done.
    by apply load_words_total.
  - intros lines rest h Hne Hok Hrest.
    destruct (set_lines_view lines ∅ h (index_wf_empty h)) as [_ Hview].
    rewrite index_view_empty in Hview.
    exists (set_lines lines (∅, h)).1, (set_lines lines (∅, h)).2.
    split; [exact Hview|].
    rewrite index_load_lines
      by (apply elem_of_app; left; by apply render_index_newline).
    pose proof (render_index_length lines) as Hlen.
    rewrite length_app.
    replace (S (length (render_index lines) + length rest))
      with (length lines
            + S (length (render_index lines) - length lines + length rest))%nat
      by lia.
    rewrite load_words_render by done.
    apply load_words_fuel; lia.
Qed.

Lemma index_load_accepts_any_file_witness :
  "010"%char ∈ list_ascii_of_string "cat 5 x
" ∧
  short_tokens (list_ascii_of_string "cat 5 x
") ∧
  ∃ index' h',
    index_load (Some (list_ascii_of_string "cat 5 x
")) ∅
    = Loaded index' h'.
Proof.
  assert ("010"%char ∈ list_ascii_of_string "cat 5 x
") as Hnl by (apply (bool_decide_unpack _); by vm_compute).
  assert (short_tokens (list_ascii_of_string "cat 5 x
")) as Hshort
    by (apply (bool_decide_unpack _); by vm_compute).
  split; [exact Hnl|]. split; [exact Hshort|].
  apply (proj1 (proj2 (proj2 index_load_accepts_any_file)) _ ∅ Hnl Hshort).
Defined.

(** C5, as the specification states it, fails: the file below has a
    malformed pair ("7 x") and so violates the format, yet [index_load]
    returns an index, holding the pairs read before and after it. *)
Lemma index_load_accepts_malformed_file :
  index_file_format_ok (list_ascii_of_string "cat 5 2 7 x
dog 2 1
") = false ∧
  ∃ index' h',
    index_load (Some (list_ascii_of_string "cat 5 2 7 x
dog 2 1
")) ∅ = Loaded index' h' ∧
    find_get index' h' "cat" 5 = 2 ∧
    find_get index' h' "dog" 2 = 1.
Proof.
  split; [reflexivity|]. eexists _, _. split; [by vm_compute|].
  split; reflexivity.
Qed.

(** ** The loops stop before their fuel runs out

    The loops of [index_load] and of [queryTokenize] are modelled with a
    bound on the number of passes.  The bound used is never reached: any
    larger one gives the same result. *)

Lemma index_load_fuel fuel fp h :
  "010"%char ∈ fp → (length fp < fuel)%nat →
  load_words fuel fp (index_new (file_numLines fp)) h = index_load (Some fp) h.
Proof.
  intros Hnl H. rewrite index_load_lines, index_new_empty by done.
  apply load_words_fuel; lia.
Qed.

Lemma rd_overflow buf i : (length buf ≤ i)%nat → rd buf i = NUL.
Proof. intros H. unfold rd. by apply nth_overflow. Qed.

Lemma skip_space_ge fuel : ∀ buf start, (start ≤ skip_space fuel buf start)%nat.
Proof.
  induction fuel as [|fuel IH]; intros buf start; simpl; [lia|].
  destruct (isspace (rd buf start)); [|lia]. specialize (IH buf (S start)). lia.
Qed.

Lemma skip_space_fuel fuel1 : ∀ fuel2 buf start,
  (length buf - start ≤ fuel1)%nat → (length buf - start ≤ fuel2)%nat →
  skip_space fuel1 buf start = skip_space fuel2 buf start.
Proof.
  assert (∀ fuel buf start, (length buf ≤ start)%nat →
            skip_space fuel buf start = start) as Hend.
  { intros [|fuel] buf start H; simpl; [done|].
    by rewrite rd_overflow, isspace_NUL. }
  induction fuel1 as [|fuel1 IH]; intros fuel2 buf start H1 H2.
  - rewrite !Hend by lia. done.
  - destruct fuel2 as [|fuel2]; [rewrite !Hend by lia; done|]. simpl.
    destruct (isspace (rd buf start)); [|done]. apply IH; lia.
Qed.

Lemma lower_word_props fuel : ∀ buf e,
  length (lower_word fuel buf e).1 = length buf ∧
  (e ≤ (lower_word fuel buf e).2)%nat ∧
  ((lower_word fuel buf e).2 = e → (lower_word fuel buf e).1 = buf).
Proof.
  induction fuel as [|fuel IH]; intros buf e; simpl; [done|].
  destruct (negb (Ascii.eqb (rd buf e) NUL) && negb (isspace (rd buf e)));
    [|done].
  destruct (IH (<[e := tolower (rd buf e)]> buf) (S e)) as (Hlen & Hle & _).
  rewrite length_insert in Hlen. split; [done|]. split; lia.
Qed.

Lemma lower_word_fuel fuel1 : ∀ fuel2 buf e,
  (length buf - e ≤ fuel1)%nat → (length buf - e ≤ fuel2)%nat →
  lower_word fuel1 buf e = lower_word fuel2 buf e.
Proof.
  assert (∀ fuel buf e, (length buf ≤ e)%nat →
            lower_word fuel buf e = (buf, e)) as Hend.
  { intros [|fuel] buf e H; simpl; [done|]. by rewrite rd_overflow. }
  induction fuel1 as [|fuel1 IH]; intros fuel2 buf e H1 H2.
  - rewrite !Hend by lia. done.
  - destruct fuel2 as [|fuel2]; [rewrite !Hend by lia; done|]. simpl.
    destruct (negb (Ascii.eqb (rd buf e) NUL) && negb (isspace (rd buf e)));
      [|done].
    apply IH; rewrite length_insert; lia.
Qed.

Lemma tokenize_loop_fuel maxWords fuel1 : ∀ fuel2 buf words t start,
  (length buf - start < fuel1)%nat → (length buf - start < fuel2)%nat →
  tokenize_loop fuel1 maxWords buf words t start
  = tokenize_loop fuel2 maxWords buf words t start.
Proof.
  induction fuel1 as [|fuel1 IH]; intros fuel2 buf words t start H1 H2; [lia|].
  destruct fuel2 as [|fuel2]; [lia|]. simpl.
  destruct (Ascii.eqb_spec (rd buf start) NUL) as [|Hstart]; [done|].
  assert (start < length buf)%nat as Hlt.
  { destruct (Nat.lt_ge_cases start (length buf)) as [|Hge]; [done|].
    by apply rd_overflow in Hge. }
  pose proof (skip_space_ge (length buf) buf start) as Hge.
  set (start' := skip_space (length buf) buf start) in *.
  destruct (Ascii.eqb_spec (rd buf start') NUL) as [|Hstart']; [done|].
  destruct (lower_word_props (length buf) buf start') as (Hlen & Hle & Hsame).
  destruct (lower_word (length buf) buf start') as [buf' e]. simpl in *.
  destruct (t <? maxWords); [|done].
  destruct (Ascii.eqb_spec (rd buf' e) NUL) as [He|He].
  - assert (e ≠ start') as Hne.
    { intros ->. rewrite Hsame in He by done. done. }
    apply IH; lia.
  - apply IH; rewrite length_insert; lia.
Qed.

(** With any larger bounds on its loops, [queryTokenize] returns the
    same. *)
Lemma queryTokenize_fuel fuel query maxWords :
  (length query < fuel)%nat →
  tokenize_loop fuel maxWords query [] 0 0 = queryTokenize query maxWords.
Proof. intros H. unfold queryTokenize. apply tokenize_loop_fuel; lia. Qed.

(** ** Counts stay non-negative

    The counts that the evaluator passes to [counters_set] are the entries
    of its accumulators; with an index whose counts are not negative, no
    accumulator ever holds a negative count. *)

Lemma union_counts_nonneg dst src :
  counters_nonneg dst → counters_nonneg (union_counts dst src).
Proof.
  intros Hd k v. rewrite union_counts_lookup.
  destruct (src !! k) as [c|]; [|by apply Hd]. simpl.
  destruct (Z.ltb_spec (int_add (default 0 (dst !! k)) c) 0);
    [by apply Hd|]. by intros [= <-].
Qed.

Lemma counters_nonneg_empty : counters_nonneg ∅.
Proof. intros k v. by rewrite lookup_empty. Qed.

Lemma completeChain_nonneg A O :
  (∀ c, O = Some c → counters_nonneg c) →
  ∀ c, completeChain union_counts A O = Some c → counters_nonneg c.
Proof.
  intros HO c. unfold completeChain. destruct A as [a|]; [|by apply HO].
  intros [= <-]. apply union_counts_nonneg.
  destruct O as [o|]; simpl; [by apply HO|]. apply counters_nonneg_empty.
Qed.

Lemma acc_step_nonneg find s token :
  (∀ w c, find w = Some c → counters_nonneg c) →
  acc_nonneg s → acc_nonneg (acc_step union_counts find s token).
Proof.
  intros Hfind [HA HO]. unfold acc_step.
  destruct (String.eqb token "or").
  { split; simpl; [done|]. by apply completeChain_nonneg. }
  destruct (chainBroken s); [done|].
  destruct (String.eqb token "and"); [done|].
  destruct (find token) as [c|] eqn:E; split; simpl; try done.
  intros c' [= <-]. destruct (andAccumulator s) as [a|].
  - apply minMergeInto_nonneg; [by apply HA|by eapply Hfind].
  - apply union_counts_nonneg, counters_nonneg_empty.
Qed.

Lemma acc_foldl_nonneg find tokens : ∀ s,
  (∀ w c, find w = Some c → counters_nonneg c) →
  acc_nonneg s → acc_nonneg (foldl (acc_step union_counts find) s tokens).
Proof.
  induction tokens as [|w tokens IH]; intros s Hfind Hs; [done|]. simpl.
  by apply IH, acc_step_nonneg.
Qed.

Lemma queryEvaluate_nonneg words index h :
  index_alloc index h →
  (∀ w c, stored index h w = Some c → counters_nonneg c) →
  counters_nonneg (result_counts (queryEvaluate words index h)).
Proof.
  intros Halloc Hstored. rewrite queryEvaluate_counts by done.
  destruct (acc_foldl_nonneg (stored index h) words (AccState None None false))
    as [HA HO]; [done|by split|].
  unfold acc_eval.
  destruct (completeChain _ _ _) as [c|] eqn:E; simpl.
  - eapply completeChain_nonneg; [exact HO|exact E].
  - apply counters_nonneg_empty.
Qed.

(** ** Inserting into the index and looking up *)

Lemma find_get_update f index w h :
  index_wf index h →
  ∀ w' d,
    find_get (index_update f index w h).1 (index_update f index w h).2 w' d
    = if decide (w' = w)
      then default 0 (f (default ∅ (index_view index h !! w)) !! d)
      else find_get index h w' d.
Proof.
  intros Hwf w' d. destruct (index_update_view f index w h Hwf) as [_ Hview].
  rewrite !find_get_view, Hview. destruct (decide (w' = w)) as [->|Hne].
  - by rewrite lookup_insert_eq.
  - by rewrite lookup_insert_ne.
Qed.

Lemma find_get_default index h w d :
  find_get index h w d = default 0 (default ∅ (index_view index h !! w) !! d).
Proof.
  rewrite find_get_view. by destruct (index_view index h !! w).
Qed.

Lemma index_insert_get index word docID h :
  index_wf index h → 0 ≤ docID →
  index_wf (index_insert index word docID h).1
    (index_insert index word docID h).2 ∧
  ∀ w d,
    find_get (index_insert index word docID h).1
      (index_insert index word docID h).2 w d
    = find_get index h w d
      + (if String.eqb w word && (d =? docID) then 1 else 0).
Proof.
  intros Hwf Hd. rewrite index_insert_update.
  destruct (Z.ltb_spec docID 0); [lia|].
  split; [by apply index_update_view|].
  intros w d. rewrite find_get_update by done.
  destruct (String.eqb_spec w word) as [->|Hne]; simpl.
  - rewrite decide_True by done. rewrite find_get_default. unfold increment.
    destruct (Z.eqb_spec d docID) as [->|Hned].
    + rewrite lookup_insert_eq.
      by destruct (default ∅ (index_view index h !! word) !! docID).
    + rewrite lookup_insert_ne by done. lia.
  - rewrite decide_False by done. lia.
Qed.

(** X1. [index_insert] with a negative [docID] does nothing; otherwise it
    adds 1 to the count of [docID] for [word] (a count of 0 when the word or
    the document was absent), every other count that [index_find] and
    [counters_get] give stays as it was, and the words keep counters
    objects of their own. *)
Theorem index_insert_increments index word docID h :
  index_wf index h →
  (docID < 0 → index_insert index word docID h = (index, h)) ∧
  (0 ≤ docID →
   let st := index_insert index word docID h in
   index_wf st.1 st.2 ∧
   find_get st.1 st.2 word docID = find_get index h word docID + 1 ∧
   ∀ w d, (w, d) ≠ (word, docID) →
          find_get st.1 st.2 w d = find_get index h w d).
Proof.
  intros Hwf. split.
  - intros Hd. unfold index_insert. by destruct (Z.ltb_spec docID 0); [|lia].
  - intros Hd. destruct (index_insert_get index word docID h Hwf Hd)
      as [Hwf' Hget].
    split; [done|]. split.
    + by rewrite Hget, String.eqb_refl, Z.eqb_refl.
    + intros w d Hne. rewrite Hget.
      destruct (String.eqb_spec w word) as [->|]; simpl; [|lia].
      destruct (Z.eqb_spec d docID) as [->|]; [done|lia].
Qed.

Lemma pets_built :
  index_build [("cat", 1); ("cat", 5); ("cat", 5); ("dog", 2); ("dog", 5);
               ("dog", 5); ("dog", 5); ("fish", 2)]%string ∅
  = (pets_index, pets_heap).
Proof. by vm_compute. Qed.

Lemma pets_wf : index_wf pets_index pets_heap.
Proof.
  pose proof (index_build_invariant (λ _, True)
                [("cat", 1); ("cat", 5); ("cat", 5); ("dog", 2); ("dog", 5);
                 ("dog", 5); ("dog", 5); ("fish", 2)]%string ∅ ∅) as H.
  change (foldl _ (∅, ∅) _) with
    (index_build [("cat", 1); ("cat", 5); ("cat", 5); ("dog", 2); ("dog", 5);
                  ("dog", 5); ("dog", 5); ("fish", 2)]%string ∅) in H.
  rewrite pets_built in H. apply H.
  - by repeat constructor.
  - apply index_wf_empty.
  - intros w c d n. by rewrite index_view_empty, lookup_empty.
  - done.
Qed.

Lemma index_insert_increments_witness :
  index_wf pets_index pets_heap ∧
  find_get (index_insert pets_index "cat" 5 pets_heap).1
    (index_insert pets_index "cat" 5 pets_heap).2 "cat" 5 = 3.
Proof.
  split; [exact pets_wf|].
  destruct (proj2 (index_insert_increments pets_index "cat" 5 pets_heap
                     pets_wf))
    as (_ & -> & _); [lia|reflexivity].
Defined.

(** X2. [index_set] with a negative [docID] or [count] does nothing;
    otherwise [count] becomes the count of [docID] for [word], replacing
    what was there, and every other count stays as it was. *)
Theorem index_set_overwrites index word docID count h :
  index_wf index h →
  (docID < 0 ∨ count < 0 → index_set index word docID count h = (index, h)) ∧
  (0 ≤ docID → 0 ≤ count →
   let st := index_set index word docID count h in
   index_wf st.1 st.2 ∧
   find_get st.1 st.2 word docID = count ∧
   ∀ w d, (w, d) ≠ (word, docID) →
          find_get st.1 st.2 w d = find_get index h w d).
Proof.
  intros Hwf. rewrite index_set_update. split.
  - intros Hd.
    by destruct (Z.ltb_spec docID 0), (Z.ltb_spec count 0); [..|lia].
  - intros Hd Hc.
    destruct (Z.ltb_spec docID 0), (Z.ltb_spec count 0); try lia. simpl.
    split; [by apply index_update_view|]. split.
    + rewrite find_get_update, decide_True by done.
      by rewrite lookup_insert_eq.
    + intros w d Hne. rewrite find_get_update by done.
      destruct (decide (w = word)) as [->|]; [|done].
      rewrite find_get_default.
      rewrite lookup_insert_ne; [done|]. congruence.
Qed.

Lemma index_set_overwrites_witness :
  index_wf pets_index pets_heap ∧
  find_get (index_set pets_index "cat" 5 7 pets_heap).1
    (index_set pets_index "cat" 5 7 pets_heap).2 "cat" 5 = 7.
Proof.
  split; [exact pets_wf|].
  destruct (proj2 (index_set_overwrites pets_index "cat" 5 7 pets_heap
                     pets_wf))
    as (_ & -> & _); [lia|lia|reflexivity].
Defined.

(** ** Normalizing words *)

Lemma tolower_idem c : tolower (tolower c) = tolower c.
Proof. by destruct c as [[] [] [] [] [] [] [] []]. Qed.

Lemma isupper_tolower c : isupper (tolower c) = false.
Proof. by destruct c as [[] [] [] [] [] [] [] []]. Qed.

Lemma islower_tolower c : isalpha c = true → islower (tolower c) = true.
Proof. by destruct c as [[] [] [] [] [] [] [] []]. Qed.

Lemma tolower_fixed c : isupper c = false → tolower c = c.
Proof. unfold tolower. by intros ->. Qed.

Lemma normalizeWord_normalized word :
  word ≠ ""%string → alphabetic word →
  normalized_word (normalizeWord word) = true.
Proof.
  intros Hne Hal. unfold normalizeWord, normalized_word, alphabetic in *.
  rewrite list_ascii_of_string_of_list_ascii.
  destruct word as [|c w]; [done|]. simpl in *.
  apply Forall_cons in Hal as [Hc Hal].
  rewrite (islower_tolower c Hc). simpl.
  apply forallb_forall. intros x (y & <- & Hy)%in_map_iff.
  apply islower_tolower. eapply Forall_forall in Hal; [done|].
  by apply list_elem_of_In.
Qed.

(** X3. [normalizeWord] keeps the length of the word, changes no character
    of a word without capital letters, leaves no capital letter, and is
    idempotent; it turns a non-empty word of letters into a normalized word
    (lowercase letters only). *)
Theorem normalizeWord_lowercases word :
  String.length (normalizeWord word) = String.length word ∧
  normalizeWord (normalizeWord word) = normalizeWord word ∧
  Forall (λ c, isupper c = false) (list_ascii_of_string (normalizeWord word)) ∧
  (Forall (λ c, isupper c = false) (list_ascii_of_string word) →
   normalizeWord word = word) ∧
  (word ≠ ""%string → alphabetic word →
   normalized_word (normalizeWord word) = true).
Proof.
  unfold normalizeWord. repeat split.
  - rewrite <- !length_list_ascii_of_string, list_ascii_of_string_of_list_ascii.
    apply length_map.
  - rewrite list_ascii_of_string_of_list_ascii, map_map. f_equal.
    apply map_ext. intros c. apply tolower_idem.
  - rewrite list_ascii_of_string_of_list_ascii. apply Forall_forall.
    intros c (c' & -> & _)%list_elem_of_fmap. apply isupper_tolower.
  - intros Hup. rewrite <- (string_of_list_ascii_of_string word) at 2.
    f_equal. induction Hup as [|c l Hc _ IH]; [done|]. simpl.
    by rewrite IH, tolower_fixed.
  - apply normalizeWord_normalized.
Qed.

(** ** Building the index from the pages *)

Lemma indexPage_cons word page docID index h :
  indexPage (word :: page) docID index h
  = if (3 <=? String.length word)%nat
    then indexPage page docID
           (index_insert index (normalizeWord word) docID h).1
           (index_insert index (normalizeWord word) docID h).2
    else indexPage page docID index h.
Proof.
  unfold indexPage. cbn [foldl fst snd].
  destruct (3 <=? String.length word)%nat; [|done].
  by destruct (index_insert index (normalizeWord word) docID h).
Qed.

Lemma occurrences_cons w word page :
  occurrences w (word :: page)
  = (if indexed_as w word then 1 else 0) + occurrences w page.
Proof.
  unfold occurrences. cbn [List.filter].
  destruct (indexed_as w word); cbn [length]; lia.
Qed.

Lemma indexPage_get page docID : ∀ index h,
  index_wf index h → 0 ≤ docID →
  index_wf (indexPage page docID index h).1 (indexPage page docID index h).2 ∧
  ∀ w d,
    find_get (indexPage page docID index h).1
      (indexPage page docID index h).2 w d
    = find_get index h w d + (if d =? docID then occurrences w page else 0).
Proof.
  induction page as [|word page IH]; intros index h Hwf Hd.
  - split; [done|]. intros w d. unfold occurrences. cbn.
    destruct (d =? docID); lia.
  - rewrite indexPage_cons.
    destruct (3 <=? String.length word)%nat eqn:Elen.
    + destruct (index_insert_get index (normalizeWord word) docID h Hwf Hd)
        as [Hwf' Hget].
      destruct (IH _ _ Hwf' Hd) as [Hwf2 Hget2].
      split; [done|]. intros w d.
      rewrite Hget2, Hget, occurrences_cons. unfold indexed_as.
      rewrite Elen, (String.eqb_sym w). cbn [andb].
      destruct (String.eqb (normalizeWord word) w), (d =? docID);
        cbn [andb]; lia.
    + destruct (IH _ _ Hwf Hd) as [Hwf2 Hget2].
      split; [done|]. intros w d.
      rewrite Hget2, occurrences_cons. unfold indexed_as.
      rewrite Elen. cbn [andb]. done.
Qed.

Lemma indexBuild_loop_get files : ∀ docID index h,
  index_wf index h → 0 ≤ docID →
  index_wf (indexBuild_loop files docID index h).1
    (indexBuild_loop files docID index h).2 ∧
  ∀ w d,
    find_get (indexBuild_loop files docID index h).1
      (indexBuild_loop files docID index h).2 w d
    = find_get index h w d
      + (if d <? docID then 0
         else match files !! Z.to_nat (d - docID) with
              | Some (Some page) => occurrences w page
              | _ => 0
              end).
Proof.
  induction files as [|page files IH]; intros docID index h Hwf Hd; simpl.
  - split; [done|]. intros w d. destruct (d <? docID); lia.
  - assert (∃ index' h',
      (match page with
       | Some page => indexPage page docID index h
       | None => (index, h)
       end) = (index', h') ∧ index_wf index' h' ∧
      ∀ w d, find_get index' h' w d
             = find_get index h w d
               + (if d =? docID
                  then match page with
                       | Some page => occurrences w page
                       | None => 0
                       end
                  else 0)) as (index' & h' & -> & Hwf' & Hget).
    { destruct page as [page|].
      - destruct (indexPage_get page docID index h Hwf Hd) as [Hwf' Hget].
        destruct (indexPage page docID index h) as [index' h'].
        by exists index', h'.
      - exists index, h. split; [done|]. split; [done|]. intros w d.
        destruct (d =? docID); lia. }
    destruct (IH (docID + 1) index' h' Hwf') as [Hwf2 Hget2]; [lia|].
    split; [done|]. intros w d. rewrite Hget2, Hget.
    destruct (Z.eqb_spec d docID) as [->|Hne].
    + destruct (Z.ltb_spec docID (docID + 1)); [|lia].
      destruct (Z.ltb_spec docID docID); [lia|].
      rewrite Z.sub_diag. simpl. lia.
    + destruct (Z.ltb_spec d (docID + 1)), (Z.ltb_spec d docID); try lia.
      replace (Z.to_nat (d - docID)) with (S (Z.to_nat (d - (docID + 1))))
        by lia.
      simpl. lia.
Qed.

(** X4. The index that the indexer builds from the files 1, 2, ..., n of
    the page directory gives, for each word [w] and document [d], the number
    of words of page [d] that have three characters or more and [w] as
    their lowercase form; it gives 0 for a document whose file could not be
    loaded and for every other number. *)
Theorem indexBuild_counts_words files h w d :
  let st := indexBuild files (index_new 500) h in
  index_wf st.1 st.2 ∧
  find_get st.1 st.2 w d
  = if d <? 1 then 0
    else match files !! Z.to_nat (d - 1) with
         | Some (Some page) => occurrences w page
         | _ => 0
         end.
Proof.
  destruct (indexBuild_loop_get files 1 (index_new 500) h) as [Hwf Hget];
    [apply index_wf_empty|lia|].
  split; [exact Hwf|]. unfold indexBuild. rewrite Hget. done.
Qed.

(** ** The heap of an index under construction *)

Lemma index_built_empty h : index_built h ∅ h.
Proof.
  split; [apply index_wf_empty|]. split; [|split; [split|]].
  - intros w c d n. by rewrite index_view_empty, lookup_empty.
  - intros w l. by rewrite lookup_empty.
  - done.
  - intros w c. by rewrite index_view_empty, lookup_empty.
Qed.

Lemma index_update_owns h0 f index w h :
  index_wf index h → index_owns h0 index h →
  index_owns h0 (index_update f index w h).1 (index_update f index w h).2.
Proof.
  intros [Halloc Hinj] [Hnew Hrest]. unfold index_update.
  destruct (index !! w) as [l|] eqn:Ew; simpl.
  - split; [done|]. intros l' Hl'. rewrite lookup_alter_ne; [by apply Hrest|].
    intros <-. by eapply Hl'.
  - pose proof (fresh_not_alloc h) as Hfresh.
    set (l := fresh (dom h)) in *.
    assert (∀ w', index !! w' ≠ Some l) as Hl.
    { intros w' Hw'. destruct (Halloc _ _ Hw'). congruence. }
    split.
    + intros w' l'. rewrite lookup_insert_Some.
      intros [[<- <-]|[_ Hw']]; [|by eapply Hnew].
      by rewrite <- Hrest.
    + intros l' Hl'.
      assert (l ≠ l') as Hne.
      { intros <-. apply (Hl' w). by rewrite lookup_insert_eq. }
      rewrite lookup_alter_ne, lookup_insert_ne by done.
      apply Hrest. intros w' Hw'. apply (Hl' w').
      rewrite lookup_insert_ne; [done|]. intros <-. congruence.
Qed.

Lemma index_update_built h0 f index w h :
  (∀ c, (∀ d n, c !! d = Some n → 0 ≤ d ∧ 0 ≤ n) →
        (∀ d n, f c !! d = Some n → 0 ≤ d ∧ 0 ≤ n) ∧ f c ≠ ∅) →
  index_built h0 index h →
  index_built h0 (index_update f index w h).1 (index_update f index w h).2.
Proof.
  intros Hf (Hwf & Hnn & Hown & Hne).
  destruct (index_update_view f index w h Hwf) as [Hwf' Hview].
  assert ((∀ d n, f (default ∅ (index_view index h !! w)) !! d = Some n →
                  0 ≤ d ∧ 0 ≤ n) ∧
          f (default ∅ (index_view index h !! w)) ≠ ∅) as [Hfn Hfe].
  { apply Hf. intros d n.
    destruct (index_view index h !! w) as [c|] eqn:Ec; simpl;
      [by apply (Hnn w c)|by rewrite lookup_empty]. }
  split; [done|]. split; [|split; [by apply index_update_owns|]].
  - intros w' c d n. rewrite Hview.
    destruct (decide (w = w')) as [<-|Hnew].
    + rewrite lookup_insert_eq. intros [= <-]. apply Hfn.
    + rewrite lookup_insert_ne by done. apply Hnn.
  - intros w' c. rewrite Hview.
    destruct (decide (w = w')) as [<-|Hnew].
    + rewrite lookup_insert_eq. by intros [= <-].
    + rewrite lookup_insert_ne by done. apply Hne.
Qed.

Lemma index_insert_built h0 index w d h :
  index_built h0 index h →
  index_built h0 (index_insert index w d h).1 (index_insert index w d h).2.
Proof.
  intros Hb. rewrite index_insert_update. destruct (Z.ltb_spec d 0); [done|].
  apply index_update_built; [|done]. intros c Hc. unfold increment. split.
  - intros d' n. destruct (decide (d = d')) as [<-|Hne].
    + rewrite lookup_insert_eq. intros [= <-]. split; [done|].
      destruct (c !! d) as [m|] eqn:Em; [|lia].
      destruct (Hc d m Em). lia.
    + rewrite lookup_insert_ne by done. apply Hc.
  - apply insert_non_empty.
Qed.

Lemma index_set_built h0 index w d c h :
  index_built h0 index h →
  index_built h0 (index_set index w d c h).1 (index_set index w d c h).2.
Proof.
  intros Hb. rewrite index_set_update.
  destruct (Z.ltb_spec d 0), (Z.ltb_spec c 0); try done. simpl.
  apply index_update_built; [|done]. intros c' Hc'. split.
  - intros d' n. destruct (decide (d = d')) as [<-|Hne].
    + rewrite lookup_insert_eq. by intros [= <-].
    + rewrite lookup_insert_ne by done. apply Hc'.
  - apply insert_non_empty.
Qed.

Lemma indexPage_built h0 page docID : ∀ index h,
  index_built h0 index h →
  index_built h0 (indexPage page docID index h).1
    (indexPage page docID index h).2.
Proof.
  induction page as [|word page IH]; intros index h Hb; [done|].
  rewrite indexPage_cons. destruct (3 <=? String.length word)%nat.
  - by apply IH, index_insert_built.
  - by apply IH.
Qed.

Lemma indexBuild_loop_built h0 files : ∀ docID index h,
  index_built h0 index h →
  index_built h0 (indexBuild_loop files docID index h).1
    (indexBuild_loop files docID index h).2.
Proof.
  induction files as [|page files IH]; intros docID index h Hb; [done|].
  cbn [indexBuild_loop]. destruct page as [page|].
  - pose proof (indexPage_built h0 page docID index h Hb) as Hb'.
    destruct (indexPage page docID index h) as [index' h']. by apply IH.
  - by apply IH.
Qed.

Lemma load_pairs_built h0 fuel : ∀ word fp index h,
  index_built h0 index h →
  index_built h0 (load_pairs fuel word fp index h).1.1
    (load_pairs fuel word fp index h).1.2.
Proof.
  induction fuel as [|fuel IH]; intros word fp index h Hb; [done|].
  cbn [load_pairs].
  destruct (scan_int fp) as [[docID|] fp1]; [|done].
  destruct (scan_int (skip_ws fp1)) as [[count|] fp2]; [|done].
  pose proof (index_set_built h0 index word docID count h Hb) as Hb'.
  destruct (index_set index word docID count h) as [index' h']. by apply IH.
Qed.

Lemma load_words_built h0 fuel : ∀ fp index h index' h',
  index_built h0 index h →
  load_words fuel fp index h = Loaded index' h' →
  index_built h0 index' h'.
Proof.
  induction fuel as [|fuel IH]; intros fp index h index' h' Hb.
  - by intros [= <- <-].
  - rewrite load_words_S.
    destruct (scan_word fp) as [[w|] fp1]; [|by intros [= <- <-]].
    destruct (256 <=? length w)%nat; [done|].
    pose proof (load_pairs_built h0 (S (length fp1))
                  (string_of_list_ascii (cstring w)) fp1 index h Hb) as Hb'.
    destruct (load_pairs _ _ fp1 index h) as [[index1 h1] fp2].
    by apply IH.
Qed.

Lemma index_build_built inserts h :
  index_built h (index_build inserts h).1 (index_build inserts h).2.
Proof.
  unfold index_build.
  assert (∀ index h', index_built h index h' →
            index_built h
              (foldl (λ st wd, index_insert st.1 wd.1 wd.2 st.2)
                 (index, h') inserts).1
              (foldl (λ st wd, index_insert st.1 wd.1 wd.2 st.2)
                 (index, h') inserts).2) as Hfold.
  { induction inserts as [|[w d] inserts IH]; intros index h' Hb; [done|].
    simpl. pose proof (index_insert_built h index w d h' Hb) as Hb'.
    destruct (index_insert index w d h') as [index1 h1]. by apply IH. }
  apply Hfold, index_built_empty.
Qed.

(** ** Deleting the index *)

Lemma hashtable_delete_lookup (ls : list (string * loc)) : ∀ (h : heap) l,
  foldl (λ h kv, delete_counters kv.2 h) h ls !! l
  = if decide (l ∈ ls.*2) then None else h !! l.
Proof.
  induction ls as [|[w l'] ls IH]; intros h l.
  - destruct (decide (l ∈ ([] : list (string * loc)).*2)) as [Hin|]; [|done].
    by apply elem_of_nil in Hin.
  - cbn [foldl]. rewrite IH. rewrite fmap_cons. unfold delete_counters.
    cbn [snd counters_delete].
    destruct (decide (l ∈ ls.*2)) as [Hin|Hnin].
    + by rewrite decide_True by (by right).
    + destruct (decide (l = l')) as [->|Hne].
      * rewrite decide_True by left. apply lookup_delete_eq.
      * rewrite decide_False by (by intros [?|?]%elem_of_cons).
        by apply lookup_delete_ne.
Qed.

Lemma index_delete_owned h0 index h :
  index_owns h0 index h → index_delete index h = h0.
Proof.
  intros [Hnew Hrest]. apply map_eq. intros l.
  unfold index_delete, hashtable_delete. rewrite hashtable_delete_lookup.
  destruct (decide (l ∈ (map_to_list index).*2)) as [Hin|Hnin].
  - apply list_elem_of_fmap in Hin as ([w l'] & -> & Hin).
    apply elem_of_map_to_list in Hin. symmetry. by eapply Hnew.
  - apply Hrest. intros w Hw. apply Hnin.
    apply list_elem_of_fmap. exists (w, l). split; [done|].
    by apply elem_of_map_to_list.
Qed.

(** X5. [index_delete] frees the counters objects that the index
    allocated and nothing else: when the indexer exits, and when an index
    that [index_load] returned is deleted, the heap is what it was before
    the index was created. *)
Theorem index_delete_restores_heap :
  (∀ files h, (indexer_main files h).2 = h) ∧
  (∀ inserts h,
     index_delete (index_build inserts h).1 (index_build inserts h).2 = h) ∧
  (∀ fp h index h',
     index_load (Some fp) h = Loaded index h' → index_delete index h' = h).
Proof.
  split; [|split].
  - intros files h. unfold indexer_main, indexBuild.
    pose proof (indexBuild_loop_built h files 1 (index_new 500) h
                  (index_built_empty h)) as (_ & _ & Hown & _).
    destruct (indexBuild_loop files 1 (index_new 500) h) as [index h'].
    by apply index_delete_owned.
  - intros inserts h. apply index_delete_owned, index_build_built.
  - intros fp h index h' Hload%index_load_Loaded. apply index_delete_owned.
    by eapply (load_words_built h), Hload; apply index_built_empty.
Qed.

(** ** The file that [index_save] writes *)

Lemma split_on_app sep l r :
  Forall (λ c, Ascii.eqb c sep = false) l →
  split_on sep (l ++ sep :: r) = l :: split_on sep r.
Proof.
  induction 1 as [|c l Hc _ IH]; simpl.
  - by rewrite Ascii.eqb_refl.
  - by rewrite Hc, IH.
Qed.

Lemma split_on_none sep l :
  Forall (λ c, Ascii.eqb c sep = false) l → split_on sep l = [l].
Proof.
  induction 1 as [|c l Hc _ IH]; simpl; [done|]. by rewrite Hc, IH.
Qed.

Lemma not_space_neq c s :
  isspace c = false → isspace s = true → Ascii.eqb c s = false.
Proof. intros Hc Hs. apply Ascii.eqb_neq. intros ->. congruence. Qed.

Lemma print_int_digits z :
  0 ≤ z → print_int z ≠ [] ∧ Forall (λ c, isdigit c = true) (print_int z).
Proof.
  intros Hz. unfold print_int. destruct (Z.ltb_spec z 0); [lia|]. split.
  - destruct (print_nat_cons z Hz) as (c & l & -> & _). done.
  - apply print_digits_isdigit; [done|constructor].
Qed.

Lemma is_number_field_print z : 0 ≤ z → is_number_field (print_int z) = true.
Proof.
  intros Hz. destruct (print_int_digits z Hz) as [Hne Hall].
  unfold is_number_field. destruct (print_int z) as [|c l]; [done|].
  apply forallb_forall. intros x Hx%list_elem_of_In.
  by eapply Forall_forall in Hall.
Qed.

Lemma print_int_no_sep z s :
  0 ≤ z → isspace s = true →
  Forall (λ c, Ascii.eqb c s = false) (print_int z).
Proof.
  intros Hz Hs. destruct (print_int_digits z Hz) as [_ Hall].
  eapply Forall_impl; [exact Hall|]. intros c Hc. simpl in Hc.
  apply not_space_neq; [by apply isdigit_not_space|done].
Qed.

Lemma render_pair_app d c r :
  render_pair (d, c) ++ r
  = " "%char :: print_int d ++ " "%char :: print_int c ++ r.
Proof.
  unfold render_pair. cbn [fst snd app]. by rewrite <- app_assoc.
Qed.

Lemma split_render_pairs (ps : list (Z * Z)) : ∀ pre,
  Forall (λ p, 0 ≤ p.1 ∧ 0 ≤ p.2) ps →
  Forall (λ c, Ascii.eqb c " " = false) pre →
  split_on " " (pre ++ concat (map render_pair ps))
  = pre :: flat_map (λ p, [print_int p.1; print_int p.2]) ps.
Proof.
  induction ps as [|[d c] ps IH]; intros pre Hps Hpre.
  - simpl. rewrite app_nil_r. by apply split_on_none.
  - apply Forall_cons in Hps as [[Hd Hc] Hps]. simpl in Hd, Hc.
    cbn [map concat flat_map fst snd]. rewrite render_pair_app.
    rewrite split_on_app by done. f_equal.
    rewrite split_on_app by (by apply print_int_no_sep).
    cbn [app]. f_equal. apply IH; [done|]. by apply print_int_no_sep.
Qed.

Lemma pairs_format_ok_print (ps : list (Z * Z)) :
  Forall (λ p, 0 ≤ p.1 ∧ 0 ≤ p.2) ps →
  pairs_format_ok (flat_map (λ p, [print_int p.1; print_int p.2]) ps) = true.
Proof.
  induction 1 as [|[d c] ps [Hd Hc] _ IH]; [done|]. simpl in *.
  by rewrite !is_number_field_print, IH.
Qed.

Lemma islower_no_sep w s :
  Forall (λ c, islower c = true) w → isspace s = true →
  Forall (λ c, Ascii.eqb c s = false) w.
Proof.
  intros Hw Hs. eapply Forall_impl; [exact Hw|]. intros c Hc. simpl in Hc.
  apply not_space_neq; [by apply islower_facts|done].
Qed.

(** A line of the file: a normalized word and at least one pair of numbers
    that are not negative. *)
Lemma line_format_ok_render (w : string) (ps : list (Z * Z)) :
  normalized_word w = true → ps ≠ [] →
  Forall (λ p, 0 ≤ p.1 ∧ 0 ≤ p.2) ps →
  line_format_ok (list_ascii_of_string w ++ concat (map render_pair ps))
  = true.
Proof.
  intros Hw Hne Hps.
  destruct (normalized_word_chars w Hw) as (c & l & E & Hlow).
  unfold line_format_ok.
  rewrite split_render_pairs; [|done|rewrite E; by apply islower_no_sep].
  destruct ps as [|[d n] ps]; [done|]. cbn [flat_map app fst snd].
  rewrite <- (pairs_format_ok_print ((d, n) :: ps) Hps).
  cbn [flat_map app fst snd].
  replace (is_word_field (list_ascii_of_string w)) with true; [done|].
  symmetry. rewrite E. unfold is_word_field.
  apply forallb_forall. intros x Hx%list_elem_of_In.
  by eapply Forall_forall in Hlow.
Qed.

Lemma render_pairs_no_newline (ps : list (Z * Z)) :
  Forall (λ p, 0 ≤ p.1 ∧ 0 ≤ p.2) ps →
  Forall (λ c, Ascii.eqb c "010" = false) (concat (map render_pair ps)).
Proof.
  induction 1 as [|[d c] ps [Hd Hc] _ IH]; [constructor|].
  cbn [map concat]. rewrite render_pair_app.
  constructor; [done|]. apply Forall_app. split.
  - by apply print_int_no_sep.
  - constructor; [done|]. apply Forall_app. split; [|done].
    by apply print_int_no_sep.
Qed.

Lemma split_render_index (lines : list (string * list (Z * Z))) :
  Forall (λ line, normalized_word line.1 = true ∧
                  Forall (λ p, 0 ≤ p.1 ∧ 0 ≤ p.2) line.2) lines →
  split_on "010" (render_index lines)
  = map (λ line, list_ascii_of_string line.1
                 ++ concat (map render_pair line.2)) lines ++ [[]].
Proof.
  induction 1 as [|[w ps] lines [Hw Hps] _ IH]; [done|].
  unfold render_index in *. cbn [map concat app fst snd].
  unfold render_line at 1. cbn [fst snd].
  rewrite <- !app_assoc. rewrite (app_assoc (list_ascii_of_string w)).
  cbn [app]. rewrite split_on_app; [by rewrite IH|].
  apply Forall_app. split; [|by apply render_pairs_no_newline].
  destruct (normalized_word_chars w Hw) as (c & l & -> & Hlow).
  by apply islower_no_sep.
Qed.

Lemma render_index_format_ok (lines : list (string * list (Z * Z))) :
  Forall (λ line, normalized_word line.1 = true ∧ line.2 ≠ [] ∧
                  Forall (λ p, 0 ≤ p.1 ∧ 0 ≤ p.2) line.2) lines →
  index_file_format_ok (render_index lines) = true.
Proof.
  intros Hlines. unfold index_file_format_ok.
  rewrite split_render_index
    by (eapply Forall_impl; [exact Hlines|]; by intros ? (? & _ & ?)).
  rewrite rev_app_distr. cbn [rev app].
  apply forallb_forall. intros x Hx%in_rev.
  apply in_map_iff in Hx as ([w ps] & <- & Hin%list_elem_of_In).
  eapply Forall_forall in Hlines as (Hw & Hne & Hps); [|exact Hin].
  by apply line_format_ok_render.
Qed.

Lemma saved_lines_format_ok h0 index h :
  index_built h0 index h →
  (∀ w, is_Some (index !! w) → normalized_word w = true) →
  index_file_format_ok (index_save index h []) = true.
Proof.
  intros ([Halloc _] & Hnn & _ & Hne) Hwords.
  rewrite index_save_render. cbn [app].
  apply render_index_format_ok. unfold saved_lines.
  apply Forall_fmap, Forall_forall. intros [w l] Hin%elem_of_map_to_list.
  destruct (Halloc _ _ Hin) as [c Hc]. unfold compose. cbn [fst snd].
  rewrite Hc. cbn [default].
  assert (index_view index h !! w = Some c) as Hview
    by (by rewrite index_view_lookup, Hin).
  split; [by apply Hwords|]. split.
  - intros Hnil. apply map_to_list_empty_iff in Hnil. by eapply Hne.
  - apply Forall_forall. intros [d n] Hdn%elem_of_map_to_list.
    by apply (Hnn w c).
Qed.

Lemma index_insert_words (P : string → Prop) index w d h :
  P w → (∀ w', is_Some (index !! w') → P w') →
  ∀ w', is_Some ((index_insert index w d h).1 !! w') → P w'.
Proof.
  intros HP Hwords w'. unfold index_insert. destruct (d <? 0); [apply Hwords|].
  destruct (index !! w); simpl; [apply Hwords|].
  rewrite lookup_insert_is_Some. intros [<-|[_ H]]; [done|by apply Hwords].
Qed.

Lemma indexPage_words (P : string → Prop) page docID : ∀ index h,
  Forall (λ word, (3 ≤ String.length word)%nat → P (normalizeWord word)) page →
  (∀ w', is_Some (index !! w') → P w') →
  ∀ w', is_Some ((indexPage page docID index h).1 !! w') → P w'.
Proof.
  induction page as [|word page IH]; intros index h Hpage Hwords; [done|].
  apply Forall_cons in Hpage as [Hword Hpage]. rewrite indexPage_cons.
  destruct (Nat.leb_spec 3 (String.length word)).
  - apply IH; [done|]. apply index_insert_words; [by apply Hword|done].
  - by apply IH.
Qed.

Lemma indexBuild_loop_words (P : string → Prop) files : ∀ docID index h,
  (∀ page word, Some page ∈ files → word ∈ page →
     (3 ≤ String.length word)%nat → P (normalizeWord word)) →
  (∀ w', is_Some (index !! w') → P w') →
  ∀ w', is_Some ((indexBuild_loop files docID index h).1 !! w') → P w'.
Proof.
  induction files as [|page files IH]; intros docID index h Hfiles Hwords;
    [done|].
  cbn [indexBuild_loop].
  assert (∀ page' word, Some page' ∈ files → word ∈ page' →
            (3 ≤ String.length word)%nat → P (normalizeWord word)) as Hrest.
  { intros page' word Hin. apply Hfiles. by right. }
  destruct page as [page|]; [|by apply IH].
  pose proof (indexPage_words P page docID index h) as Hp.
  destruct (indexPage page docID index h) as [index' h'].
  apply IH; [done|]. apply Hp; [|done].
  apply Forall_forall. intros word Hword. apply (Hfiles page); [left|done].
Qed.

(** X6. When the pages consist of words of letters, the file that the
    indexer writes has the documented format: each line is a lowercase
    word followed by one or more pairs of numbers, the fields separated by
    single spaces, and every line ends with a newline. *)
Theorem indexer_writes_well_formed_file files h :
  Forall (from_option (Forall alphabetic) True) files →
  index_file_format_ok (indexer_main files h).1 = true.
Proof.
  intros Halpha. unfold indexer_main, indexBuild.
  pose proof (indexBuild_loop_built h files 1 (index_new 500) h
                (index_built_empty h)) as Hb.
  pose proof (indexBuild_loop_words (λ w, normalized_word w = true)
                files 1 (index_new 500) h) as Hw.
  destruct (indexBuild_loop files 1 (index_new 500) h) as [index h'].
  cbn [fst snd] in *. eapply saved_lines_format_ok; [exact Hb|].
  apply Hw.
  - intros page word Hpage Hword Hlen.
    eapply Forall_forall in Halpha; [|exact Hpage]. simpl in Halpha.
    apply normalizeWord_normalized; [|by eapply Forall_forall in Halpha].
    intros ->. simpl in Hlen. lia.
  - intros w' [l Hl]. rewrite index_new_empty in Hl.
    by rewrite lookup_empty in Hl.
Qed.

Lemma indexer_writes_well_formed_file_witness :
  Forall (from_option (Forall alphabetic) True)
    [Some ["The"; "cat"; "at"; "CAT"]; None; Some ["dog"; "Cat"]]%string ∧
  index_file_format_ok
    (indexer_main
       [Some ["The"; "cat"; "at"; "CAT"]; None; Some ["dog"; "Cat"]]%string
       ∅).1 = true.
Proof.
  assert (Forall (from_option (Forall alphabetic) True)
            [Some ["The"; "cat"; "at"; "CAT"]; None;
             Some ["dog"; "Cat"]]%string) as Hfiles
    by (repeat constructor).
  split; [exact Hfiles|].
  exact (indexer_writes_well_formed_file _ ∅ Hfiles).
Defined.

(** ** The score of a document *)

Lemma search_words_cons t chain :
  search_words (t :: chain)
  = if String.eqb t "and" then search_words chain
    else t :: search_words chain.
Proof.
  unfold search_words. cbn [List.filter]. by destruct (String.eqb t "and").
Qed.

Section score.
Context (find : string → option counters_t) (d : Z).
Hypothesis find_nonneg : ∀ w c, find w = Some c → counters_nonneg c.

Lemma get_nonneg w : 0 ≤ word_count find d w.
Proof.
  unfold word_count. destruct (find w) as [c|] eqn:E; simpl; [|done].
  destruct (c !! d) as [n|] eqn:En; simpl; [|done].
  by eapply find_nonneg.
Qed.

Lemma total_completeChain s :
  (chainBroken s = true → andAccumulator s = None) →
  or_count d (completeChain union_counts (andAccumulator s) (orAccumulator s))
  = kept_add (or_count d (orAccumulator s)) (default 0 (sequence_count d s)).
Proof.
  intros Hbr. unfold or_count, sequence_count, completeChain.
  destruct (andAccumulator s) as [a|] eqn:Ea; simpl.
  - destruct (chainBroken s); [by discriminate Hbr|]. simpl.
    rewrite union_counts_get. f_equal.
    destruct (orAccumulator s) as [o|]; simpl; [done|].
    by rewrite lookup_empty.
  - destruct (chainBroken s); simpl; by rewrite kept_add_0_r.
Qed.

Lemma acc_eval_score tokens : ∀ s,
  acc_nonneg s →
  (chainBroken s = true → andAccumulator s = None) →
  ∃ chain chains, and_chains tokens = chain :: chains ∧
    let s' := foldl (acc_step union_counts find) s tokens in
    or_count d
      (completeChain union_counts (andAccumulator s') (orAccumulator s'))
    = foldl kept_add
        (kept_add (or_count d (orAccumulator s))
           (default 0
              (foldl (least_count find d) (sequence_count d s)
                 (search_words chain))))
        (map (λ chain,
                default 0
                  (foldl (least_count find d) None (search_words chain)))
           chains).
Proof.
  induction tokens as [|t tokens IH]; intros s Hnn Hbr.
  - exists [], []. split; [done|]. cbn [foldl map].
    rewrite total_completeChain by done.
    change (search_words []) with ([] : list string). done.
  - pose proof (acc_step_nonneg find s t find_nonneg Hnn) as Hnn'.
    assert (chainBroken (acc_step union_counts find s t) = true →
            andAccumulator (acc_step union_counts find s t) = None) as Hbr'.
    { unfold acc_step. destruct (String.eqb t "or"); [done|].
      destruct (chainBroken s) eqn:Eb; [rewrite Eb; auto|].
      destruct (String.eqb t "and"); [by rewrite Eb|].
      destruct (find t); simpl; done. }
    destruct (IH _ Hnn' Hbr') as (chain & chains & Hch & Heq).
    cbn [foldl and_chains]. cbn zeta in Heq. rewrite Heq, Hch. clear Heq IH.
    unfold acc_step. destruct (String.eqb t "or") eqn:Eor.
    + exists [], (chain :: chains). split; [done|].
      cbn [andAccumulator orAccumulator chainBroken map foldl].
      rewrite total_completeChain by done.
      change (search_words []) with ([] : list string). cbn [foldl].
      unfold sequence_count at 2.
      by cbn [chainBroken andAccumulator fmap option_fmap option_map].
    + exists (t :: chain), chains. split; [done|].
      rewrite search_words_cons.
      destruct (chainBroken s) eqn:Eb.
      { assert (sequence_count d s = Some 0) as Hcur
          by (unfold sequence_count; by rewrite Eb).
        destruct (String.eqb t "and"); [done|].
        cbn [foldl]. rewrite Hcur. unfold least_count at 4.
        pose proof (get_nonneg t). by rewrite Z.min_l by done. }
      destruct (String.eqb t "and"); [done|].
      cbn [foldl].
      set (s1 := match find t with
                 | Some c => _
                 | None => _
                 end).
      assert (orAccumulator s1 = orAccumulator s) as ->
        by (unfold s1; by destruct (find t)).
      assert (sequence_count d s1
              = least_count find d (sequence_count d s) t) as ->; [|done].
      unfold s1, least_count, sequence_count. rewrite Eb. unfold word_count.
      destruct Hnn as [HA _].
      destruct (find t) as [c|] eqn:Ef;
        cbn [andAccumulator orAccumulator chainBroken].
      * destruct (andAccumulator s) as [a|]; simpl.
        -- rewrite minMergeInto_lookup.
           destruct (a !! d) as [n|]; simpl; [done|].
           f_equal. symmetry. apply Z.min_l.
           destruct (c !! d) as [m|] eqn:Em; simpl; [|done].
           by eapply find_nonneg.
        -- (* the copy holds the counts of the word *)
           by rewrite union_counts_empty_l by (by eapply find_nonneg).
      * destruct (andAccumulator s) as [a|] eqn:Ea; simpl; [|done].
        f_equal. symmetry. apply Z.min_r.
        destruct (a !! d) as [n|] eqn:En; simpl; [|done].
        by eapply HA.
Qed.
End score.

(** Counts that are not negative, added one after the other. *)
Lemma foldl_kept_add_nonneg (l : list Z) : ∀ total,
  Forall (λ c, 0 ≤ c) l → 0 ≤ total →
  0 ≤ foldl kept_add total l ∧
  (0 < foldl kept_add total l ↔ 0 < total ∨ ∃ c, c ∈ l ∧ 0 < c).
Proof.
  induction l as [|c l IH]; intros total Hl Ht; cbn [foldl].
  - split; [done|]. split; [by left|].
    intros [?|(c & ?%elem_of_nil & _)]; done.
  - apply Forall_cons in Hl as [Hc Hl].
    destruct (kept_add_nonneg total c Ht Hc) as [Hnn Hpos].
    destruct (IH (kept_add total c) Hl Hnn) as [Hnn' Hpos'].
    split; [done|]. rewrite Hpos', Hpos. split.
    + intros [[?|?]|(c' & Hin & ?)]; [by left|right..].
      * exists c. split; [left|done].
      * exists c'. split; [by right|done].
    + intros [?|(c' & [->|Hin]%elem_of_cons & ?)];
        [by left; left|by left; right|right; by exists c'].
Qed.

(** When the total fits an [int], the counts kept are all of them. *)
Lemma foldl_kept_add_sum (l : list Z) : ∀ total,
  Forall (λ c, 0 ≤ c) l → 0 ≤ total →
  total + foldr Z.add 0 l ≤ INT_MAX →
  foldl kept_add total l = total + foldr Z.add 0 l.
Proof.
  induction l as [|c l IH]; intros total Hl Ht Hfit; cbn [foldl foldr] in *.
  - lia.
  - apply Forall_cons in Hl as [Hc Hl].
    assert (0 ≤ foldr Z.add 0 l) as Hsum.
    { clear -Hl. induction Hl as [|x l Hx _ IHl]; cbn [foldr]; lia. }
    rewrite kept_add_fits by lia. rewrite IH by (done || lia). lia.
Qed.

Lemma find_get_stored index h w d :
  find_get index h w d = default 0 (stored index h w ≫= (.!! d)).
Proof.
  unfold find_get, counters_get, stored.
  by destruct (deref h (index_find index w)).
Qed.

Lemma counters_get_result (r : ptr * heap) d :
  counters_get r.2 r.1 d = default 0 (result_counts r !! d).
Proof.
  unfold counters_get, result_counts.
  destruct (deref r.2 r.1); simpl; [done|]. by rewrite lookup_empty.
Qed.

Lemma chain_score_least index h d chain :
  default 0 (foldl (least_count (stored index h) d) None (search_words chain))
  = chain_score index h d chain.
Proof.
  unfold chain_score. destruct (search_words chain) as [|w ws]; [done|].
  cbn [foldl]. unfold least_count at 2, word_count.
  rewrite <- find_get_stored.
  generalize (find_get index h w d). induction ws as [|w' ws IH]; intros m.
  - done.
  - cbn [foldl]. unfold least_count at 2, word_count.
    by rewrite <- find_get_stored, IH.
Qed.

Lemma find_get_nonneg index h w d :
  (∀ w c, stored index h w = Some c → counters_nonneg c) →
  0 ≤ find_get index h w d.
Proof.
  intros Hnn. rewrite find_get_stored.
  destruct (stored index h w) as [c|] eqn:E; simpl; [|done].
  destruct (c !! d) as [n|] eqn:En; simpl; [|done]. by eapply Hnn.
Qed.

Lemma foldl_min_pos (get : string → Z) (ws : list string) : ∀ m,
  0 < foldl (λ m w, Z.min m (get w)) m ws ↔
  0 < m ∧ ∀ w, w ∈ ws → 0 < get w.
Proof.
  induction ws as [|w ws IH]; intros m; cbn [foldl].
  - split; [|tauto]. intros Hm. split; [done|]. by intros w ?%elem_of_nil.
  - rewrite IH. split.
    + intros [Hmin Hws]. split; [lia|].
      intros w' [->|Hin]%elem_of_cons; [lia|by apply Hws].
    + intros [Hm Hws]. split.
      * assert (0 < get w) by (apply Hws; left). lia.
      * intros w' Hin. apply Hws. by right.
Qed.

Lemma chain_score_pos index h d chain :
  0 < chain_score index h d chain ↔
  search_words chain ≠ [] ∧
  ∀ w, w ∈ search_words chain → 0 < find_get index h w d.
Proof.
  unfold chain_score. destruct (search_words chain) as [|w ws].
  - split; [lia|]. by intros [? _].
  - rewrite foldl_min_pos. split.
    + intros [Hw Hws]. split; [done|].
      intros w' [->|Hin]%elem_of_cons; [done|by apply Hws].
    + intros [_ Hall]. split; [apply Hall; left|].
      intros w' Hin. apply Hall. by right.
Qed.

Lemma foldl_min_nonneg (get : string → Z) (ws : list string) : ∀ m,
  0 ≤ m → (∀ w, 0 ≤ get w) → 0 ≤ foldl (λ m w, Z.min m (get w)) m ws.
Proof.
  induction ws as [|w ws IH]; intros m Hm Hget; cbn [foldl]; [done|].
  apply IH; [|done]. specialize (Hget w). lia.
Qed.

Lemma chain_score_nonneg index h d chain :
  (∀ w c, stored index h w = Some c → counters_nonneg c) →
  0 ≤ chain_score index h d chain.
Proof.
  intros Hnn. unfold chain_score.
  destruct (search_words chain) as [|w ws]; [done|].
  apply foldl_min_nonneg; [by apply find_get_nonneg|].
  intros w'. by apply find_get_nonneg.
Qed.

Lemma acc_eval_kept_score tokens index h d :
  (∀ w c, stored index h w = Some c → counters_nonneg c) →
  default 0 (default ∅ (acc_eval union_counts (stored index h) tokens) !! d)
  = kept_score index h d tokens.
Proof.
  intros Hnn.
  destruct (acc_eval_score (stored index h) d Hnn tokens
              (AccState None None false)) as (chain & chains & Hch & Heq);
    [by split|done|].
  cbn zeta in Heq. unfold acc_eval.
  assert (∀ O : option counters_t,
            default 0 (default ∅ O !! d) = or_count d O) as ->.
  { intros [c|]; unfold or_count; simpl; [done|]. by rewrite lookup_empty. }
  rewrite Heq. unfold kept_score. rewrite Hch. cbn [map foldl].
  cbn [chainBroken andAccumulator orAccumulator fmap option_fmap option_map
       mbind option_bind default sequence_count or_count].
  rewrite chain_score_least. f_equal.
  apply map_ext. intros ch. apply chain_score_least.
Qed.

Lemma chain_scores_nonneg index h d (chains : list (list string)) :
  (∀ w c, stored index h w = Some c → counters_nonneg c) →
  Forall (λ c, 0 ≤ c) (map (chain_score index h d) chains).
Proof.
  intros Hnn. apply Forall_forall.
  intros c (chain & -> & _)%list_elem_of_fmap. by apply chain_score_nonneg.
Qed.

(** The count kept is the sum of the scores when that sum fits an [int]. *)
Lemma kept_score_fits index h d tokens :
  (∀ w c, stored index h w = Some c → counters_nonneg c) →
  query_score index h d tokens ≤ INT_MAX →
  kept_score index h d tokens = query_score index h d tokens.
Proof.
  intros Hnn Hfit. unfold kept_score, query_score in *.
  rewrite foldl_kept_add_sum; [lia|by apply chain_scores_nonneg|done|lia].
Qed.

Lemma kept_score_pos index h d tokens :
  (∀ w c, stored index h w = Some c → counters_nonneg c) →
  0 < kept_score index h d tokens ↔
  ∃ chain, chain ∈ and_chains tokens ∧ 0 < chain_score index h d chain.
Proof.
  intros Hnn. unfold kept_score.
  destruct (foldl_kept_add_nonneg
              (map (chain_score index h d) (and_chains tokens)) 0)
    as [_ ->]; [by apply chain_scores_nonneg|done|].
  split.
  - intros [?|(c & (chain & -> & Hin)%list_elem_of_fmap & Hc)]; [lia|].
    by exists chain.
  - intros (chain & Hin & Hc). right. exists (chain_score index h d chain).
    split; [|done]. apply list_elem_of_fmap. by exists chain.
Qed.

(** X7. With an index whose counts are not negative, the count that the
    result of [queryEvaluate] holds for a document comes from the scores of
    the and-sequences of the query (the runs of tokens between "or"s), a
    score being the least count of the document among the words of the
    sequence: the scores are added in turn, one that would take the [int]
    total past [INT_MAX] being left out; so the count is the sum of the
    scores whenever that sum is at most [INT_MAX]. *)
Theorem queryEvaluate_sums_minima tokens index h :
  index_alloc index h →
  (∀ w c, stored index h w = Some c → counters_nonneg c) →
  ∀ d, counters_get (queryEvaluate tokens index h).2
         (queryEvaluate tokens index h).1 d
       = kept_score index h d tokens ∧
       (query_score index h d tokens ≤ INT_MAX →
        counters_get (queryEvaluate tokens index h).2
          (queryEvaluate tokens index h).1 d
        = query_score index h d tokens).
Proof.
  intros Halloc Hnn d.
  (* the result object holds what the accumulators of the state machine
     hold, and those add up the least counts *)
  rewrite counters_get_result, queryEvaluate_counts by done.
  rewrite acc_eval_kept_score by done.
  split; [done|]. by apply kept_score_fits.
Qed.

Lemma pets_index_built : index_built ∅ pets_index pets_heap.
Proof.
  pose proof (index_build_built
                [("cat", 1); ("cat", 5); ("cat", 5); ("dog", 2); ("dog", 5);
                 ("dog", 5); ("dog", 5); ("fish", 2)]%string ∅) as Hb.
  by rewrite pets_built in Hb.
Qed.

Lemma stored_nonneg index h :
  index_nonneg index h →
  ∀ w c, stored index h w = Some c → counters_nonneg c.
Proof.
  intros Hnn w c Hs d n Hd. eapply (Hnn w c d n); [|done].
  rewrite index_view_lookup. unfold stored, deref, index_find in Hs.
  by destruct (index !! w).
Qed.

Lemma pets_nonneg :
  ∀ w c, stored pets_index pets_heap w = Some c → counters_nonneg c.
Proof. apply stored_nonneg, pets_index_built. Qed.


Lemma queryEvaluate_sums_minima_witness :
  index_alloc pets_index pets_heap ∧
  counters_get
    (queryEvaluate ["cat"; "and"; "dog"; "or"; "fish"; "or"; "cat"]%string
       pets_index pets_heap).2
    (queryEvaluate ["cat"; "and"; "dog"; "or"; "fish"; "or"; "cat"]%string
       pets_index pets_heap).1 5
  = 4.
Proof.
  split; [exact pets_alloc|].
  apply (proj2 (queryEvaluate_sums_minima
                  ["cat"; "and"; "dog"; "or"; "fish"; "or"; "cat"]%string
                  pets_index pets_heap pets_alloc pets_nonneg 5)).
  by vm_compute.
Defined.

(** ** Which documents match *)

(** X8. With an index whose counts are not negative, a document has a
    positive count in the result of [queryEvaluate] exactly when some
    and-sequence of the query has a word and the document has a positive
    count for every word of that sequence. *)
Theorem document_matches_some_sequence tokens index h :
  index_alloc index h →
  (∀ w c, stored index h w = Some c → counters_nonneg c) →
  ∀ d, 0 < counters_get (queryEvaluate tokens index h).2
             (queryEvaluate tokens index h).1 d ↔
       ∃ chain, chain ∈ and_chains tokens ∧ search_words chain ≠ [] ∧
         ∀ w, w ∈ search_words chain → 0 < find_get index h w d.
Proof.
  intros Halloc Hnn d.
  rewrite counters_get_result, queryEvaluate_counts, acc_eval_kept_score
    by done.
  rewrite kept_score_pos by done.
  by setoid_rewrite chain_score_pos.
Qed.

Lemma document_matches_some_sequence_witness :
  index_alloc pets_index pets_heap ∧
  0 < counters_get
        (queryEvaluate ["cat"; "and"; "dog"; "or"; "fish"]%string
           pets_index pets_heap).2
        (queryEvaluate ["cat"; "and"; "dog"; "or"; "fish"]%string
           pets_index pets_heap).1 5.
Proof.
  split; [exact pets_alloc|].
  apply (proj2 (document_matches_some_sequence
                  ["cat"; "and"; "dog"; "or"; "fish"]%string
                  pets_index pets_heap pets_alloc pets_nonneg 5)).
  exists ["cat"; "and"; "dog"]%string. split; [left|]. split; [done|].
  intros w Hw. change (search_words ["cat"; "and"; "dog"]%string)
    with ["cat"; "dog"]%string in Hw.
  apply elem_of_cons in Hw as [->|Hw]; [reflexivity|].
  apply elem_of_cons in Hw as [->|Hw]; [reflexivity|].
  by apply elem_of_nil in Hw.
Defined.

(** ** The evaluator frees what it allocates *)

Lemma tidy_matchMerge h0 st s :
  sim h0 st s → eval_tidy h0 st → eval_tidy h0 (matchMerge st).
Proof.
  destruct st as [a o inv h], s as [A O b].
  unfold sim, owns, eval_tidy, matchMerge; simpl.
  intros (Hfr & Ha & Ho & Hne & Hinv) Htidy.
  destruct a as [la|], A as [ca|]; try done; simpl.
  destruct Ha as [Ha0 Ha].
  destruct o as [lo|], O as [co|]; try done; simpl.
  - destruct Ho as [Ho0 Ho].
    assert (la ≠ lo) as Hlalo by (intros ->; by eapply Hne).
    rewrite (unionCounters_spec h lo la co ca) by done.
    intros l _ Hl. destruct (decide (l = la)) as [->|Hla].
    + by rewrite lookup_delete_eq.
    + rewrite lookup_delete_ne, lookup_insert_ne by congruence.
      apply Htidy; congruence.
  - pose proof (fresh_not_alloc h) as Hfresh.
    set (l0 := fresh (dom h)) in *.
    assert (la ≠ l0) as Hlal by congruence.
    rewrite (unionCounters_spec (<[l0:=∅]> h) l0 la ∅ ca)
      by (by rewrite ?lookup_insert_eq, ?lookup_insert_ne).
    rewrite insert_insert_eq.
    intros l _ Hl. destruct (decide (l = la)) as [->|Hla].
    + by rewrite lookup_delete_eq.
    + rewrite lookup_delete_ne, lookup_insert_ne by congruence.
      apply Htidy; congruence.
Qed.

Lemma tidy_step index h0 st s word :
  index_alloc index h0 →
  sim h0 st s → eval_tidy h0 st →
  eval_tidy h0 (queryEvaluate_step index st word).
Proof.
  intros Halloc Hsim Htidy.
  unfold queryEvaluate_step.
  destruct (String.eqb word "or").
  { pose proof (tidy_matchMerge h0 st s Hsim Htidy) as Ht. revert Ht.
    destruct (matchMerge st) as [a o inv h]. unfold eval_tidy; simpl. tauto. }
  destruct Hsim as (Hfr & Ha & Ho & Hne & Hinv).
  destruct (andSequenceInvalid st) eqn:Einv; [done|].
  destruct (String.eqb word "and"); [done|].
  destruct (index_find index word) as [wm|] eqn:Efind; simpl.
  - destruct (Halloc _ _ Efind) as [cw Hcw].
    pose proof (Hfr _ _ Hcw) as Hcw'.
    destruct st as [a o inv h], s as [A O b]; simpl in *.
    unfold eval_tidy in *; simpl in *.
    destruct a as [la|], A as [ca|]; try done; simpl.
    + destruct Ha as [Ha0 Ha].
      rewrite (intersectCounters_spec h la wm ca cw) by done.
      intros l Hl1 Hl2. rewrite lookup_insert_ne by congruence.
      by apply Htidy.
    + pose proof (fresh_not_alloc h) as Hfresh.
      set (l0 := fresh (dom h)) in *.
      assert (wm ≠ l0) as Hwl by congruence.
      change (counters_iterate (Some wm) (callbackAddCounts (Some l0))
                (<[l0:=∅]> h) (<[l0:=∅]> h))
        with (unionCounters (Some l0) (Some wm) (<[l0:=∅]> h)).
      rewrite (unionCounters_spec (<[l0:=∅]> h) l0 wm ∅ cw)
        by (by rewrite ?lookup_insert_eq, ?lookup_insert_ne).
      rewrite insert_insert_eq.
      intros l Hl1 Hl2. rewrite lookup_insert_ne by congruence.
      by apply Htidy.
  - destruct st as [a o inv h], s as [A O b]; simpl in *.
    unfold eval_tidy in *; simpl in *.
    intros l _ Hl. destruct a as [la|]; simpl; [|by apply Htidy].
    destruct A as [ca|]; [|done]. destruct Ha as [Ha0 Ha].
    destruct (decide (l = la)) as [->|Hla].
    + by rewrite lookup_delete_eq.
    + rewrite lookup_delete_ne by congruence. apply Htidy; congruence.
Qed.

Lemma tidy_foldl index h0 words : ∀ st s,
  index_alloc index h0 →
  sim h0 st s → eval_tidy h0 st →
  eval_tidy h0 (foldl (queryEvaluate_step index) st words).
Proof.
  induction words as [|w words IH]; intros st s Halloc Hsim Htidy; [done|].
  simpl. eapply IH; [done|by apply sim_step|by eapply tidy_step].
Qed.

Lemma queryEvaluate_heap words index h :
  index_alloc index h →
  match (queryEvaluate words index h).1 with
  | Some l =>
      h !! l = None ∧
      (queryEvaluate words index h).2
      = <[l := result_counts (queryEvaluate words index h)]> h
  | None => (queryEvaluate words index h).2 = h
  end.
Proof.
  intros Halloc. unfold queryEvaluate, result_counts. cbn [fst snd].
  assert (sim h (EvalState None None false h) (AccState None None false))
    as Hsim by (by unfold sim).
  assert (eval_tidy h (EvalState None None false h)) as Htidy by done.
  pose proof (tidy_foldl index h words _ _ Halloc Hsim Htidy) as Htidy'.
  apply (sim_foldl index h words) in Hsim; [|done].
  pose proof (tidy_matchMerge _ _ _ Hsim Htidy') as Htidy2.
  apply sim_matchMerge in Hsim.
  pose proof (matchMerge_andSequence
                (foldl (queryEvaluate_step index)
                   (EvalState None None false h) words)) as Hand.
  destruct (matchMerge _) as [a o inv h1].
  destruct Hsim as (Hfr & _ & Ho & _). unfold eval_tidy in Htidy2.
  simpl in *. subst a. unfold owns in Ho.
  destruct o as [lo|].
  - destruct (completeChain _ _) as [c|]; [|done]. destruct Ho as [Ho0 Ho].
    split; [done|]. simpl. rewrite Ho. simpl.
    apply map_eq. intros l. destruct (decide (l = lo)) as [->|Hne].
    + by rewrite lookup_insert_eq.
    + rewrite lookup_insert_ne by done. apply Htidy2; congruence.
  - apply map_eq. intros l. by apply Htidy2.
Qed.

(** X9. [queryEvaluate] frees every intermediate accumulator: when it
    returns, the heap is the heap it was called with and, if the result is
    not [NULL], the result object at a location that was not in use; once
    the caller frees the result the heap is as before the call. *)
Theorem queryEvaluate_leaves_only_result words index h :
  index_alloc index h →
  let r := queryEvaluate words index h in
  match r.1 with
  | Some l => h !! l = None ∧ r.2 = <[l := result_counts r]> h
  | None => r.2 = h
  end ∧
  counters_delete r.1 r.2 = h.
Proof.
  intros Halloc r. pose proof (queryEvaluate_heap words index h Halloc) as Hh.
  fold r in Hh. split; [exact Hh|].
  destruct r.1 as [l|]; cbn [counters_delete]; [|done].
  destruct Hh as [Hl Hr]. rewrite Hr. by rewrite delete_insert_eq, delete_id.
Qed.

Lemma queryEvaluate_leaves_only_result_witness :
  index_alloc pets_index pets_heap ∧
  counters_delete
    (queryEvaluate ["cat"; "and"; "dog"; "or"; "bird"; "or"; "fish"]%string
       pets_index pets_heap).1
    (queryEvaluate ["cat"; "and"; "dog"; "or"; "bird"; "or"; "fish"]%string
       pets_index pets_heap).2
  = pets_heap.
Proof.
  split; [exact pets_alloc|].
  apply (queryEvaluate_leaves_only_result
           ["cat"; "and"; "dog"; "or"; "bird"; "or"; "fish"]%string
           pets_index pets_heap pets_alloc).
Defined.

(** ** The main loop of the querier *)

Lemma processQuery_heap qsort query index pageDirectory h :
  index_alloc index h →
  (processQuery qsort query index pageDirectory h).1.2 = false →
  (processQuery qsort query index pageDirectory h).2 = h.
Proof.
  intros Halloc. unfold processQuery.
  destruct (negb (isValidCharacters query)); [done|].
  destruct (tk_t _ =? 0); [done|].
  destruct (negb (isValidQuerySyntax _)); [done|].
  pose proof (queryEvaluate_heap
                (map (word_at (tk_buf (queryTokenize query (query_maxWords query))))
                   (tk_words (queryTokenize query (query_maxWords query))))
                index h Halloc) as Hh.
  destruct (queryEvaluate _ index h) as [result h1].
  destruct (printRankedResults qsort result pageDirectory h1) as [out exited].
  cbn [fst snd] in *. intros ->.
  destruct result as [l|]; cbn [counters_delete]; [|done].
  destruct Hh as [Hl ->]. by rewrite delete_insert_eq, delete_id.
Qed.

(** X10. Queries do not influence one another: when no page file is
    missing, the loop of the querier prints, for each input line in turn,
    the prompt (on a terminal), what [processQuery] prints for that line on
    the index as loaded, and the rule; it ends with a last prompt, and the
    heap is what it was before the first query. *)
Theorem queries_are_independent qsort tty lines index pageDirectory h :
  index_alloc index h →
  Forall (λ query,
            (processQuery qsort query index pageDirectory h).1.2 = false)
    lines →
  query_loop qsort tty lines index pageDirectory h
  = (flat_map (λ query,
                 prompt tty
                 ++ map QueryOutput
                      (processQuery qsort query index pageDirectory h).1.1
                 ++ [QueryRule]) lines
     ++ prompt tty, false, h).
Proof.
  intros Halloc. induction 1 as [|query lines Hq _ IH]; [done|].
  cbn [query_loop flat_map].
  pose proof (processQuery_heap qsort query index pageDirectory h Halloc Hq)
    as Hh.
  destruct (processQuery qsort query index pageDirectory h)
    as [[out exited] h1].
  cbn [fst snd] in *. subst. rewrite IH.
  by rewrite <- !app_assoc.
Qed.

Lemma queries_are_independent_witness :
  index_alloc pets_index pets_heap ∧
  (query_loop merge_qsort true
     [list_ascii_of_string "cat and dog"; list_ascii_of_string "and";
      list_ascii_of_string "Fish OR bird"]
     pets_index (λ _, Some "url"%string) pets_heap).2
  = pets_heap.
Proof.
  split; [exact pets_alloc|].
  rewrite (queries_are_independent merge_qsort true
             [list_ascii_of_string "cat and dog"; list_ascii_of_string "and";
              list_ascii_of_string "Fish OR bird"]
             pets_index (λ _, Some "url"%string) pets_heap pets_alloc).
  - reflexivity.
  - repeat constructor.
Defined.

Lemma query_loop_heap qsort tty lines index pageDirectory : ∀ h,
  index_alloc index h →
  (query_loop qsort tty lines index pageDirectory h).1.2 = false →
  (query_loop qsort tty lines index pageDirectory h).2 = h.
Proof.
  induction lines as [|query lines IH]; intros h Halloc; [done|].
  cbn [query_loop].
  pose proof (processQuery_heap qsort query index pageDirectory h Halloc)
    as Hh.
  destruct (processQuery qsort query index pageDirectory h)
    as [[out exited] h1].
  cbn [fst snd] in *. destruct exited; [done|]. rewrite Hh by done.
  specialize (IH h Halloc).
  destruct (query_loop qsort tty lines index pageDirectory h)
    as [[rest exited] h2].
  cbn [fst snd] in *. done.
Qed.

(** X11. The querier ends with the heap it started with: whatever the
    index file and the queries are, when [main] returns (no page file was
    missing) the index that [index_load] built and every counters object
    of the evaluator have been freed. *)
Theorem querier_frees_everything qsort tty indexFile lines pageDirectory h :
  ∀ out h', querier_main qsort tty indexFile lines pageDirectory h
            = Some (out, false, h') →
            h' = h.
Proof.
  intros out h'. unfold querier_main.
  destruct (index_load (Some indexFile) h) as [| | |index h1] eqn:Eload;
    [done..|].
  apply index_load_Loaded in Eload.
  pose proof (load_words_built h _ _ _ _ _ _ (index_built_empty h) Eload)
    as ([Halloc _] & _ & Hown & _).
  pose proof (query_loop_heap qsort tty lines index pageDirectory h1 Halloc)
    as Hh.
  destruct (query_loop qsort tty lines index pageDirectory h1)
    as [[out1 exited] h2].
  cbn [fst snd] in *. intros [= <- -> <-]. rewrite Hh by done.
  by apply index_delete_owned.
Qed.

Lemma querier_frees_everything_witness :
  ∃ out h',
    querier_main merge_qsort false
      (list_ascii_of_string "cat 1 1 5 2
dog 2 1 5 3
")
      [list_ascii_of_string "cat and dog"; list_ascii_of_string "dog or"]
      (λ _, Some "url"%string) pets_heap
    = Some (out, false, h') ∧
    h' = pets_heap.
Proof.
  eexists _, _. split; [by vm_compute|].
  eapply (querier_frees_everything merge_qsort false
            (list_ascii_of_string "cat 1 1 5 2
dog 2 1 5 3
")
            [list_ascii_of_string "cat and dog"; list_ascii_of_string "dog or"]
            (λ _, Some "url"%string) pets_heap).
  by vm_compute.
Defined.

(** ** What the ranker prints *)

Lemma print_results_lines pageDirectory (scores : list docScore_t) :
  ((print_results pageDirectory scores).2 = false →
   (print_results pageDirectory scores).1
   = map (λ ds, ResultLine (score ds) (docID ds)
                  (default ""%string (pageDirectory (docID ds)))) scores) ∧
  ((print_results pageDirectory scores).2 = true ↔
   Exists (λ ds, pageDirectory (docID ds) = None) scores).
Proof.
  induction scores as [|ds scores [IH1 IH2]]; cbn [print_results].
  - split; [done|]. split; [done|]. by intros ?%Exists_nil.
  - destruct (pageDirectory (docID ds)) as [url|] eqn:E.
    + destruct (print_results pageDirectory scores) as [out exited].
      cbn [fst snd map] in *. rewrite E. split.
      * intros ->. by rewrite IH1.
      * rewrite IH2, Exists_cons. split; [tauto|].
        intros [?|?]; [congruence|done].
    + cbn [fst snd]. split; [done|]. split; [|done].
      intros _. by left.
Qed.

Lemma printedCount_positive result h :
  counters_iterate result callbackCountNonZero h 0
  = Z.of_nat (length (positive_scores (default ∅ (deref h result)))).
Proof.
  unfold counters_iterate, positive_scores. rewrite length_fmap.
  destruct (deref h result) as [c|]; simpl; [|by rewrite map_to_list_empty].
  by rewrite count_nonzero_fold.
Qed.

Lemma positive_scores_nil (c : counters_t) :
  positive_scores c = [] ↔ ∀ d s, c !! d = Some s → s ≤ 0.
Proof.
  unfold positive_scores. split.
  - intros Hnil d s Hd. destruct (decide (0 < s)) as [Hs|]; [|lia].
    assert ((d, s) ∈ filter (λ kv : Z * Z, 0 < kv.2) (map_to_list c)) as Hin
      by (apply list_elem_of_filter; split; [done|by apply elem_of_map_to_list]).
    destruct (filter _ (map_to_list c)) as [|kv l]; [|done].
    by apply elem_of_nil in Hin.
  - intros Hall. destruct (filter _ (map_to_list c)) as [|[d s] l] eqn:E;
      [done|].
    assert ((d, s) ∈ filter (λ kv : Z * Z, 0 < kv.2) (map_to_list c)) as Hin
      by (rewrite E; left).
    apply list_elem_of_filter in Hin as [Hs Hin%elem_of_map_to_list].
    specialize (Hall d s Hin). simpl in Hs. lia.
Qed.

Lemma printRankedResults_cases qsort result pageDirectory h :
  printRankedResults qsort result pageDirectory h
  = match positive_scores (default ∅ (deref h result)) with
    | [] => ([NoDocumentsMatch], false)
    | pos =>
        (MatchesHeader (Z.of_nat (length pos))
           :: (print_results pageDirectory (rankedScores qsort result h)).1,
         (print_results pageDirectory (rankedScores qsort result h)).2)
    end.
Proof.
  unfold printRankedResults. rewrite printedCount_positive.
  destruct (positive_scores (default ∅ (deref h result))) as [|ds pos];
    [done|].
  replace (Z.of_nat (length (ds :: pos)) =? 0) with false
    by (symmetry; apply Z.eqb_neq; cbn [length]; lia).
  by destruct (print_results pageDirectory (rankedScores qsort result h)).
Qed.

(** X12. [printRankedResults] prints "No documents match." exactly when the
    result has no entry with a positive count (a [NULL] result, or entries
    that are all 0).  Otherwise the header gives the number of entries with
    a positive count; when every page file can be opened there are as many
    result lines, one for each element of the sorted array, with its
    score, its document and the first line of the document's file, and
    the process exits exactly when a page file is missing. *)
Theorem ranker_output qsort result pageDirectory h :
  (∀ cmp l, qsort cmp l ≡ₚ l) →
  let c := default ∅ (deref h result) in
  let ranked := rankedScores qsort result h in
  let printed := printRankedResults qsort result pageDirectory h in
  (printed = ([NoDocumentsMatch], false) ↔ ∀ d s, c !! d = Some s → s ≤ 0) ∧
  ((∃ d s, c !! d = Some s ∧ 0 < s) →
   ∃ lines,
     printed.1
     = MatchesHeader (Z.of_nat (length (positive_scores c))) :: lines ∧
     (printed.2 = true ↔
      Exists (λ ds, pageDirectory (docID ds) = None) ranked) ∧
     (printed.2 = false →
      length lines = length (positive_scores c) ∧
      lines = map (λ ds, ResultLine (score ds) (docID ds)
                           (default ""%string (pageDirectory (docID ds))))
                ranked)).
Proof.
  intros Hperm c ranked printed.
  pose proof (rankedScores_Permutation qsort Hperm result h) as Hranked.
  fold c ranked in Hranked.
  unfold printed. rewrite printRankedResults_cases. fold c ranked.
  rewrite <- positive_scores_nil.
  destruct (positive_scores c) as [|ds0 pos] eqn:Epos.
  - split; [done|]. intros (d & s & Hd & Hs). exfalso.
    assert (s ≤ 0); [|lia]. eapply positive_scores_nil; done.
  - pose proof (print_results_lines pageDirectory ranked) as [Hlines Hexit].
    cbn [fst snd]. split; [done|]. intros _.
    exists (print_results pageDirectory ranked).1.
    split; [done|]. split; [done|]. intros Hok. rewrite Hlines by done.
    split; [|done]. by rewrite length_map, Hranked.
Qed.

Lemma ranker_output_witness :
  (∀ cmp l, merge_qsort cmp l ≡ₚ l) ∧
  (printRankedResults merge_qsort (Some 2%positive) (λ _, Some "url"%string)
     pets_heap).2 = false ∧
  length (printRankedResults merge_qsort (Some 2%positive)
            (λ _, Some "url"%string) pets_heap).1 = 3%nat.
Proof.
  split; [exact merge_qsort_Permutation|]. split; [reflexivity|].
  destruct (proj2 (ranker_output merge_qsort (Some 2%positive)
                     (λ _, Some "url"%string) pets_heap
                     merge_qsort_Permutation))
    as (lines & -> & _ & Hlen).
  - by exists 2, 1.
  - destruct (Hlen eq_refl) as [Hl _]. cbn [length]. rewrite Hl. reflexivity.
Defined.

(** ** A valid query has no empty and-sequence *)

Lemma and_chains_step w tokens :
  and_chains (w :: tokens)
  = if String.eqb w "or" then [] :: and_chains tokens
    else match and_chains tokens with
         | chain :: chains => (w :: chain) :: chains
         | [] => [[w]]
         end.
Proof. done. Qed.

Lemma valid_tail_sequences tokens :
  tokens ≠ [] →
  is_operator (List.last tokens ""%string) = false →
  consecutive_operators tokens = false →
  Forall (λ chain, search_words chain ≠ [])
    (match tokens with
     | w :: _ =>
         if String.eqb w "or" then tail (and_chains tokens)
         else and_chains tokens
     | [] => []
     end).
Proof.
  induction tokens as [|w ts IH]; [done|]. intros _ Hlast Hcons.
  rewrite and_chains_step.
  destruct ts as [|w' ts'].
  - cbn [List.last] in Hlast.
    destruct (is_operator_false w Hlast) as [-> Hand].
    cbn [and_chains]. constructor; [|constructor].
    rewrite search_words_cons, Hand. done.
  - change (List.last (w :: w' :: ts') ""%string)
      with (List.last (w' :: ts') ""%string) in Hlast.
    cbn [consecutive_operators] in Hcons.
    apply orb_false_elim in Hcons as [Hww Hcons].
    specialize (IH ltac:(done) Hlast Hcons).
    destruct (and_chains_cons (w' :: ts')) as (c & cs & Hch).
    rewrite Hch in *.
    destruct (String.eqb w "or") eqn:Ewor.
    + cbn [tail].
      assert (is_operator w = true) as Hw
        by (unfold is_operator; rewrite Ewor; apply orb_true_r).
      rewrite Hw, andb_true_r in Hww.
      destruct (is_operator_false w' Hww) as [Hor' _].
      by rewrite Hor' in IH.
    + destruct (String.eqb w "and") eqn:Ewand.
      * assert (is_operator w = true) as Hw
          by (unfold is_operator; by rewrite Ewand).
        rewrite Hw, andb_true_r in Hww.
        destruct (is_operator_false w' Hww) as [Hor' _].
        rewrite Hor' in IH. apply Forall_cons in IH as [Hc Hcs].
        constructor; [|done]. by rewrite search_words_cons, Ewand.
      * constructor; [by rewrite search_words_cons, Ewand|].
        destruct (String.eqb w' "or") eqn:Ew'or.
        -- done.
        -- by apply Forall_cons in IH as [_ ?].
Qed.

(** X13. In a query that passes [isValidQuerySyntax] every and-sequence
    (run of tokens between "or"s) has at least one search word, so the
    evaluator never completes a sequence without having looked up a
    word. *)
Theorem valid_query_sequences_have_words tokens :
  isValidQuerySyntax tokens = true →
  Forall (λ chain, search_words chain ≠ []) (and_chains tokens).
Proof.
  unfold isValidQuerySyntax. destruct tokens as [|w0 ts] eqn:E; [done|].
  rewrite <- E. destruct (is_operator w0) eqn:Ew0; [done|].
  destruct (is_operator (List.last tokens ""%string)) eqn:El; [done|].
  intros Hcons%negb_true_iff.
  pose proof (valid_tail_sequences tokens) as H. rewrite E in *.
  destruct (is_operator_false w0 Ew0) as [Hor _]. rewrite Hor in H.
  by apply H.
Qed.

Lemma valid_query_sequences_have_words_witness :
  isValidQuerySyntax ["cat"; "and"; "dog"; "or"; "fish"]%string = true ∧
  Forall (λ chain, search_words chain ≠ [])
    (and_chains ["cat"; "and"; "dog"; "or"; "fish"]%string).
Proof.
  split; [reflexivity|].
  apply valid_query_sequences_have_words. reflexivity.
Defined.

(** ** A query is read as its lowercase tokens *)

Lemma isValidCharacters_no_NUL query :
  isValidCharacters query = true → Forall (λ c, c ≠ NUL) query.
Proof.
  unfold isValidCharacters. intros H. apply Forall_forall.
  intros c Hc%list_elem_of_In ->.
  by eapply forallb_forall in H; [|exact Hc].
Qed.

Lemma queryTokenize_words query :
  Forall (λ c, c ≠ NUL) query →
  tk_t (queryTokenize query (query_maxWords query))
  = Z.of_nat (length (ws_tokens query)) ∧
  map (word_at (tk_buf (queryTokenize query (query_maxWords query))))
    (tk_words (queryTokenize query (query_maxWords query)))
  = map lowercase (ws_tokens query).
Proof.
  intros Hnul. pose proof (ws_tokens_bound query) as Hbound.
  destruct (tokenize_loop_suffix (query_maxWords query) (length query) query
              (le_n _) Hnul (S (length query)) [] [] 0)
    as (buf & offs & Heq & Hlen & Hwords); [lia|lia|].
  change ([] ++ query) with query in Heq.
  change (@length ascii []) with 0%nat in Heq.
  unfold queryTokenize. rewrite Heq. cbn [tk_t tk_buf tk_words app].
  rewrite map_id. split; [lia|done].
Qed.

Lemma processQuery_words qsort query index pageDirectory h :
  isValidCharacters query = true →
  processQuery qsort query index pageDirectory h
  = let words := map lowercase (ws_tokens query) in
    if negb (isValidQuerySyntax words) then ([], false, h)
    else
      let '(result, h1) := queryEvaluate words index h in
      let '(out, exited) := printRankedResults qsort result pageDirectory h1 in
      (QueryEcho words :: out, exited,
       if exited then h1 else counters_delete result h1).
Proof.
  intros Hvalid. unfold processQuery. rewrite Hvalid. cbn [negb].
  destruct (queryTokenize_words query (isValidCharacters_no_NUL _ Hvalid))
    as [Ht Hwords].
  rewrite Ht, Hwords. cbn zeta.
  destruct (Z.eqb_spec (Z.of_nat (length (ws_tokens query))) 0) as [Hz|];
    [|done].
  destruct (ws_tokens query); [done|]. cbn [length] in Hz. lia.
Qed.

(** X14. [processQuery] sees a query line only through its lowercase
    tokens: two lines of letters and white space that have the same words
    up to case and spacing print the same, exit alike and leave the same
    heap; the echo of a line that passes the syntax check shows its
    lowercase tokens. *)
Theorem processQuery_ignores_case_and_spacing qsort query1 query2 index
    pageDirectory h :
  isValidCharacters query1 = true → isValidCharacters query2 = true →
  map lowercase (ws_tokens query1) = map lowercase (ws_tokens query2) →
  processQuery qsort query1 index pageDirectory h
  = processQuery qsort query2 index pageDirectory h ∧
  (isValidQuerySyntax (map lowercase (ws_tokens query1)) = true →
   head (processQuery qsort query1 index pageDirectory h).1.1
   = Some (QueryEcho (map lowercase (ws_tokens query1)))).
Proof.
  intros H1 H2 Heq. rewrite !processQuery_words by done. cbn zeta.
  rewrite <- Heq. split; [done|]. intros ->. cbn [negb].
  destruct (queryEvaluate _ index h) as [result h1].
  by destruct (printRankedResults qsort result pageDirectory h1).
Qed.

Lemma processQuery_ignores_case_and_spacing_witness :
  isValidCharacters (list_ascii_of_string "Cat AND  dog") = true ∧
  isValidCharacters (list_ascii_of_string "  cat and DOG ") = true ∧
  processQuery merge_qsort (list_ascii_of_string "Cat AND  dog")
    pets_index (λ _, Some "url"%string) pets_heap
  = processQuery merge_qsort (list_ascii_of_string "  cat and DOG ")
      pets_index (λ _, Some "url"%string) pets_heap.
Proof.
  split; [reflexivity|]. split; [reflexivity|].
  apply (processQuery_ignores_case_and_spacing merge_qsort
           (list_ascii_of_string "Cat AND  dog")
           (list_ascii_of_string "  cat and DOG ")
           pets_index (λ _, Some "url"%string) pets_heap);
    reflexivity.
Defined.

(** ** The tokenizer stays within [words] for every [maxWords] *)

Lemma rd_not_NUL buf i : rd buf i ≠ NUL → (i < length buf)%nat.
Proof.
  intros H. destruct (Nat.lt_ge_cases i (length buf)) as [|Hge]; [done|].
  by apply rd_overflow in Hge.
Qed.

Lemma tokenize_loop_bounds maxWords fuel : ∀ buf words t start,
  t = Z.of_nat (length words) → t ≤ maxWords →
  Forall (λ off, (off < length buf)%nat) words →
  let tk := tokenize_loop fuel maxWords buf words t start in
  tk_t tk ≤ maxWords ∧
  length (tk_buf tk) = length buf ∧
  Forall (λ off, (off < length buf)%nat) (tk_words tk) ∧
  (tk_truncated tk = true → tk_t tk = maxWords).
Proof.
  induction fuel as [|fuel IH]; intros buf words t start Ht Hmax Hoffs;
    cbn [tokenize_loop]; [done|].
  destruct (Ascii.eqb (rd buf start) NUL); [done|].
  set (start' := skip_space (length buf) buf start).
  destruct (Ascii.eqb_spec (rd buf start') NUL) as [|Hstart']; [done|].
  apply rd_not_NUL in Hstart'.
  destruct (lower_word_props (length buf) buf start') as (Hlen & _ & _).
  destruct (lower_word (length buf) buf start') as [buf' e].
  cbn [fst snd] in Hlen.
  destruct (Z.ltb_spec t maxWords) as [Hlt|Hge].
  - assert (Forall (λ off, (off < length buf')%nat) (words ++ [start']))
      as Hoffs'.
    { rewrite Hlen. apply Forall_app. split; [done|]. by constructor. }
    assert (t + 1 = Z.of_nat (length (words ++ [start']))) as Ht'
      by (rewrite length_app; cbn [length]; lia).
    destruct (Ascii.eqb (rd buf' e) NUL).
    + destruct (IH buf' (words ++ [start']) (t + 1) e Ht' ltac:(lia) Hoffs')
        as (H1 & H2 & H3 & H4).
      rewrite Hlen in *. done.
    + destruct (IH (<[e := NUL]> buf') (words ++ [start']) (t + 1) (S e) Ht'
                  ltac:(lia))
        as (H1 & H2 & H3 & H4); [by rewrite length_insert|].
      rewrite length_insert, Hlen in *. done.
  - cbn [tk_t tk_buf tk_words tk_truncated]. repeat split; try done.
    intros _. lia.
Qed.

(** X15. Whatever [maxWords] (not negative) the caller gives,
    [queryTokenize] returns a count of at most [maxWords] and stores
    exactly that many pointers, each to a character inside the query
    string; when it stops because the word limit is reached it has stored
    [maxWords] words. *)
Theorem queryTokenize_respects_maxWords query maxWords :
  0 ≤ maxWords →
  let tk := queryTokenize query maxWords in
  0 ≤ tk_t tk ≤ maxWords ∧
  tk_t tk = Z.of_nat (length (tk_words tk)) ∧
  Forall (λ off, (off < length query)%nat) (tk_words tk) ∧
  (tk_truncated tk = true → tk_t tk = maxWords).
Proof.
  intros Hmax tk.
  destruct (tokenize_loop_bounds maxWords (S (length query)) query [] 0 0)
    as (H1 & _ & H3 & H4); [done|done|constructor|].
  pose proof (tokenize_loop_t (S (length query)) maxWords query [] 0 0
                eq_refl) as Ht.
  fold (queryTokenize query maxWords) in *. fold tk in H1, H3, H4, Ht.
  cbn zeta in Ht. repeat split; try done. lia.
Qed.

Lemma queryTokenize_respects_maxWords_witness :
  0 ≤ 2 ∧
  tk_t (queryTokenize (list_ascii_of_string "cat dog fish") 2) = 2 ∧
  tk_truncated (queryTokenize (list_ascii_of_string "cat dog fish") 2) = true.
Proof.
  split; [lia|].
  pose proof (queryTokenize_respects_maxWords
                (list_ascii_of_string "cat dog fish") 2 ltac:(lia))
    as (_ & _ & _ & Htr).
  split; [exact (Htr eq_refl)|reflexivity].
Defined.

(** ** The files of the page directory *)

Lemma print_digits_length fuel : ∀ n (k : nat) acc,
  0 ≤ n < 10 ^ Z.of_nat k → (1 ≤ k)%nat →
  (length (print_digits fuel n acc) ≤ k + length acc)%nat.
Proof.
  induction fuel as [|fuel IH]; intros n k acc Hn Hk; cbn [print_digits];
    [lia|].
  destruct (Z.eqb_spec (n / 10) 0) as [|Hne]; [cbn [length]; lia|].
  destruct k as [|k]; [lia|].
  assert (10 ≤ n) as Hten.
  { destruct (Z.lt_ge_cases n 10) as [Hlt|]; [|lia].
    rewrite Z.div_small in Hne by lia. done. }
  destruct k as [|k].
  { change (10 ^ Z.of_nat 1) with 10 in Hn. lia. }
  specialize (IH (n / 10) (S k) (digit (n mod 10) :: acc)).
  cbn [length] in IH. etrans; [apply IH|]; [|lia..].
  split; [apply Z.div_pos; lia|].
  apply Z.div_lt_upper_bound; [lia|].
  replace (Z.of_nat (S (S k))) with (1 + Z.of_nat (S k)) in Hn by lia.
  rewrite Z.pow_add_r in Hn by lia. lia.
Qed.

Lemma print_int_length docID :
  0 ≤ docID ≤ INT_MAX → (length (print_int docID) ≤ 10)%nat.
Proof.
  intros Hd. unfold print_int, print_nat, INT_MAX in *.
  destruct (Z.ltb_spec docID 0); [lia|].
  pose proof (print_digits_length (S (Z.to_nat (Z.log2 docID))) docID 10 [])
    as Hlen.
  cbn [length] in Hlen. rewrite Nat.add_0_r in Hlen. apply Hlen; [|lia].
  change (10 ^ Z.of_nat 10) with 10000000000. lia.
Qed.

Lemma print_nat_inj a b : 0 ≤ a → 0 ≤ b → print_nat a = print_nat b → a = b.
Proof.
  intros Ha Hb Heq.
  pose proof (scan_print_nat a [] Ha (or_introl eq_refl)) as Hsa.
  pose proof (scan_print_nat b [] Hb (or_introl eq_refl)) as Hsb.
  rewrite Heq, Hsb in Hsa. by injection Hsa.
Qed.

Lemma print_int_inj a b : print_int a = print_int b → a = b.
Proof.
  unfold print_int.
  destruct (Z.ltb_spec a 0) as [Ha|Ha], (Z.ltb_spec b 0) as [Hb|Hb].
  - intros [= Heq]. apply print_nat_inj in Heq; lia.
  - destruct (print_nat_cons b Hb) as (c & l & -> & Hc).
    intros [= <- _]. done.
  - destruct (print_nat_cons a Ha) as (c & l & -> & Hc).
    intros [= -> _]. done.
  - by apply print_nat_inj.
Qed.

Lemma string_of_list_ascii_inj l1 l2 :
  string_of_list_ascii l1 = string_of_list_ascii l2 → l1 = l2.
Proof.
  intros H. apply (f_equal list_ascii_of_string) in H.
  by rewrite !list_ascii_of_string_of_list_ascii in H.
Qed.

Lemma snprintf_fits size text :
  (length text < size)%nat → snprintf size text = string_of_list_ascii text.
Proof. intros H. unfold snprintf. by rewrite take_ge by lia. Qed.

Lemma document_path_length pageDirectory docID :
  length (document_path pageDirectory docID)
  = (String.length pageDirectory + 1 + length (print_int docID))%nat.
Proof.
  unfold document_path.
  rewrite length_app, length_list_ascii_of_string. cbn [length]. lia.
Qed.

Lemma save_path_complete pageDirectory docID :
  0 ≤ docID ≤ INT_MAX →
  snprintf (String.length pageDirectory + 12)
    (document_path pageDirectory docID)
  = string_of_list_ascii (document_path pageDirectory docID).
Proof.
  intros Hd. apply snprintf_fits. rewrite document_path_length.
  pose proof (print_int_length docID Hd). lia.
Qed.

Lemma crawler_path_complete pageDirectory :
  snprintf (String.length pageDirectory + String.length "/.crawler" + 1)
    (list_ascii_of_string pageDirectory ++ list_ascii_of_string "/.crawler")
  = string_of_list_ascii
      (list_ascii_of_string pageDirectory ++ list_ascii_of_string "/.crawler").
Proof.
  apply snprintf_fits.
  rewrite length_app, !length_list_ascii_of_string. lia.
Qed.

Lemma document_path_inj pageDirectory d1 d2 :
  document_path pageDirectory d1 = document_path pageDirectory d2 → d1 = d2.
Proof.
  unfold document_path. intros H%app_inv_head. injection H as H.
  by apply print_int_inj.
Qed.

Lemma document_path_not_crawler pageDirectory docID :
  0 ≤ docID →
  document_path pageDirectory docID
  ≠ list_ascii_of_string pageDirectory ++ list_ascii_of_string "/.crawler".
Proof.
  intros Hd. unfold document_path. intros H%app_inv_head.
  cbn [list_ascii_of_string] in H. injection H as H.
  destruct (print_int_digits docID Hd) as [_ Hall].
  rewrite H in Hall. apply Forall_cons in Hall as [Hdot _]. done.
Qed.

(** X16. A directory that [pagedir_init] has marked passes
    [pagedir_validate], and saving pages keeps it so: for a document number
    that an [int] holds, [pagedir_save] names the file
    [pageDirectory/docID] in full (the buffer of [strlen + 12] characters
    is never too short), leaves the marker and the file of every other
    document as they are, and, when the page has a URL and a content, the
    file holds the URL, the depth and the content, each ended by a
    newline.  With a negative number, or a file that cannot be created,
    nothing changes. *)
Theorem pagedir_save_writes_own_file writable page pageDirectory docID fs :
  0 ≤ docID ≤ INT_MAX →
  let path := string_of_list_ascii (document_path pageDirectory docID) in
  let fs' := pagedir_save writable page pageDirectory docID fs in
  (pagedir_validate pageDirectory fs' = pagedir_validate pageDirectory fs) ∧
  (∀ docID', 0 ≤ docID' ≤ INT_MAX → docID' ≠ docID →
     fs' !! string_of_list_ascii (document_path pageDirectory docID')
     = fs !! string_of_list_ascii (document_path pageDirectory docID')) ∧
  (writable path = false → fs' = fs) ∧
  (writable path = true →
   ∀ url html,
     webpage_getURL page = Some url → webpage_getHTML page = Some html →
     fs' !! path
     = Some (list_ascii_of_string url ++ "010"%char
               :: print_int (webpage_getDepth page) ++ "010"%char
               :: list_ascii_of_string html ++ ["010"%char])) ∧
  (∀ fs0, (pagedir_init writable pageDirectory fs0).1 = true →
          pagedir_validate pageDirectory
            (pagedir_init writable pageDirectory fs0).2 = true).
Proof.
  intros Hd path fs'.
  assert (fs' = if writable path
                then <[path := default [] (fs' !! path)]> fs else fs) as Hfs.
  { unfold fs', pagedir_save. destruct (Z.ltb_spec docID 0); [lia|].
    cbn zeta. rewrite save_path_complete by done. fold path.
    destruct (writable path); [|done].
    destruct (webpage_getURL page), (webpage_getHTML page);
      by rewrite lookup_insert_eq. }
  assert (∀ p, p ≠ path → fs' !! p = fs !! p) as Hother.
  { intros p Hp. rewrite Hfs. destruct (writable path); [|done].
    by rewrite lookup_insert_ne. }
  split; [|split; [|split; [|split]]].
  - unfold pagedir_validate. cbn zeta. rewrite crawler_path_complete.
    rewrite Hother; [done|]. unfold path.
    intros H%string_of_list_ascii_inj. symmetry in H.
    by apply document_path_not_crawler in H; [|lia].
  - intros docID' Hd' Hne. apply Hother. unfold path.
    intros H%string_of_list_ascii_inj. by apply document_path_inj in H.
  - intros Hw. rewrite Hfs. by rewrite Hw.
  - intros Hw url html Hurl Hhtml. unfold fs', pagedir_save.
    destruct (Z.ltb_spec docID 0); [lia|]. cbn zeta.
    rewrite save_path_complete by done. fold path.
    rewrite Hw, Hurl, Hhtml. by rewrite lookup_insert_eq.
  - intros fs0. unfold pagedir_init, pagedir_validate. cbn zeta.
    generalize (snprintf
                  (String.length pageDirectory + String.length "/.crawler" + 1)
                  (list_ascii_of_string pageDirectory
                   ++ list_ascii_of_string "/.crawler")).
    intros p. destruct (writable p); cbn [fst snd]; [|done]. intros _.
    rewrite lookup_insert_eq. by apply bool_decide_eq_true_2.
Qed.

Lemma pagedir_save_writes_own_file_witness :
  0 ≤ 7 ≤ INT_MAX ∧
  pagedir_save (λ _, true)
    (Webpage (Some "http://a.b/") 1 (Some "<html>cat</html>")) "data" 7 ∅
  !! "data/7"%string
  = Some (list_ascii_of_string "http://a.b/
1
<html>cat</html>
").
Proof.
  assert (0 ≤ 7 ≤ INT_MAX) as Hd by (unfold INT_MAX; lia).
  split; [exact Hd|].
  destruct (pagedir_save_writes_own_file (λ _, true)
              (Webpage (Some "http://a.b/") 1 (Some "<html>cat</html>"))
              "data" 7 ∅ Hd) as (_ & _ & _ & Hw & _).
  exact (Hw eq_refl _ _ eq_refl eq_refl).
Defined.

(** X17. The name that [printRankedResults] builds in [char
    filename[256]] is the name under which [pagedir_save] wrote the
    document exactly when [pageDirectory], the slash and the digits of the
    document number take at most 255 characters; a longer name is cut
    after 255 characters. *)
Theorem ranked_filename_fits_or_is_cut pageDirectory docID :
  0 ≤ docID ≤ INT_MAX →
  (ranked_filename pageDirectory docID
   = string_of_list_ascii (document_path pageDirectory docID) ↔
   (String.length pageDirectory + 1 + length (print_int docID) ≤ 255)%nat) ∧
  ((255 < String.length pageDirectory + 1 + length (print_int docID))%nat →
   ranked_filename pageDirectory docID
   = string_of_list_ascii (take 255 (document_path pageDirectory docID)) ∧
   String.length (ranked_filename pageDirectory docID) = 255%nat).
Proof.
  intros Hd. unfold ranked_filename, snprintf.
  change (256 - 1)%nat with 255%nat.
  pose proof (document_path_length pageDirectory docID) as Hlen.
  split; [split|].
  - intros H%string_of_list_ascii_inj.
    apply (f_equal length) in H. rewrite length_take in H. lia.
  - intros H. by rewrite take_ge by lia.
  - intros H. split; [done|].
    rewrite <- length_list_ascii_of_string, list_ascii_of_string_of_list_ascii.
    rewrite length_take. lia.
Qed.

Lemma ranked_filename_fits_or_is_cut_witness :
  0 ≤ 12 ≤ INT_MAX ∧ ranked_filename "data/letters" 12 = "data/letters/12"%string.
Proof.
  assert (0 ≤ 12 ≤ INT_MAX) as Hd by (unfold INT_MAX; lia).
  split; [exact Hd|].
  rewrite (proj2 (proj1 (ranked_filename_fits_or_is_cut "data/letters" 12 Hd))).
  - reflexivity.
  - vm_compute. lia.
Defined.

(** ** Copying an index file with indextest *)

Lemma install_words w p v w' :
  is_Some (install v w p !! w') → is_Some (v !! w') ∨ w' = w.
Proof.
  unfold install. destruct ((p.1 <? 0) || (p.2 <? 0)); [by left|].
  rewrite lookup_insert_is_Some. intros [<-|[_ ?]]; [by right|by left].
Qed.

Lemma install_line_words line v w' :
  is_Some (install_line v line !! w') → is_Some (v !! w') ∨ w' = line.1.
Proof.
  unfold install_line. generalize line.1 as w. intros w. revert v.
  induction line.2 as [|p ps IH]; intros v; cbn [foldl]; [by left|].
  intros [H|H]%IH; [|by right]. by apply install_words in H.
Qed.

Lemma install_lines_words lines : ∀ v w',
  is_Some (foldl install_line v lines !! w') →
  is_Some (v !! w') ∨ ∃ line, line ∈ lines ∧ line.1 = w'.
Proof.
  induction lines as [|line lines IH]; intros v w'; cbn [foldl]; [by left|].
  intros [H|(line' & Hin & <-)]%IH.
  - apply install_line_words in H as [H| ->]; [by left|].
    right. exists line. split; [left|done].
  - right. exists line'. split; [by right|done].
Qed.

Lemma install_keeps v w p w' :
  is_Some (v !! w') → is_Some (install v w p !! w').
Proof.
  intros Hw'. unfold install. destruct ((p.1 <? 0) || (p.2 <? 0)); [done|].
  rewrite lookup_insert_is_Some. destruct (decide (w = w')); auto.
Qed.

Lemma install_line_keeps line : ∀ v w',
  is_Some (v !! w') → is_Some (install_line v line !! w').
Proof.
  unfold install_line. generalize line.1 as w. intros w.
  induction line.2 as [|p ps IH]; intros v w' Hw'; cbn [foldl]; [done|].
  by apply IH, install_keeps.
Qed.

Lemma install_lines_keep lines : ∀ v w',
  is_Some (v !! w') → is_Some (foldl install_line v lines !! w').
Proof.
  induction lines as [|line lines IH]; intros v w' Hw'; cbn [foldl]; [done|].
  by apply IH, install_line_keeps.
Qed.

(** A line of the format leaves its word in the index. *)
Lemma install_line_adds v line :
  line_format line → is_Some (install_line v line !! line.1).
Proof.
  destruct line as [w ps]. intros (_ & Hne & Hnn). cbn [fst snd] in *.
  destruct ps as [|p ps]; [done|]. apply Forall_cons in Hnn as [[Hd Hn] _].
  unfold install_line. cbn [foldl fst snd].
  apply (install_line_keeps (w, ps)). unfold install.
  destruct (Z.ltb_spec p.1 0); [lia|]. destruct (Z.ltb_spec p.2 0); [lia|].
  simpl. rewrite lookup_insert_eq. by eexists.
Qed.

Lemma install_bounded v w p :
  view_bounded INT_MAX v → p.1 ≤ INT_MAX → p.2 ≤ INT_MAX →
  view_bounded INT_MAX (install v w p).
Proof.
  intros Hv Hd Hn. unfold install.
  destruct ((p.1 <? 0) || (p.2 <? 0)); [done|].
  intros w' c d n. destruct (decide (w = w')) as [<-|Hne].
  - rewrite lookup_insert_eq. intros [= <-].
    destruct (decide (p.1 = d)) as [<-|Hned].
    + rewrite lookup_insert_eq. by intros [= <-].
    + rewrite lookup_insert_ne by done.
      destruct (v !! w) as [c|] eqn:Ec; simpl; [|done]. by apply (Hv w c).
  - rewrite lookup_insert_ne by done. by apply Hv.
Qed.

Lemma install_lines_bounded lines : ∀ v,
  view_bounded INT_MAX v →
  Forall (λ line, line_ok line = true) lines →
  view_bounded INT_MAX (foldl install_line v lines).
Proof.
  induction lines as [|[w ps] lines IH]; intros v Hv Hok; cbn [foldl];
    [done|].
  apply Forall_cons in Hok as [(_ & _ & Hints)%line_ok_spec Hok].
  apply IH; [|done]. clear IH Hok. cbn [snd] in Hints.
  unfold install_line. cbn [fst snd]. revert v Hv.
  induction ps as [|p ps IHps]; intros v Hv; cbn [foldl]; [done|].
  cbn [forallb] in Hints. apply andb_prop in Hints as [Hp Hints].
  apply andb_prop in Hp as [Hd Hn]. apply is_int_spec in Hd, Hn.
  apply IHps; [done|]. apply install_bounded; (done || lia).
Qed.

(** X18. For an index file in the documented format (at least one line,
    each line a normalized word of at most 255 letters and then one or more
    pairs of numbers from 0 to [INT_MAX]), indextest writes a file in the
    documented format that loads to the same counts as the file it read,
    and it frees the index: the heap at exit is the heap at the start. *)
Theorem indextest_copies_the_index lines h h2 :
  lines ≠ [] →
  Forall line_format lines →
  ∃ index h1 out,
    index_load (Some (render_index lines)) h = Loaded index h1 ∧
    indextest_main (render_index lines) h = Some (out, h) ∧
    index_file_format_ok out = true ∧
    ∃ index' h',
      index_load (Some out) h2 = Loaded index' h' ∧
      ∀ w d, find_get index' h' w d = find_get index h1 w d.
Proof.
  intros Hne Hfmt.
  assert (Forall (λ line, line_ok line = true) lines) as Hok
    by (eapply Forall_impl; [exact Hfmt|]; by intros line [? _]).
  destruct (index_load_render lines h Hne Hok)
    as (index & h1 & Hload & Hwf & Hview).
  pose proof (load_words_built h _ _ _ _ _ _ (index_built_empty h)
                (index_load_Loaded _ _ _ _ Hload)) as Hb.
  assert (∀ w, is_Some (index !! w) →
            normalized_word w = true ∧ word_fits w = true) as Hwords.
  { intros w [l Hl]. destruct Hwf as [Halloc _].
    destruct (Halloc _ _ Hl) as [c Hc].
    assert (is_Some (index_view index h1 !! w)) as Hw
      by (rewrite index_view_lookup, Hl; simpl; by rewrite Hc).
    rewrite Hview in Hw. apply install_lines_words in Hw as [Hw|Hw].
    - rewrite lookup_empty in Hw. by destruct Hw.
    - destruct Hw as (line & Hin & <-).
      eapply Forall_forall in Hok; [|exact Hin].
      by apply line_ok_spec in Hok as (? & ? & _). }
  assert (index ≠ ∅) as Hindex.
  { (* the word of the first line is in the index *)
    destruct lines as [|line lines]; [done|].
    apply Forall_cons in Hfmt as [Hline _].
    assert (is_Some (index_view index h1 !! line.1)) as [c Hc].
    { rewrite Hview. cbn [foldl].
      by apply install_lines_keep, install_line_adds. }
    rewrite index_view_lookup in Hc. intros ->.
    by rewrite lookup_empty in Hc. }
  exists index, h1, (index_save index h1 []).
  split; [done|]. split; [|split].
  - unfold indextest_main. rewrite Hload. f_equal. f_equal.
    apply index_delete_owned, Hb.
  - eapply saved_lines_format_ok; [exact Hb|]. intros w Hw.
    by apply Hwords.
  - rewrite index_save_render. cbn [app].
    destruct Hb as (_ & Hnn & _).
    destruct (index_load_render (saved_lines index h1) h2)
      as (index' & h' & Hload' & _ & Hview').
    { by apply saved_lines_nonempty. }
    { apply (saved_lines_ok
               (λ w, normalized_word w = true ∧ word_fits w = true)
               INT_MAX); try done.
      unfold index_bounded. rewrite Hview.
      by apply install_lines_bounded. }
    exists index', h'. split; [done|]. by apply saved_index_find_get.
Qed.

Lemma indextest_copies_the_index_witness :
  Forall line_format
    [("cat"%string, [(1, 1); (5, 2)]); ("dog"%string, [(2, 1); (5, 3)])] ∧
  ∃ out,
    indextest_main
      (render_index
         [("cat"%string, [(1, 1); (5, 2)]); ("dog"%string, [(2, 1); (5, 3)])])
      ∅
    = Some (out, ∅) ∧
    index_file_format_ok out = true.
Proof.
  assert (Forall line_format
            [("cat"%string, [(1, 1); (5, 2)]);
             ("dog"%string, [(2, 1); (5, 3)])]) as Hfmt
    by (repeat constructor; (done || lia)).
  split; [exact Hfmt|].
  assert ([("cat"%string, [(1, 1); (5, 2)]);
           ("dog"%string, [(2, 1); (5, 3)])] ≠ []) as Hne by done.
  destruct (indextest_copies_the_index _ ∅ ∅ Hne Hfmt)
    as (index & h1 & out & _ & Hmain & Hfmt' & _).
  exists out. split; [exact Hmain|exact Hfmt'].
Defined.

(** ** From the query line to the result lines *)

Lemma positive_scores_elem (c : counters_t) d s :
  DocScore d s ∈ positive_scores c ↔ c !! d = Some s ∧ 0 < s.
Proof.
  unfold positive_scores. rewrite list_elem_of_fmap. split.
  - intros ([d' s'] & [= -> ->] & [Hs Hin]%list_elem_of_filter).
    by apply elem_of_map_to_list in Hin.
  - intros [Hc Hs]. exists (d, s). split; [done|].
    apply list_elem_of_filter. split; [done|]. by apply elem_of_map_to_list.
Qed.

(** X19. End to end: for an index whose counts are not negative and a
    page directory that has the file of every document, a query line of
    letters and white space that passes the syntax check makes
    [processQuery] print a result line "score s doc d: url" exactly for the
    documents [d] whose score [s] is positive, with the [url] that the page
    directory gives for [d].  The score is the count that the evaluator
    keeps for [d] (see X7); when the scores of the and-sequences sum to at
    most [INT_MAX] for every document, it is that sum. *)
Theorem processQuery_lists_the_matches qsort query index pageDirectory h :
  (∀ cmp l, qsort cmp l ≡ₚ l) →
  index_alloc index h →
  (∀ w c, stored index h w = Some c → counters_nonneg c) →
  isValidCharacters query = true →
  isValidQuerySyntax (map lowercase (ws_tokens query)) = true →
  (∀ d, is_Some (pageDirectory d)) →
  (∀ d s url,
     ResultLine s d url ∈ (processQuery qsort query index pageDirectory h).1.1 ↔
     pageDirectory d = Some url ∧
     s = kept_score index h d (map lowercase (ws_tokens query)) ∧ 0 < s) ∧
  ((∀ d, query_score index h d (map lowercase (ws_tokens query)) ≤ INT_MAX) →
   ∀ d s url,
     ResultLine s d url ∈ (processQuery qsort query index pageDirectory h).1.1 ↔
     pageDirectory d = Some url ∧
     s = query_score index h d (map lowercase (ws_tokens query)) ∧ 0 < s).
Proof.
  intros Hperm Halloc Hnn Hchars Hsyntax Hfiles.
  assert (∀ d s url,
     ResultLine s d url ∈ (processQuery qsort query index pageDirectory h).1.1 ↔
     pageDirectory d = Some url ∧
     s = kept_score index h d (map lowercase (ws_tokens query)) ∧ 0 < s)
    as Hkept;
    [|split; [exact Hkept|];
      intros Hfit d s url; rewrite Hkept;
      by rewrite (kept_score_fits index h d _ Hnn (Hfit d))].
  intros d s url.
  rewrite processQuery_words by done. cbn zeta. rewrite Hsyntax. cbn [negb].
  set (words := map lowercase (ws_tokens query)).
  assert (∀ d, default 0 (result_counts (queryEvaluate words index h) !! d)
               = kept_score index h d words) as Hscore.
  { intros d'. rewrite queryEvaluate_counts by done.
    by apply acc_eval_kept_score. }
  destruct (queryEvaluate words index h) as [result h1] eqn:Eq.
  unfold result_counts in Hscore. cbn [fst snd] in Hscore.
  rewrite printRankedResults_cases.
  set (c := default ∅ (deref h1 result)) in *.
  pose proof (rankedScores_Permutation qsort Hperm result h1) as Hranked.
  fold c in Hranked.
  assert (∀ d s, DocScore d s ∈ rankedScores qsort result h1 ↔
                 s = kept_score index h d words ∧ 0 < s) as Hin.
  { intros d' s'. rewrite Hranked, positive_scores_elem.
    specialize (Hscore d'). split.
    - intros [Hc Hs]. rewrite Hc in Hscore. simpl in Hscore. by subst.
    - intros [-> Hs]. split; [|done].
      destruct (c !! d') as [n|]; simpl in *; [by subst|lia]. }
  destruct (positive_scores c) as [|ds0 pos] eqn:Epos.
  - cbn [fst snd]. split.
    + intros [?|[?|[]%elem_of_nil]%elem_of_cons]%elem_of_cons; done.
    + intros (_ & Hs). apply Hin in Hs. rewrite Hranked in Hs.
      by apply elem_of_nil in Hs.
  - pose proof (print_results_lines pageDirectory
                  (rankedScores qsort result h1)) as [Hlines Hexit].
    assert ((print_results pageDirectory
               (rankedScores qsort result h1)).2 = false) as Hok.
    { destruct (print_results _ _).2; [|done].
      apply proj1 in Hexit. specialize (Hexit eq_refl).
      apply Exists_exists in Hexit as (ds & _ & Hds).
      destruct (Hfiles (docID ds)). congruence. }
    cbn [fst snd]. rewrite Hlines by done.
    rewrite !elem_of_cons, list_elem_of_fmap. split.
    + intros [?|[?|(ds & [= -> -> ->] & Hds)]]; [done..|].
      destruct ds as [d' s']. cbn [docID score] in *.
      apply Hin in Hds as [-> Hs]. split; [|done].
      by destruct (Hfiles d') as [url' ->].
    + intros (Hurl & Hs). right. right. exists (DocScore d s).
      cbn [docID score]. rewrite Hurl. split; [done|]. by apply Hin.
Qed.

Lemma processQuery_lists_the_matches_witness :
  isValidCharacters (list_ascii_of_string "Cat and DOG or fish") = true ∧
  isValidQuerySyntax
    (map lowercase (ws_tokens (list_ascii_of_string "Cat and DOG or fish")))
  = true ∧
  ResultLine 2 5 "url"
  ∈ (processQuery merge_qsort (list_ascii_of_string "Cat and DOG or fish")
       pets_index (λ _, Some "url"%string) pets_heap).1.1.
Proof.
  split; [reflexivity|]. split; [reflexivity|].
  apply (proj2 (proj1 (processQuery_lists_the_matches merge_qsort
                         (list_ascii_of_string "Cat and DOG or fish")
                         pets_index (λ _, Some "url"%string) pets_heap
                         merge_qsort_Permutation pets_alloc pets_nonneg
                         eq_refl eq_refl (λ _, mk_is_Some _ _ eq_refl))
                  5 2 "url"%string)).
  split; [reflexivity|]. split; [reflexivity|lia].
Defined.

(** ** The invariants of an index *)

(** X20. The indexes that the programs work on are well-formed: in the
    index that the indexer builds, and in every index that [index_load]
    returns, each word has a counters object of its own, with at least one
    entry, and no document number or count is negative. *)
Theorem index_invariants :
  (∀ files h,
     let st := indexBuild files (index_new 500) h in
     index_wf st.1 st.2 ∧ index_nonneg st.1 st.2 ∧ index_nonempty st.1 st.2) ∧
  (∀ fp h index h',
     index_load (Some fp) h = Loaded index h' →
     index_wf index h' ∧ index_nonneg index h' ∧ index_nonempty index h' ∧
     ∀ w c, stored index h' w = Some c → counters_nonneg c).
Proof.
  split.
  - intros files h.
    destruct (indexBuild_loop_built h files 1 (index_new 500) h
                (index_built_empty h)) as (Hwf & Hnn & _ & Hne).
    done.
  - intros fp h index h' Hload%index_load_Loaded.
    destruct (load_words_built h _ _ _ _ _ _ (index_built_empty h) Hload)
      as (Hwf & Hnn & _ & Hne).
    split; [done|]. split; [done|]. split; [done|]. by apply stored_nonneg.
Qed.

(** ** The order of the operands *)

Lemma foldl_min_le (get : string → Z) (ws : list string) : ∀ m,
  foldl (λ m w, Z.min m (get w)) m ws ≤ m ∧
  ∀ w, w ∈ ws → foldl (λ m w, Z.min m (get w)) m ws ≤ get w.
Proof.
  induction ws as [|w ws IH]; intros m; cbn [foldl].
  - split; [lia|]. by intros w ?%elem_of_nil.
  - destruct (IH (Z.min m (get w))) as [H1 H2]. split; [lia|].
    intros w' [->|Hin]%elem_of_cons; [lia|by apply H2].
Qed.

Lemma foldl_min_attained (get : string → Z) (ws : list string) : ∀ m,
  foldl (λ m w, Z.min m (get w)) m ws = m ∨
  ∃ w, w ∈ ws ∧ foldl (λ m w, Z.min m (get w)) m ws = get w.
Proof.
  induction ws as [|w ws IH]; intros m; cbn [foldl]; [by left|].
  destruct (IH (Z.min m (get w))) as [->|(w' & Hin & ->)].
  - destruct (Z.min_spec m (get w)) as [[_ ->]|[_ ->]]; [by left|].
    right. exists w. split; [left|done].
  - right. exists w'. split; [by right|done].
Qed.

Lemma chain_score_least_count index h d chain :
  search_words chain ≠ [] →
  (∀ w, w ∈ search_words chain →
        chain_score index h d chain ≤ find_get index h w d) ∧
  (∃ w, w ∈ search_words chain ∧
        chain_score index h d chain = find_get index h w d).
Proof.
  unfold chain_score. destruct (search_words chain) as [|w ws]; [done|].
  intros _.
  destruct (foldl_min_le (λ w, find_get index h w d) ws (find_get index h w d))
    as [H1 H2].
  split.
  - intros w' [->|Hin]%elem_of_cons; [done|by apply H2].
  - destruct (foldl_min_attained (λ w, find_get index h w d) ws
                (find_get index h w d)) as [->|(w' & Hin & ->)].
    + exists w. split; [left|done].
    + exists w'. split; [by right|done].
Qed.

Lemma chain_score_Permutation index h d chain1 chain2 :
  search_words chain1 ≡ₚ search_words chain2 →
  chain_score index h d chain1 = chain_score index h d chain2.
Proof.
  intros Hperm.
  destruct (search_words chain1) as [|w1 ws1] eqn:E1.
  { apply Permutation.Permutation_nil in Hperm. unfold chain_score.
    by rewrite E1, Hperm. }
  assert (search_words chain1 ≠ []) as Hne1 by (by rewrite E1).
  assert (search_words chain2 ≠ []) as Hne2.
  { intros E2. rewrite E2 in Hperm. symmetry in Hperm.
    by apply Permutation.Permutation_nil in Hperm. }
  rewrite <- E1 in Hperm.
  destruct (chain_score_least_count index h d chain1 Hne1)
    as [Hle1 (x1 & Hx1 & Heq1)].
  destruct (chain_score_least_count index h d chain2 Hne2)
    as [Hle2 (x2 & Hx2 & Heq2)].
  assert (chain_score index h d chain1 ≤ chain_score index h d chain2).
  { rewrite Heq2. apply Hle1. by rewrite Hperm. }
  assert (chain_score index h d chain2 ≤ chain_score index h d chain1).
  { rewrite Heq1. apply Hle2. by rewrite <- Hperm. }
  lia.
Qed.

Lemma sum_Permutation (l1 l2 : list Z) :
  l1 ≡ₚ l2 → foldr Z.add 0 l1 = foldr Z.add 0 l2.
Proof. induction 1; cbn [foldr]; lia. Qed.

Lemma chain_scores_Permutation index h d
    (chains1 chains2 : list (list string)) :
  Forall2 (λ chain1 chain2, search_words chain1 ≡ₚ search_words chain2)
    chains1 chains2 →
  map (chain_score index h d) chains1 = map (chain_score index h d) chains2.
Proof.
  induction 1 as [|c1 c2 cs1 cs2 Hc _ IH]; [done|].
  cbn [map]. f_equal; [by apply chain_score_Permutation|done].
Qed.

(** X21. The score of a document does not depend on the order of the
    operands, for an index whose counts are not negative.  Two queries
    whose and-sequences have the same words up to their order give every
    document the same count; and so do two queries whose and-sequences are,
    besides, in another order, for every document whose scores sum to at
    most [INT_MAX]. *)
Theorem scores_ignore_operand_order tokens1 tokens2 index h :
  index_alloc index h →
  (∀ w c, stored index h w = Some c → counters_nonneg c) →
  (Forall2 (λ chain1 chain2, search_words chain1 ≡ₚ search_words chain2)
     (and_chains tokens1) (and_chains tokens2) →
   ∀ d, counters_get (queryEvaluate tokens1 index h).2
          (queryEvaluate tokens1 index h).1 d
        = counters_get (queryEvaluate tokens2 index h).2
            (queryEvaluate tokens2 index h).1 d) ∧
  (∀ chains,
     and_chains tokens1 ≡ₚ chains →
     Forall2 (λ chain1 chain2, search_words chain1 ≡ₚ search_words chain2)
       chains (and_chains tokens2) →
     ∀ d, query_score index h d tokens1 ≤ INT_MAX →
          counters_get (queryEvaluate tokens1 index h).2
            (queryEvaluate tokens1 index h).1 d
          = counters_get (queryEvaluate tokens2 index h).2
              (queryEvaluate tokens2 index h).1 d).
Proof.
  intros Halloc Hnn. split.
  - intros Hwords d.
    rewrite !counters_get_result, !queryEvaluate_counts,
      !acc_eval_kept_score by done.
    unfold kept_score. by rewrite (chain_scores_Permutation _ _ _ _ _ Hwords).
  - intros chains Hperm Hwords d Hfit.
    rewrite !counters_get_result, !queryEvaluate_counts,
      !acc_eval_kept_score by done.
    assert (query_score index h d tokens1 = query_score index h d tokens2)
      as Hsum.
    { unfold query_score.
      rewrite (sum_Permutation _ (map (chain_score index h d) chains))
        by (by apply Permutation_map).
      by rewrite (chain_scores_Permutation _ _ _ _ _ Hwords). }
    rewrite !kept_score_fits by (done || lia). done.
Qed.

(** At the limit of [int] the order of the and-sequences shows: "big or
    one" keeps the count [INT_MAX] for document 1, "one or big" the
    count 1. *)
Lemma sequence_order_shows_on_overflow :
  counters_get
    (queryEvaluate ["big"; "or"; "one"]%string limit_index limit_heap).2
    (queryEvaluate ["big"; "or"; "one"]%string limit_index limit_heap).1 1
  = INT_MAX ∧
  counters_get
    (queryEvaluate ["one"; "or"; "big"]%string limit_index limit_heap).2
    (queryEvaluate ["one"; "or"; "big"]%string limit_index limit_heap).1 1
  = 1.
Proof. split; reflexivity. Qed.

Lemma scores_ignore_operand_order_witness :
  index_alloc pets_index pets_heap ∧
  counters_get
    (queryEvaluate ["cat"; "and"; "dog"; "or"; "fish"]%string
       pets_index pets_heap).2
    (queryEvaluate ["cat"; "and"; "dog"; "or"; "fish"]%string
       pets_index pets_heap).1 2
  = counters_get
      (queryEvaluate ["fish"; "or"; "dog"; "cat"]%string
         pets_index pets_heap).2
      (queryEvaluate ["fish"; "or"; "dog"; "cat"]%string
         pets_index pets_heap).1 2.
Proof.
  split; [exact pets_alloc|].
  apply (proj2 (scores_ignore_operand_order
                  ["cat"; "and"; "dog"; "or"; "fish"]%string
                  ["fish"; "or"; "dog"; "cat"]%string
                  pets_index pets_heap pets_alloc pets_nonneg)
           [["fish"]; ["cat"; "and"; "dog"]]%string).
  - apply perm_swap.
  - constructor; [done|]. constructor; [apply perm_swap|constructor].
  - by vm_compute.
Defined.
